(** * Verification of the Sanskrit ingestion pipeline

    A shallow embedding of [sanskrit/context.py], [sanskrit/setup.py] and
    [sanskrit/util/functions.py], followed by the properties of the
    configuration context, the enum registry, the cross-reference resolver,
    the batch writer and the pipeline orchestration.

    Python dictionaries are finite maps ([gmap]), Python sets are finite
    sets ([gset]); code that raises returns a [result]; the module-global
    [ENUM] dictionary, the SQLAlchemy session, the database and standard
    output are threaded through a state-and-exception monad. *)

From Stdlib Require Import Ascii String.
From stdpp Require Import gmap strings list pretty.

Open Scope string_scope.
Open Scope list_scope.
Open Scope stdpp_scope.

(** ** Python values shared by both modules *)

(** The exceptions that reach the modelled code: the [KeyError] of a
    failed dictionary subscription [d[k]], with the key in printed form,
    which the code raises by itself, and the [ArgumentError] with which
    [sqlalchemy.create_engine] turns down a URL. *)
Inductive exn :=
| KeyError (key : string)
| ArgumentError (msg : string).

Inductive result (A : Type) :=
| Ok (a : A)
| Raise (e : exn).
Arguments Ok {A} a.
Arguments Raise {A} e.

Definition is_Ok {A} (r : result A) : bool :=
  match r with Ok _ => true | Raise _ => false end.

(** [d[k]] on a dictionary with string keys. *)
Definition subscript {V} (d : gmap string V) (k : string) : result V :=
  match d !! k with
  | Some v => Ok v
  | None => Raise (KeyError k)
  end.

(** [d.setdefault(k, v)], used for its effect on [d]. *)
Definition setdefault {V} (k : string) (v : V) (d : gmap string V) : gmap string V :=
  match d !! k with
  | Some _ => d
  | None => <[k := v]> d
  end.

(** *** [str] methods (ASCII) *)

Definition ascii_isupper (c : ascii) : bool :=
  let n := nat_of_ascii c in (65 <=? n)%nat && (n <=? 90)%nat.

Definition ascii_islower (c : ascii) : bool :=
  let n := nat_of_ascii c in (97 <=? n)%nat && (n <=? 122)%nat.

Definition ascii_lower (c : ascii) : ascii :=
  if ascii_isupper c then ascii_of_nat (nat_of_ascii c + 32) else c.

Fixpoint str_has (p : ascii -> bool) (s : string) : bool :=
  match s with
  | EmptyString => false
  | String c r => p c || str_has p r
  end.

(** [s.isupper()]: at least one cased character and no lower-case one. *)
Definition str_isupper (s : string) : bool :=
  str_has ascii_isupper s && negb (str_has ascii_islower s).

(** [s.lower()] *)
Fixpoint str_lower (s : string) : string :=
  match s with
  | EmptyString => EmptyString
  | String c r => String (ascii_lower c) (str_lower r)
  end.

(** *** [os.path.join] (posixpath) *)

Definition startswith_slash (s : string) : bool :=
  match s with
  | String c _ => bool_decide (c = "/"%char)
  | EmptyString => false
  end.

Fixpoint endswith_slash (s : string) : bool :=
  match s with
  | EmptyString => false
  | String c EmptyString => bool_decide (c = "/"%char)
  | String _ r => endswith_slash r
  end.

Definition join_component (path b : string) : string :=
  if startswith_slash b then b
  else if bool_decide (path = "") || endswith_slash path then path +:+ b
  else path +:+ "/" +:+ b.

Definition os_path_join (a : string) (p : list string) : string :=
  fold_left join_component p a.

(** ** [sanskrit/context.py] *)

Module context.

(** A settings mapping and the context's [config] dictionary. *)
Abbreviation settings := (gmap string string).

(** The twenty [default(name, file)] calls of [Context.__init__], in
    source order. *)
Definition default_files : list (string * string) :=
  [ ("ADJECTIVE_STEMS", "adjective-stems.csv");
    ("ENUMS", "enums.yml");
    ("GERUNDS", "gerunds.csv");
    ("INDECLINABLES", "indeclinables.yml");
    ("INFINITIVES", "infinitives.csv");
    ("IRREGULAR_ADJECTIVES", "irregular-adjectives.yml");
    ("IRREGULAR_NOUNS", "irregular-nouns.yml");
    ("MODIFIED_ROOTS", "modified-roots.yml");
    ("NOMINAL_ENDINGS", "nominal-endings.yml");
    ("NOUN_STEMS", "noun-stems.csv");
    ("PARTICIPLE_STEMS", "participle-stems.csv");
    ("PREFIX_GROUPS", "prefix-groups.yml");
    ("PREFIXED_ROOTS", "prefixed-roots.yml");
    ("PRONOUNS", "pronouns.yml");
    ("ROOTS", "roots.yml");
    ("SANDHI", "sandhi.yml");
    ("VERB_ENDINGS", "verb-endings.yml");
    ("VERB_PREFIXES", "verb-prefixes.yml");
    ("VERB_STEMS", "verb-stems.yml");
    ("VERBS", "verbs.csv") ].

(** [for key in config: if key.isupper(): self.config[key] = config[key]] *)
Definition copy_upper (config : settings) : settings :=
  filter (fun kv => str_isupper kv.1 = true) config.

(** The inner function [default(name, *args)]: the path is computed, and
    [DATA_PATH] subscripted, before [setdefault] looks at [name]. *)
Definition default (name : string) (args : list string) (config : settings)
  : result settings :=
  match subscript config "DATA_PATH" with
  | Raise e => Raise e
  | Ok data_path =>
      let path := os_path_join data_path ("lang" :: args) in
      Ok (setdefault name path config)
  end.

Fixpoint apply_defaults (ds : list (string * string)) (config : settings)
  : result settings :=
  match ds with
  | [] => Ok config
  | (name, file) :: ds' =>
      match default name [file] config with
      | Raise e => Raise e
      | Ok config' => apply_defaults ds' config'
      end
  end.

(** What the model keeps of a [sqlalchemy] engine: the URL it is bound
    to. *)
Record Engine := { engine_url : string }.

(** The state of a [Context] object: [config], and the engine that
    [connect()] made, if it ran. *)
Record Context := {
  config : settings;
  engine : option Engine;
}.

(** [Context.connect]: [self.engine = create_engine(self.config['DATABASE_URI'])].
    [create_engine] is the library's: it returns an engine or raises, and
    which URLs it takes is its own business, so the model takes it as an
    argument. *)
Definition connect (create_engine : string -> result Engine) (config : settings)
  : result Engine :=
  match subscript config "DATABASE_URI" with
  | Raise e => Raise e
  | Ok uri => create_engine uri
  end.

(** [Context.__init__(config, connect)] for a mapping [config]: an
    exception of [connect()] leaves [__init__], and no context is
    made. *)
Definition Context_init (create_engine : string -> result Engine)
    (cfg : settings) (connect_ : bool) : result Context :=
  match apply_defaults default_files (copy_upper cfg) with
  | Raise e => Raise e
  | Ok c =>
      if connect_ && bool_decide (is_Some (c !! "DATABASE_URI")) then
        match connect create_engine c with
        | Raise e => Raise e
        | Ok e => Ok {| config := c; engine := Some e |}
        end
      else Ok {| config := c; engine := None |}
  end.

(** *** [create_all] *)

(** A [sqlalchemy.Table]; [str(t)] is its name. *)
Record Table := { table_name : string }.

(** The values that meet in [name not in extant]: the set holds table
    names (strings), the loop variable is a [Table] object. *)
Inductive pyobj :=
| PyStr (s : string)
| PyTable (t : Table).

(** Python [==] on these values: a string and a [Table] are never equal,
    two strings are compared by content, a [Table] only equals itself. *)
Definition pyobj_eqb (x y : pyobj) : bool :=
  match x, y with
  | PyStr a, PyStr b => bool_decide (a = b)
  | PyTable a, PyTable b => bool_decide (table_name a = table_name b)
  | _, _ => false
  end.

Definition py_in (x : pyobj) (s : list pyobj) : bool :=
  existsb (pyobj_eqb x) s.

(** The database side of [create_all]: [exists] holds the names of the
    tables present in the database. *)
Definition metadata_create_all (sorted_tables : list Table) (exists_ : gset string)
  : gset string :=
  exists_ ∪ list_to_set (table_name <$> sorted_tables).

(** [Context.create_all]: returns the database's tables afterwards and the
    names printed as ['  [ c ] name']. *)
Definition create_all (sorted_tables : list Table) (exists_ : gset string)
  : gset string * list string :=
  let extant :=
    PyStr <$> (table_name <$>
      filter (fun t => table_name t ∈ exists_) sorted_tables) in
  let exists' := metadata_create_all sorted_tables exists_ in
  let printed :=
    table_name <$>
      filter (fun name => py_in (PyTable name) extant = false) sorted_tables in
  (exists', printed).

(** The tables this call really created. *)
Definition newly_created (sorted_tables : list Table) (exists_ : gset string)
  : list string :=
  table_name <$> filter (fun t => table_name t ∉ exists_) sorted_tables.

(** [Context.drop_all] *)
Definition drop_all (sorted_tables : list Table) (exists_ : gset string)
  : gset string :=
  exists_ ∖ list_to_set (table_name <$> sorted_tables).

(** *** [_build_enums] *)

(** A row of an enum table, as [session.query(cls).all()] yields it. *)
Record enum_item := {
  item_id : nat;
  item_name : string;
  item_abbr : string;
}.

(** Keys of an [enum_abbr] dictionary: an id or a name. *)
Definition abbr_key : Type := nat + string.

Abbreviation enum_id_t := (gmap string nat).
Abbreviation enum_abbr_t := (gmap abbr_key string).

(** [enum_id[item.name] = enum_id[item.abbr] = item.id] *)
Definition enum_id_store (enum_id : enum_id_t) (item : enum_item) : enum_id_t :=
  <[item_abbr item := item_id item]> (<[item_name item := item_id item]> enum_id).

(** [enum_abbr[item.id] = enum_abbr[item.name] = item.abbr] *)
Definition enum_abbr_store (enum_abbr : enum_abbr_t) (item : enum_item)
  : enum_abbr_t :=
  <[inr (item_name item) := item_abbr item]>
    (<[inl (item_id item) := item_abbr item]> enum_abbr).

Definition table_enum_id (rows : list enum_item) : enum_id_t :=
  fold_left enum_id_store rows ∅.

Definition table_enum_abbr (rows : list enum_item) : enum_abbr_t :=
  fold_left enum_abbr_store rows ∅.

(** A gender group as [session.query(GenderGroup)] yields it. *)
Record gender_group := {
  group_id : nat;
  group_members : list nat;   (* [x.id for x in group.members] *)
}.

Record enums := {
  _enum_id : gmap string enum_id_t;
  _enum_abbr : gmap string enum_abbr_t;
  _gender_set : gmap nat (gset nat);
}.

(** [classes] lists [(cls.__tablename__, session.query(cls).all())] for
    [cls in EnumBase.__subclasses__()]. *)
Definition _build_enums (classes : list (string * list enum_item))
    (groups : list gender_group) : enums :=
  let step (acc : gmap string enum_id_t * gmap string enum_abbr_t)
           (c : string * list enum_item) :=
    (<[c.1 := table_enum_id c.2]> acc.1,
     <[c.1 := table_enum_abbr c.2]> acc.2) in
  let tables := fold_left step classes (∅, ∅) in
  {| _enum_id := tables.1;
     _enum_abbr := tables.2;
     _gender_set :=
       fold_left (fun gs group =>
                    <[group_id group := list_to_set (group_members group)]> gs)
                 groups ∅ |}.

End context.

(** ** [sanskrit/setup.py]: data model *)

Module setup.

(** *** The schema classes the pipeline names *)

(** The enum classes of [add_enums]: the nine of its [classes] list, and
    [GenderGroup] of the second pass. *)
Inductive enum_class :=
| Modification | VClass | Person | Number | Mode | Voice | Gender | Case
| SandhiType | GenderGroup.

#[global] Instance enum_class_eq_dec : EqDecision enum_class.
Proof. solve_decision. Defined.

(** [classes] in [add_enums] *)
Definition classes : list enum_class :=
  [Modification; VClass; Person; Number; Mode; Voice; Gender; Case; SandhiType].

(** [cls.__name__] *)
Definition class_name (cls : enum_class) : string :=
  match cls with
  | Modification => "Modification" | VClass => "VClass" | Person => "Person"
  | Number => "Number" | Mode => "Mode" | Voice => "Voice"
  | Gender => "Gender" | Case => "Case" | SandhiType => "SandhiType"
  | GenderGroup => "GenderGroup"
  end.

(** Modelled from the spec: [cls.__tablename__] is declared in
    [sanskrit/schema.py], which is not among the sources.  The names are
    the keys under which the stages of [setup.py] read [ENUM]
    (['vclass'], ['person'], ['number'], ['mode'], ['voice'], ['gender'],
    ['case'], ['sandhi_type'], ['gender_group']) and, for [Modification],
    the category name of the data model. *)
Definition tablename (cls : enum_class) : string :=
  match cls with
  | Modification => "modification" | VClass => "vclass" | Person => "person"
  | Number => "number" | Mode => "mode" | Voice => "voice"
  | Gender => "gender" | Case => "case" | SandhiType => "sandhi_type"
  | GenderGroup => "gender_group"
  end.

(** [mapper = dict(zip(names, classes))] and [mapper.get(enum_name, None)] *)
Definition mapper : gmap string enum_class :=
  list_to_map (zip (class_name <$> classes) classes).

(** *** Rows handed to the store *)

(** Stems are referred to by object ([stem=stem]) in the irregular forms. *)
Inductive stem :=
| NounStem (name : string) (pos_id : option nat) (genders_id : nat)
| AdjectiveStem (name : string) (pos_id : option nat)
| PronounStem (name : string) (genders_id : nat).

Inductive row :=
| Tag (id : nat) (name : string)
| EnumRow (cls : enum_class) (name abbr : string)
| GenderGroupMembers (group_id : nat) (members : list nat)
| SandhiRule (rule : list (string * string)) (rule_type : nat)
| Indeclinable (name : string)
| VerbPrefix (name : string)
| VerbEnding (name category : string) (person_id number_id mode_id voice_id : nat)
| Root (name : string)
| Paradigm (root_id vclass_id voice_id : nat)
| Verb (name : string) (root_id : nat) (vclass_id : option nat)
       (person_id number_id mode_id voice_id : nat)
| Gerund (name : string) (root_id : nat)
| Infinitive (name : string) (root_id : nat)
| ParticipleStem (name : string) (root_id mode_id voice_id : nat)
| NominalEnding (name stem_type : string) (gender_id : nat)
                (case_id number_id : option nat) (compounded : bool)
| Stem (s : stem)
| StemIrregularity (s : stem) (fully_described : bool)
| Noun (s : stem) (name : string) (gender_id case_id number_id : nat)
| Adjective (s : stem) (name : string) (gender_id case_id number_id : nat)
| Pronoun (s : stem) (name : string) (gender_id case_id number_id : nat).

(** The table a row goes to, as far as generated ids are read back
    ([e.id], [root.id], [prefix.id]): rows of one class share the table
    whose autoincrement counter numbers them. *)
Definition table_of (r : row) : string :=
  match r with
  | Tag _ _ => "tag"
  | EnumRow cls _ _ => tablename cls
  | GenderGroupMembers _ _ => "gender_group_members"
  | SandhiRule _ _ => "sandhi_rule"
  | Indeclinable _ => "indeclinable"
  | VerbPrefix _ => "verb_prefix"
  | VerbEnding _ _ _ _ _ _ => "verb_ending"
  | Root _ => "root"
  | Paradigm _ _ _ => "paradigm"
  | Verb _ _ _ _ _ _ _ => "verb"
  | Gerund _ _ => "gerund"
  | Infinitive _ _ => "infinitive"
  | ParticipleStem _ _ _ _ => "participle_stem"
  | NominalEnding _ _ _ _ _ _ => "nominal_ending"
  | Stem _ => "stem"
  | StemIrregularity _ _ => "stem_irregularity"
  | Noun _ _ _ _ _ => "noun"
  | Adjective _ _ _ _ _ => "adjective"
  | Pronoun _ _ _ _ _ => "pronoun"
  end.

(** *** Records read from the resource files

    The YAML and CSV readers are outside the model: a file is the list of
    records its reader yields, a record has the keys the code subscripts,
    a key read with [.get] is an [option], scalars are strings. *)

(** The composite natural key of a root: name and homonym index,
    [None] when the record gives none. *)
Definition root_key : Type := string * option string.
Abbreviation root_map_t := (gmap root_key nat).

Record enum_item := {
  item_name : string;
  item_abbr : string;
  item_members : list string;    (* read for gender groups only *)
}.
Record enum_doc := { enum_name : string; enum_items : list enum_item }.

Record ruleset := {
  ruleset_type : string;
  ruleset_rules : list (list (string * string));
}.

Record prefix_group := { group_name : string; group_items : list string }.

Record verb_ending_row := {
  ve_name : string; ve_person : string; ve_number : string;
}.
Record verb_ending_group := {
  veg_mode : string; veg_voice : string; veg_category : string;
  veg_endings : list verb_ending_row;
}.

Record root_item := {
  ri_name : string;
  ri_paradigms : list (string * string);   (* [row[0]], [row[1]] *)
  ri_hom : option string;                  (* [item.get('hom', None)] *)
}.

Record prefixed_root_item := {
  pr_name : string; pr_basis : string; pr_hom : option string;
  pr_prefixes : list string;
}.

Record verb_row := {
  v_name : string; v_root : string; v_hom : option string;
  v_vclass : string; v_person : string; v_number : string;
  v_mode : string; v_voice : string;
}.

Record indeclinable_row := {
  vi_name : string; vi_root : string; vi_hom : option string;
}.

Record participle_row := {
  p_name : string; p_root : string; p_hom : option string;
  p_mode : string; p_voice : string;
}.

Record nominal_ending_row := {
  ne_name : string; ne_gender : string;
  ne_case : option string;          (* [row.get('case')] *)
  ne_number : option string;        (* [row.get('number')] *)
  ne_compounded : option bool;      (* [row.get('compounded', False)] *)
}.
Record nominal_ending_group := {
  neg_stem : string; neg_endings : list nominal_ending_row;
}.

Record noun_stem_row := { ns_name : string; ns_genders : string }.
Record adjective_stem_row := { as_name : string }.

Record form := {
  f_name : string; f_gender : string; f_case : string; f_number : string;
}.
Record irregular_noun := {
  in_name : string; in_genders : string; in_complete : bool;
  in_forms : list form;
}.
Record irregular_adjective := {
  ia_name : string; ia_complete : bool; ia_forms : list form;
}.
Record pronoun := {
  pn_name : string; pn_genders : string; pn_forms : list form;
}.

(** What [ctx] gives the pipeline: the content of the file each
    [ctx.config[KEY]] names, and the parts of the schema it reads. *)
Record ctx := {
  ENUMS : list enum_doc;
  SANDHI : list ruleset;
  INDECLINABLES : list string;
  VERB_PREFIXES : list prefix_group;
  VERB_ENDINGS : list verb_ending_group;
  ROOTS : list root_item;
  PREFIXED_ROOTS : list prefixed_root_item;
  VERBS : list verb_row;
  GERUNDS : list indeclinable_row;
  INFINITIVES : list indeclinable_row;
  PARTICIPLE_STEMS : list participle_row;
  NOMINAL_ENDINGS : list nominal_ending_group;
  NOUN_STEMS : list noun_stem_row;
  IRREGULAR_NOUNS : list irregular_noun;
  ADJECTIVE_STEMS : list adjective_stem_row;
  IRREGULAR_ADJECTIVES : list irregular_adjective;
  PRONOUNS : list pronoun;
  (* [sanskrit.schema] *)
  Tag_dir : list (string * nat);    (* [(key, getattr(Tag, key))] for [key in dir(Tag)] *)
  Tag_NOUN : nat;
  Tag_ADJECTIVE : nat;
  sorted_tables : list context.Table;   (* [Base.metadata.sorted_tables] *)
}.

(** *** The world the pipeline acts on *)

(** What an observer sees, in order: lines on standard output and calls
    on the store. *)
Inductive event :=
| Heading (s : string) (char : ascii)      (* [util.heading(s, char)] *)
| Tick (s : list string)                   (* [util.tick(s)] *)
| PrintSkipped (n : nat)                   (* [print 'Skipped', n, 'roots.'] *)
| PrintCreated (table : string)            (* [print '  [ c ] table'] *)
| DropAll
| CreateAll
| SessionAdd (r : row)
| SessionFlush
| SessionCommit
| SessionClose
| Execute (rows : list row).               (* [conn.execute(ins, rows)] *)

Record world := {
  ENUM : gmap string (gmap string nat);   (* the module-global [ENUM] *)
  pending : list row;       (* added to the session, not yet committed *)
  database : list row;      (* committed rows, oldest first *)
  tables : gset string;     (* the tables the database has *)
  trace : list event;
}.

(** The pipeline monad: state and [KeyError]. *)
Definition M (A : Type) : Type := world -> result A * world.

#[global] Instance M_ret : MRet M := fun A a w => (Ok a, w).
#[global] Instance M_bind : MBind M := fun A B f m w =>
  match m w with
  | (Ok a, w') => f a w'
  | (Raise e, w') => (Raise e, w')
  end.

Definition lift {A} (r : result A) : M A := fun w => (r, w).

Definition emit (e : event) : M unit := fun w =>
  (Ok tt, {| ENUM := ENUM w; pending := pending w; database := database w;
             tables := tables w; trace := trace w ++ [e] |}).

(** [for x in xs: body] *)
Fixpoint for_ {A} (xs : list A) (body : A -> M unit) : M unit :=
  match xs with
  | [] => mret tt
  | x :: xs' => body x ;; for_ xs' body
  end.

(** A loop that updates local variables [s]. *)
Fixpoint for_fold {A S} (xs : list A) (s : S) (body : S -> A -> M S) : M S :=
  match xs with
  | [] => mret s
  | x :: xs' => s' ← body s x; for_fold xs' s' body
  end.

(** [[f(x) for x in xs]] *)
Fixpoint list_comp {A B} (xs : list A) (f : A -> M B) : M (list B) :=
  match xs with
  | [] => mret []
  | x :: xs' => y ← f x; ys ← list_comp xs' f; mret (y :: ys)
  end.

(** [util.heading] and [util.tick] *)
Definition heading (s : string) (char : ascii) : M unit := emit (Heading s char).
Definition tick (s : list string) : M unit := emit (Tick s).

(** [ENUM[key]] *)
Definition ENUM_get (key : string) : M (gmap string nat) := fun w =>
  (subscript (ENUM w) key, w).

(** [ENUM[key] = d] *)
Definition ENUM_set (key : string) (d : gmap string nat) : M unit := fun w =>
  (Ok tt, {| ENUM := <[key := d]> (ENUM w); pending := pending w;
             database := database w; tables := tables w; trace := trace w |}).

(** [ENUM[key][k] = v] *)
Definition ENUM_setitem (key k : string) (v : nat) : M unit :=
  d ← ENUM_get key; ENUM_set key (<[k := v]> d).

(** [session.add(r)] *)
Definition session_add (r : row) : M unit := fun w =>
  (Ok tt, {| ENUM := ENUM w; pending := pending w ++ [r];
             database := database w; tables := tables w;
             trace := trace w ++ [SessionAdd r] |}).

Definition session_flush : M unit := emit SessionFlush.
Definition session_close : M unit := emit SessionClose.

(** [session.commit()]: what is pending becomes durable. *)
Definition session_commit : M unit := fun w =>
  (Ok tt, {| ENUM := ENUM w; pending := [];
             database := database w ++ pending w; tables := tables w;
             trace := trace w ++ [SessionCommit] |}).

(** [r.id] once [r] has been added and flushed: the tables start empty
    and nothing is deleted, so the store numbers the rows of a table
    1, 2, 3, ... in the order they were added. *)
Definition last_id (table : string) : M nat := fun w =>
  (Ok (length (filter (fun r => table_of r = table) (database w ++ pending w))), w).

(** [conn.execute(ins, rows)] on an autocommitting connection. *)
Definition conn_execute (rows : list row) : M unit := fun w =>
  (Ok tt, {| ENUM := ENUM w; pending := pending w;
             database := database w ++ rows; tables := tables w;
             trace := trace w ++ [Execute rows] |}).

(** [ctx.drop_all()]: the tables of the schema go, with their rows. *)
Definition drop_all (c : ctx) : M unit := fun w =>
  (Ok tt, {| ENUM := ENUM w; pending := pending w; database := [];
             tables := context.drop_all (sorted_tables c) (tables w);
             trace := trace w ++ [DropAll] |}).

(** [ctx.create_all()] *)
Definition create_all (c : ctx) : M unit := fun w =>
  let '(tables', printed) := context.create_all (sorted_tables c) (tables w) in
  (Ok tt, {| ENUM := ENUM w; pending := pending w; database := database w;
             tables := tables';
             trace := trace w ++ CreateAll :: (PrintCreated <$> printed) |}).

(** *** Miscellaneous stages *)

Definition add_tags (c : ctx) : M unit :=
  for_ (Tag_dir c) (fun '(key, id) =>
    if str_isupper key then session_add (Tag id (str_lower key))
    else mret tt) ;;
  session_commit ;;
  session_close.

(** One item of the first pass: insert, flush, record the id. *)
Definition add_enum_item (cls : enum_class) (item : enum_item) : M unit :=
  let enum_abbr := tablename cls in
  let abbr := item_abbr item in
  let e := EnumRow cls (item_name item) abbr in
  session_add e ;;
  session_flush ;;
  id ← last_id (table_of e);
  ENUM_setitem enum_abbr abbr id.

(** First pass of [add_enums]: ordinary enums. *)
Definition add_enums_first_pass (c : ctx) : M unit :=
  for_ (ENUMS c) (fun enum =>
    match mapper !! enum_name enum with
    | None => mret tt                       (* [continue] *)
    | Some cls =>
        ENUM_set (tablename cls) ∅ ;;
        for_ (enum_items enum) (add_enum_item cls) ;;
        tick [class_name cls]
    end) ;;
  session_commit.

(** [ENUM['gender'][x]] *)
Definition gender_member (x : string) : M nat :=
  gender ← ENUM_get "gender"; lift (subscript gender x).

Definition add_gender_group (item : enum_item) : M unit :=
  let cls := GenderGroup in
  let e := EnumRow cls (item_name item) (item_abbr item) in
  session_add e ;;
  session_flush ;;
  members ← list_comp (item_members item) gender_member;
  id ← last_id (table_of e);
  session_add (GenderGroupMembers id members) ;;   (* [e.members = ...] *)
  ENUM_setitem (tablename cls) (item_abbr item) id.

(** Second pass of [add_enums]: gender groups. *)
Definition add_enums_second_pass (c : ctx) : M unit :=
  for_ (ENUMS c) (fun enum =>
    let cls := GenderGroup in
    if bool_decide (enum_name enum ≠ class_name cls) then mret tt
    else
      ENUM_set (tablename cls) ∅ ;;
      for_ (enum_items enum) add_gender_group ;;
      tick [class_name cls]) ;;
  session_commit ;;
  session_close.

Definition add_enums (c : ctx) : M unit :=
  add_enums_first_pass c ;;
  add_enums_second_pass c.

Definition add_sandhi (c : ctx) : M unit :=
  stype ← ENUM_get "sandhi_type";
  for_ (SANDHI c) (fun ruleset =>
    let rule_type := ruleset_type ruleset in
    tick [rule_type] ;;
    for_ (ruleset_rules ruleset) (fun rule =>
      rt ← lift (subscript stype rule_type);
      session_add (SandhiRule rule rt))) ;;
  session_commit ;;
  session_close.

Definition add_indeclinables (c : ctx) : M unit :=
  for_fold (INDECLINABLES c) 0 (fun i name =>
    session_add (Indeclinable name) ;;
    (if bool_decide (i mod 200 = 0) then tick [name] else mret tt) ;;
    mret (S i)) ;;
  session_commit ;;
  session_close.

(** *** Verbal data *)

Definition add_verb_prefixes (c : ctx) : M (gmap string nat) :=
  prefix_map ← for_fold (VERB_PREFIXES c) ∅ (fun prefix_map group =>
    tick [group_name group] ;;
    for_fold (group_items group) prefix_map (fun prefix_map name =>
      let prefix := VerbPrefix name in
      session_add prefix ;;
      session_flush ;;
      id ← last_id (table_of prefix);
      mret (<[name := id]> prefix_map)));
  session_commit ;;
  session_close ;;
  mret prefix_map.

Definition add_verb_endings (c : ctx) : M unit :=
  person ← ENUM_get "person";
  number ← ENUM_get "number";
  mode ← ENUM_get "mode";
  voice ← ENUM_get "voice";
  for_ (VERB_ENDINGS c) (fun group =>
    mode_id ← lift (subscript mode (veg_mode group));
    voice_id ← lift (subscript voice (veg_voice group));
    let category := veg_category group in
    for_ (veg_endings group) (fun row =>
      person_id ← lift (subscript person (ve_person row));
      number_id ← lift (subscript number (ve_number row));
      session_add (VerbEnding (ve_name row) category
                              person_id number_id mode_id voice_id) ;;
      session_flush) ;;
    tick [veg_mode group; veg_voice group; category]) ;;
  session_commit ;;
  session_close.

Definition add_roots (c : ctx) : M root_map_t :=
  vclass ← ENUM_get "vclass";
  voice ← ENUM_get "voice";
  '(root_map, _) ← for_fold (ROOTS c) (∅ : root_map_t, 0)
    (fun '(root_map, i) item =>
      let name := ri_name item in
      let root := Root name in
      session_add root ;;
      session_flush ;;
      root_id ← last_id (table_of root);
      for_ (ri_paradigms item) (fun row =>
        vclass_id ← lift (subscript vclass row.1);
        voice_id ← lift (subscript voice row.2);
        session_add (Paradigm root_id vclass_id voice_id)) ;;
      let hom := ri_hom item in
      let root_map := <[(name, hom) := root_id]> root_map in
      (if bool_decide (i mod 100 = 0) then tick [name] else mret tt) ;;
      mret (root_map, S i));
  session_commit ;;
  session_close ;;
  mret root_map.

(** [homs = [None] + [str(i) for i in range(1, 10)]] *)
Definition homs : list (option string) :=
  None :: ((fun i : nat => Some (pretty i)) <$> seq 1 9).

(** The [for hom in homs] loop of [add_prefixed_roots]: a hit assigns
    [basis_id], a miss passes. *)
Definition scan_homs (root_map : root_map_t) (basis : string)
    (basis_id : option nat) : option nat :=
  fold_left (fun basis_id hom =>
               match root_map !! (basis, hom) with
               | Some id => Some id
               | None => basis_id
               end) homs basis_id.

(** The computation of [basis_id] in [add_prefixed_roots]. *)
Definition basis_lookup (root_map : root_map_t) (basis : string)
    (hom : option string) : option nat :=
  let basis_id := None in
  match root_map !! (basis, hom) with
  | Some id => Some id
  | None => scan_homs root_map basis basis_id
  end.

(** The loop body of [add_verbs]; the local variables are [skipped] and
    [i]. *)
Definition add_verb (root_map : root_map_t)
    (vclass person number mode voice : gmap string nat)
    (s : gset root_key * nat) (row : verb_row) : M (gset root_key * nat) :=
  let '(skipped, i) := s in
  let root := v_root row in
  let hom := v_hom row in
  match root_map !! (root, hom) with
  | None => mret (skipped ∪ {[ (root, hom) ]}, i)        (* [continue] *)
  | Some root_id =>
      vclass_id ← (if bool_decide (v_vclass row ≠ "")
                   then id ← lift (subscript vclass (v_vclass row)); mret (Some id)
                   else mret None);
      person_id ← lift (subscript person (v_person row));
      number_id ← lift (subscript number (v_number row));
      mode_id ← lift (subscript mode (v_mode row));
      voice_id ← lift (subscript voice (v_voice row));
      session_add (Verb (v_name row) root_id vclass_id
                        person_id number_id mode_id voice_id) ;;
      let i := S i in
      (if bool_decide (i mod 1000 = 0)
       then tick [v_name row] ;; session_commit
       else mret tt) ;;
      mret (skipped, i)
  end.

Definition add_verbs (c : ctx) (root_map : root_map_t) : M unit :=
  vclass ← ENUM_get "vclass";
  person ← ENUM_get "person";
  number ← ENUM_get "number";
  mode ← ENUM_get "mode";
  voice ← ENUM_get "voice";
  '(skipped, _) ← for_fold (VERBS c) (∅, 0)
                    (add_verb root_map vclass person number mode voice);
  session_commit ;;
  session_close ;;
  emit (PrintSkipped (size skipped)).

(** The loop body of [add_verbal_indeclinables] for one file;
    [cls] is [Gerund] or [Infinitive]. *)
Definition add_verbal_indeclinable (root_map : root_map_t)
    (cls : string -> nat -> row)
    (skipped : gset root_key) (row : indeclinable_row) : M (gset root_key) :=
  let root := vi_root row in
  let hom := vi_hom row in
  match root_map !! (root, hom) with
  | None => mret (skipped ∪ {[ (root, hom) ]})           (* [continue] *)
  | Some root_id =>
      session_add (cls (vi_name row) root_id) ;;
      mret skipped
  end.

Definition add_verbal_indeclinables (c : ctx) (root_map : root_map_t) : M unit :=
  let items := [ (GERUNDS c, Gerund); (INFINITIVES c, Infinitive) ] in
  _ ← for_fold items (∅ : gset root_key) (fun skipped '(file, cls) =>
        for_fold file skipped (add_verbal_indeclinable root_map cls));
  session_commit.

(** The loop body of [add_participle_stems]. *)
Definition add_participle_stem (root_map : root_map_t)
    (mode voice : gmap string nat)
    (s : gset root_key * nat) (row : participle_row) : M (gset root_key * nat) :=
  let '(skipped, i) := s in
  let root := p_root row in
  let hom := p_hom row in
  match root_map !! (root, hom) with
  | None => mret (skipped ∪ {[ (root, hom) ]}, i)        (* [continue] *)
  | Some root_id =>
      mode_id ← lift (subscript mode (p_mode row));
      voice_id ← lift (subscript voice (p_voice row));
      session_add (ParticipleStem (p_name row) root_id mode_id voice_id) ;;
      let i := S i in
      (if bool_decide (i mod 100 = 0)
       then tick [p_name row] ;; session_commit
       else mret tt) ;;
      mret (skipped, i)
  end.

Definition add_participle_stems (c : ctx) (root_map : root_map_t) : M unit :=
  mode ← ENUM_get "mode";
  voice ← ENUM_get "voice";
  '(skipped, _) ← for_fold (PARTICIPLE_STEMS c) (∅, 0)
                    (add_participle_stem root_map mode voice);
  session_commit ;;
  session_close ;;
  emit (PrintSkipped (size skipped)).

(** [add_verbal] returns before its call of [add_prefixed_roots]. *)
Definition add_verbal (c : ctx) : M unit :=
  heading "Verb prefixes" "-" ;;
  prefixes ← add_verb_prefixes c;
  heading "Verb endings" "-" ;;
  add_verb_endings c ;;
  heading "Roots and paradigms" "-" ;;
  roots ← add_roots c;
  heading "Verbs" "-" ;;
  add_verbs c roots ;;
  heading "Participle stems" "-" ;;
  add_participle_stems c roots ;;
  heading "Verbal indeclinables" "-" ;;
  add_verbal_indeclinables c roots.

(** *** Nominal data *)

(** [d.get(k)] for a key that may itself be [None]. *)
Definition dict_get (d : gmap string nat) (k : option string) : option nat :=
  k ≫= (d !!.).

Definition add_nominal_endings (c : ctx) : M unit :=
  gender ← ENUM_get "gender";
  case ← ENUM_get "case";
  number ← ENUM_get "number";
  for_ (NOMINAL_ENDINGS c) (fun group =>
    let stem_type := neg_stem group in
    for_ (neg_endings group) (fun row =>
      gender_id ← lift (subscript gender (ne_gender row));
      let case_id := dict_get case (ne_case row) in
      let number_id := dict_get number (ne_number row) in
      let compounded := default false (ne_compounded row) in
      session_add (NominalEnding (ne_name row) stem_type gender_id
                                 case_id number_id compounded) ;;
      session_flush) ;;
    tick [stem_type]) ;;
  session_commit ;;
  session_close.

(** The loop body of [add_noun_stems]; the local variables are [buf]
    and [i]. *)
Definition add_noun_stem (gender_group : gmap string nat) (pos_id : nat)
    (s : list row * nat) (noun : noun_stem_row) : M (list row * nat) :=
  let '(buf, i) := s in
  let name := ns_name noun in
  genders_id ← lift (subscript gender_group (ns_genders noun));
  let buf := buf ++ [Stem (NounStem name (Some pos_id) genders_id)] in
  let i := S i in
  if bool_decide (i mod 500 = 0)
  then tick [name] ;; conn_execute buf ;; mret ([], i)
  else mret (buf, i).

Definition add_noun_stems (c : ctx) : M unit :=
  gender_group ← ENUM_get "gender_group";
  let pos_id := Tag_NOUN c in
  '(buf, _) ← for_fold (NOUN_STEMS c) ([], 0) (add_noun_stem gender_group pos_id);
  match buf with
  | [] => mret tt
  | _ :: _ => conn_execute buf
  end.

Definition add_form (cls : stem -> string -> nat -> nat -> nat -> row)
    (flush : bool) (gender case number : gmap string nat) (st : stem)
    (f : form) : M unit :=
  let name := f_name f in
  gender_id ← lift (subscript gender (f_gender f));
  case_id ← lift (subscript case (f_case f));
  number_id ← lift (subscript number (f_number f));
  session_add (cls st name gender_id case_id number_id) ;;
  if flush then session_flush else mret tt.

Definition add_irregular_nouns (c : ctx) : M unit :=
  gender_group ← ENUM_get "gender_group";
  gender ← ENUM_get "gender";
  case ← ENUM_get "case";
  number ← ENUM_get "number";
  for_ (IRREGULAR_NOUNS c) (fun noun =>
    genders_id ← lift (subscript gender_group (in_genders noun));
    let st := NounStem (in_name noun) None genders_id in
    session_add (Stem st) ;;
    session_flush ;;
    session_add (StemIrregularity st (in_complete noun)) ;;
    session_flush ;;
    tick [in_name noun] ;;
    for_ (in_forms noun) (add_form Noun true gender case number st)) ;;
  session_commit ;;
  session_close.

(** The loop body of [add_adjective_stems]. *)
Definition add_adjective_stem (pos_id : nat)
    (s : list row * nat) (adj : adjective_stem_row) : M (list row * nat) :=
  let '(buf, i) := s in
  let name := as_name adj in
  let buf := buf ++ [Stem (AdjectiveStem name (Some pos_id))] in
  let i := S i in
  if bool_decide (i mod 500 = 0)
  then tick [name] ;; conn_execute buf ;; mret ([], i)
  else mret (buf, i).

Definition add_adjective_stems (c : ctx) : M unit :=
  let pos_id := Tag_ADJECTIVE c in
  '(buf, _) ← for_fold (ADJECTIVE_STEMS c) ([], 0) (add_adjective_stem pos_id);
  match buf with
  | [] => mret tt
  | _ :: _ => conn_execute buf
  end.

Definition add_irregular_adjectives (c : ctx) : M unit :=
  gender ← ENUM_get "gender";
  case ← ENUM_get "case";
  number ← ENUM_get "number";
  for_ (IRREGULAR_ADJECTIVES c) (fun adj =>
    let st := AdjectiveStem (ia_name adj) None in
    session_add (Stem st) ;;
    session_flush ;;
    session_add (StemIrregularity st (ia_complete adj)) ;;
    session_flush ;;
    tick [ia_name adj] ;;
    for_ (ia_forms adj) (add_form Adjective false gender case number st)) ;;
  session_commit ;;
  session_close.

Definition add_pronouns (c : ctx) : M unit :=
  gender_group ← ENUM_get "gender_group";
  gender ← ENUM_get "gender";
  case ← ENUM_get "case";
  number ← ENUM_get "number";
  for_ (PRONOUNS c) (fun pronoun =>
    genders_id ← lift (subscript gender_group (pn_genders pronoun));
    let st := PronounStem (pn_name pronoun) genders_id in
    session_add (Stem st) ;;
    session_flush ;;
    tick [pn_name pronoun] ;;
    for_ (pn_forms pronoun) (add_form Pronoun true gender case number st)) ;;
  session_commit ;;
  session_close.

Definition add_nominals (c : ctx) : M unit :=
  heading "Nominal endings" "-" ;;
  add_nominal_endings c ;;
  heading "Noun stems" "-" ;;
  add_noun_stems c ;;
  heading "Irregular nouns" "-" ;;
  add_irregular_nouns c ;;
  heading "Adjective stems" "-" ;;
  add_adjective_stems c ;;
  heading "Irregular adjectives" "-" ;;
  add_irregular_adjectives c ;;
  heading "Pronouns" "-" ;;
  add_pronouns c.

(** *** Main *)

(** [functions] in [run] *)
Definition functions : list (string * (ctx -> M unit)) :=
  [ ("Tags", add_tags);
    ("Enumerated data", add_enums);
    ("Sandhi", add_sandhi);
    ("Indeclinables", add_indeclinables);
    ("Verbal data", add_verbal);
    ("Nominal data", add_nominals) ].

Definition run (c : ctx) : M unit :=
  drop_all c ;;
  create_all c ;;
  for_ functions (fun '(name, f) =>
    heading name "~" ;;
    f c).

End setup.

(** * Vocabulary of the properties *)

Section context_vocabulary.
Import context.

(** The path [default] computes for a file. *)
Definition default_path (data_path file : string) : string :=
  os_path_join data_path ["lang"; file].

(** Every key of the defaults table is upper-case, differs from the two
    non-path settings, and occurs once. *)
Definition path_key_ok (p : string * string) : Prop :=
  str_isupper p.1 = true /\ p.1 <> "DATA_PATH" /\ p.1 <> "DATABASE_URI" /\
  (list_to_map default_files : gmap string string) !! p.1 = Some p.2.

(** A row [item] of an enum table is two-way keyed in the registry [e]:
    the table's [enum_id] sends its name and its abbreviation to its id,
    the table's [enum_abbr] sends its id and its name to its
    abbreviation. *)
Definition two_way_keyed (e : enums) (key : string) (item : enum_item) : Prop :=
  exists enum_id enum_abbr,
    _enum_id e !! key = Some enum_id /\
    _enum_abbr e !! key = Some enum_abbr /\
    enum_id !! item_name item = Some (item_id item) /\
    enum_id !! item_abbr item = Some (item_id item) /\
    enum_abbr !! (inl (item_id item) : abbr_key) = Some (item_abbr item) /\
    enum_abbr !! (inr (item_name item) : abbr_key) = Some (item_abbr item).

(** A later row [r] reuses none of the keys [item] is stored under. *)
Definition no_clash (item r : enum_item) : Prop :=
  item_id r <> item_id item /\
  item_name r <> item_name item /\ item_abbr r <> item_name item /\
  item_name r <> item_abbr item /\ item_abbr r <> item_abbr item.

(** [connect()] will get its engine: [create_engine] takes the URI the
    settings supply as [DATABASE_URI], when a connection is asked for. *)
Definition engine_ok (create_engine : string -> result Engine) (cfg : settings)
    (connect_ : bool) : Prop :=
  forall u, connect_ = true -> cfg !! "DATABASE_URI" = Some u ->
            is_Ok (create_engine u) = true.

(** An engine maker that, like the library's, turns down the empty
    URL. *)
Definition sample_create_engine (u : string) : result Engine :=
  if bool_decide (u = "") then Raise (ArgumentError "Could not parse rfc1738 URL")
  else Ok {| engine_url := u |}.

End context_vocabulary.

Section setup_vocabulary.
Import setup.

(** *** Observations on a trace *)

(** The headings printed, oldest first. *)
Definition headings (t : list event) : list (string * ascii) :=
  omap (fun e => match e with Heading s c => Some (s, c) | _ => None end) t.

(** The skip counts reported. *)
Definition reported_skips (t : list event) : list nat :=
  omap (fun e => match e with PrintSkipped n => Some n | _ => None end) t.

(** The bulk inserts issued. *)
Definition executed (t : list event) : list (list row) :=
  omap (fun e => match e with Execute rows => Some rows | _ => None end) t.

(** Neither a heading nor a schema operation. *)
Definition stage_event (e : event) : Prop :=
  match e with
  | Heading _ _ | DropAll | CreateAll | PrintCreated _ => False
  | _ => True
  end.

(** A computation ends in a [KeyError] from the world [w]. *)
Definition aborts {A} (m : M A) (w : world) : Prop :=
  exists key w', m w = (Raise (KeyError key), w').

(** *** Cross-reference resolution *)

(** The id of the last index of [scan] under which [basis] is in the
    root map. *)
Definition last_match (root_map : root_map_t) (basis : string)
    (scan : list (option string)) : option nat :=
  last (omap (fun hom => root_map !! (basis, hom)) scan).

(** The scan as the claim words it: indices 0 to 9, and none. *)
Definition scan_0_to_9_and_none : list (option string) :=
  ((fun i : nat => Some (pretty i)) <$> seq 0 10) ++ [None].

Definition verb_key (row : verb_row) : root_key := (v_root row, v_hom row).
Definition participle_key (row : participle_row) : root_key := (p_root row, p_hom row).
Definition indeclinable_key (row : indeclinable_row) : root_key :=
  (vi_root row, vi_hom row).

(** The pairs of [keys] that the root map does not have, one entry per
    record. *)
Definition unresolved (root_map : root_map_t) (keys : list root_key)
  : list root_key :=
  filter (fun k => root_map !! k = None) keys.

(** The [Verb] that [add_verbs] builds for a record whose root resolved
    to [root_id]; [None] when one of its enum names is unknown. *)
Definition verb_record (vclass person number mode voice : gmap string nat)
    (row : verb_row) (root_id : nat) : option setup.row :=
  vclass_id ← (if bool_decide (v_vclass row ≠ "")
               then Some <$> vclass !! v_vclass row else Some None);
  person_id ← person !! v_person row;
  number_id ← number !! v_number row;
  mode_id ← mode !! v_mode row;
  voice_id ← voice !! v_voice row;
  Some (Verb (v_name row) root_id vclass_id person_id number_id mode_id voice_id).

Definition participle_record (mode voice : gmap string nat)
    (row : participle_row) (root_id : nat) : option setup.row :=
  mode_id ← mode !! p_mode row;
  voice_id ← voice !! p_voice row;
  Some (ParticipleStem (p_name row) root_id mode_id voice_id).

(** What a stage inserts for a record: nothing when its root pair does
    not resolve, or when [record] has no row for it. *)
Definition resolved_record {R : Type} (root_map : root_map_t) (key : R -> root_key)
    (record : R -> nat -> option row) (r : R) : option row :=
  root_id ← root_map !! key r; record r root_id.

(** Every record whose root resolves has its row. *)
Definition records_resolve {R : Type} (root_map : root_map_t) (key : R -> root_key)
    (record : R -> nat -> option row) (rs : list R) : Prop :=
  Forall (fun r => forall root_id, root_map !! key r = Some root_id ->
                     is_Some (record r root_id)) rs.

(** The rows of the two files of the verbal indeclinables stage. *)
Definition gerund_record (row : indeclinable_row) (root_id : nat) : option setup.row :=
  Some (Gerund (vi_name row) root_id).

Definition infinitive_record (row : indeclinable_row) (root_id : nat)
  : option setup.row :=
  Some (Infinitive (vi_name row) root_id).

(** The state of a resolving loop after the records [done]: the skipped
    set holds the pairs that did not resolve, the session and the
    database together have gained the rows of the records that did, and
    nothing has been reported. *)
Definition resolving {R : Type} (root_map : root_map_t) (key : R -> root_key)
    (record : R -> nat -> option row) (w0 : world) (done : list R)
    (skipped : gset root_key) (w : world) : Prop :=
  skipped = list_to_set (unresolved root_map (key <$> done)) /\
  database w ++ pending w
    = (database w0 ++ pending w0) ++ omap (resolved_record root_map key record) done /\
  reported_skips (trace w) = reported_skips (trace w0) /\
  ENUM w = ENUM w0.

(** The five enum tables [add_verbs] reads. *)
Definition verb_tables (w : world) (vclass person number mode voice : gmap string nat)
  : Prop :=
  ENUM w !! "vclass" = Some vclass /\ ENUM w !! "person" = Some person /\
  ENUM w !! "number" = Some number /\ ENUM w !! "mode" = Some mode /\
  ENUM w !! "voice" = Some voice.

(** The two enum tables [add_participle_stems] reads. *)
Definition participle_tables (w : world) (mode voice : gmap string nat) : Prop :=
  ENUM w !! "mode" = Some mode /\ ENUM w !! "voice" = Some voice.

(** *** Enum references *)

(** [ENUM[category][name]] raises. *)
Definition missing (E : gmap string (gmap string nat)) (category name : string)
  : Prop :=
  (E !! category ≫= (.!! name)) = None.

Definition form_unresolved (E : gmap string (gmap string nat)) (f : form) : Prop :=
  missing E "gender" (f_gender f) \/ missing E "case" (f_case f) \/
  missing E "number" (f_number f).

Definition verb_unresolved (E : gmap string (gmap string nat)) (row : verb_row)
  : Prop :=
  (v_vclass row <> "" /\ missing E "vclass" (v_vclass row)) \/
  missing E "person" (v_person row) \/ missing E "number" (v_number row) \/
  missing E "mode" (v_mode row) \/ missing E "voice" (v_voice row).

(** The [NominalEnding] built for a row: the gender is subscripted, case
    and number go through [dict.get]. *)
Definition nominal_ending_record (gender case number : gmap string nat)
    (stem_type : string) (row : nominal_ending_row) : option setup.row :=
  gender_id ← gender !! ne_gender row;
  Some (NominalEnding (ne_name row) stem_type gender_id
          (ne_case row ≫= (case !!.)) (ne_number row ≫= (number !!.))
          (from_option id false (ne_compounded row))).

(** The three enum tables [add_nominal_endings] reads. *)
Definition nominal_tables (w : world) (gender case number : gmap string nat) : Prop :=
  ENUM w !! "gender" = Some gender /\ ENUM w !! "case" = Some case /\
  ENUM w !! "number" = Some number.

(** The rows of a nominal endings file, group after group. *)
Definition nominal_ending_rows (gender case number : gmap string nat)
    (groups : list nominal_ending_group) : list row :=
  concat ((fun group =>
             omap (nominal_ending_record gender case number (neg_stem group))
                  (neg_endings group)) <$> groups).

(** The gender of every ending of every group is in the gender table. *)
Definition genders_resolve (gender : gmap string nat)
    (groups : list nominal_ending_group) : Prop :=
  Forall (fun group =>
            Forall (fun row => is_Some (gender !! ne_gender row)) (neg_endings group))
         groups.

(** The [gender] table is the same in both worlds. *)
Definition same_gender_table (w w' : world) : Prop :=
  ENUM w' !! "gender" = ENUM w !! "gender".

(** *** Batch writer *)

Definition noun_stem_payload (gender_group : gmap string nat) (pos_id : nat)
    (noun : noun_stem_row) : option row :=
  genders_id ← gender_group !! ns_genders noun;
  Some (Stem (NounStem (ns_name noun) (Some pos_id) genders_id)).

Definition adjective_stem_payload (pos_id : nat) (adj : adjective_stem_row) : row :=
  Stem (AdjectiveStem (as_name adj) (Some pos_id)).

(** [batches] cuts [rows] into bulk inserts of [threshold] rows, the last
    one holding what remains and never empty. *)
Definition batched (threshold : nat) (batches : list (list row))
    (rows : list row) : Prop :=
  concat batches = rows /\
  Forall (fun b => b <> [] /\ length b <= threshold) batches /\
  forall i b, batches !! i = Some b -> S i < length batches ->
              length b = threshold.

(** *** Orchestration *)

(** The headings of a complete run, in order: ['~'] for the stages of
    [run], ['-'] for those of [add_verbal] and [add_nominals]. *)
Definition pipeline_headings : list (string * ascii) :=
  [ ("Tags", "~"%char); ("Enumerated data", "~"%char); ("Sandhi", "~"%char);
    ("Indeclinables", "~"%char);
    ("Verbal data", "~"%char);
    ("Verb prefixes", "-"%char); ("Verb endings", "-"%char);
    ("Roots and paradigms", "-"%char); ("Verbs", "-"%char);
    ("Participle stems", "-"%char); ("Verbal indeclinables", "-"%char);
    ("Nominal data", "~"%char);
    ("Nominal endings", "-"%char); ("Noun stems", "-"%char);
    ("Irregular nouns", "-"%char); ("Adjective stems", "-"%char);
    ("Irregular adjectives", "-"%char); ("Pronouns", "-"%char) ].

(** A schema operation of [run], or a line [create_all] prints. *)
Definition schema_event (e : event) : Prop :=
  match e with
  | DropAll | CreateAll | PrintCreated _ => True
  | _ => False
  end.

(** The world has gained stage events only. *)
Definition quiet (w w' : world) : Prop :=
  exists t, trace w' = trace w ++ t /\ Forall stage_event t.

(** Whatever way [m] ends, it has printed a prefix of the headings [hs]
    and done no schema operation; when it ends normally it has printed
    them all. *)
Definition announces {A} (hs : list (string * ascii)) (m : M A) : Prop :=
  forall w r w', m w = (r, w') ->
    exists t, trace w' = trace w ++ t /\
      Forall (fun e => ~ schema_event e) t /\
      headings t `prefix_of` hs /\
      (is_Ok r = true -> headings t = hs).

(** The run as the specification words it: all tables are dropped, then
    recreated, then the stages run in the fixed order, each under its
    heading, the verbal and nominal stages one sub-stage after the other;
    the three stages that resolve root references get the root map that
    the roots stage returned. *)
Definition run_in_fixed_order (c : ctx) : M unit :=
  drop_all c ;;
  create_all c ;;
  heading "Tags" "~" ;; add_tags c ;;
  heading "Enumerated data" "~" ;; add_enums c ;;
  heading "Sandhi" "~" ;; add_sandhi c ;;
  heading "Indeclinables" "~" ;; add_indeclinables c ;;
  heading "Verbal data" "~" ;;
  heading "Verb prefixes" "-" ;; _ ← add_verb_prefixes c;
  heading "Verb endings" "-" ;; add_verb_endings c ;;
  heading "Roots and paradigms" "-" ;; roots ← add_roots c;
  heading "Verbs" "-" ;; add_verbs c roots ;;
  heading "Participle stems" "-" ;; add_participle_stems c roots ;;
  heading "Verbal indeclinables" "-" ;; add_verbal_indeclinables c roots ;;
  heading "Nominal data" "~" ;;
  heading "Nominal endings" "-" ;; add_nominal_endings c ;;
  heading "Noun stems" "-" ;; add_noun_stems c ;;
  heading "Irregular nouns" "-" ;; add_irregular_nouns c ;;
  heading "Adjective stems" "-" ;; add_adjective_stems c ;;
  heading "Irregular adjectives" "-" ;; add_irregular_adjectives c ;;
  heading "Pronouns" "-" ;; add_pronouns c.

(** The world with [E] for its [ENUM]. *)
Definition with_ENUM (E : gmap string (gmap string nat)) (w : world) : world :=
  {| ENUM := E; pending := pending w; database := database w; tables := tables w;
     trace := trace w |}.

(** [m] neither reads nor writes [ENUM]: put any [ENUM] in place, [m]
    ends the same way, in the same world but for that [ENUM]. *)
Definition ignores_ENUM {A} (m : M A) : Prop :=
  forall E w, m (with_ENUM E w) = ((m w).1, with_ENUM E (m w).2).

(** *** Reasoning vocabulary *)

(** Every run of [m] relates the world before to the world after. *)
Definition respects (R : relation world) {A} (m : M A) : Prop :=
  forall w r w', m w = (r, w') -> R w w'.

(** From every world that satisfies [P], [m] ends in an exception. *)
Definition raises_in (P : world -> Prop) {A} (m : M A) : Prop :=
  forall w, P w -> exists e w', m w = (Raise e, w').

(** Whatever exception [m] ends in is a [KeyError]. *)
Definition only_KeyError {A} (m : M A) : Prop :=
  forall w e w', m w = (Raise e, w') -> exists key, e = KeyError key.

(** [m] keeps [P]. *)
Definition preserves (P : world -> Prop) {A} (m : M A) : Prop :=
  forall w r w', P w -> m w = (r, w') -> P w'.

(** The state of a batching loop after the records [done]: full batches
    have been executed, the rest waits in [buf]. *)
Definition batching {A} (payload : A -> option row) (w0 : world)
    (done : list A) (s : list row * nat) (w : world) : Prop :=
  exists batches,
    executed (trace w) = executed (trace w0) ++ batches /\
    Forall (fun b => length b = 500) batches /\
    omap payload done = concat batches ++ s.1 /\
    s.2 = length done /\ length s.1 = s.2 mod 500 /\
    database w = database w0 ++ concat batches /\
    pending w = pending w0 /\ ENUM w = ENUM w0.

(** One turn of a batching loop body. *)
Definition batch_step (name : string) (r : row) (s : list row * nat)
  : M (list row * nat) :=
  let buf := s.1 ++ [r] in
  let i := S s.2 in
  if bool_decide (i mod 500 = 0)
  then tick [name] ;; conn_execute buf ;; mret ([], i)
  else mret (buf, i).

(** The final [if buf: conn.execute(ins, buf)]. *)
Definition final_flush (buf : list row) : M unit :=
  match buf with
  | [] => mret tt
  | _ :: _ => conn_execute buf
  end.

(** *** A small instance

    Resource files of a few records each, the root map of a roots file
    that holds [gam] alone, and the [ENUM] tables the stages read.  Two
    verbs and a gerund name the root [bhU], which the root map does not
    have. *)

Definition sample_ctx : ctx :=
  {| ENUMS :=
       [ {| enum_name := "VClass";
            enum_items := [ {| item_name := "class 1"; item_abbr := "1";
                               item_members := [] |} ] |};
         {| enum_name := "Person";
            enum_items := [ {| item_name := "third"; item_abbr := "3";
                               item_members := [] |} ] |};
         {| enum_name := "Number";
            enum_items := [ {| item_name := "singular"; item_abbr := "s";
                               item_members := [] |};
                            {| item_name := "plural"; item_abbr := "p";
                               item_members := [] |} ] |};
         {| enum_name := "Mode";
            enum_items := [ {| item_name := "present"; item_abbr := "pres";
                               item_members := [] |} ] |};
         {| enum_name := "Voice";
            enum_items := [ {| item_name := "parasmaipada"; item_abbr := "para";
                               item_members := [] |} ] |};
         {| enum_name := "Gender";
            enum_items := [ {| item_name := "masculine"; item_abbr := "m";
                               item_members := [] |};
                            {| item_name := "neuter"; item_abbr := "n";
                               item_members := [] |} ] |};
         {| enum_name := "Case";
            enum_items := [ {| item_name := "nominative"; item_abbr := "1";
                               item_members := [] |} ] |};
         {| enum_name := "SandhiType";
            enum_items := [ {| item_name := "internal"; item_abbr := "internal";
                               item_members := [] |} ] |};
         {| enum_name := "GenderGroup";
            enum_items := [ {| item_name := "masculine"; item_abbr := "m";
                               item_members := ["m"] |};
                            {| item_name := "neuter"; item_abbr := "n";
                               item_members := ["n"] |} ] |} ];
     SANDHI := [ {| ruleset_type := "internal";
                    ruleset_rules := [ [("first", "a"); ("second", "i");
                                        ("result", "e")] ] |} ];
     INDECLINABLES := ["ca"; "eva"];
     VERB_PREFIXES := [ {| group_name := "upasarga"; group_items := ["pra"; "A"] |} ];
     VERB_ENDINGS :=
       [ {| veg_mode := "pres"; veg_voice := "para"; veg_category := "simple";
            veg_endings := [ {| ve_name := "ti"; ve_person := "3";
                                ve_number := "s" |} ] |} ];
     ROOTS := [ {| ri_name := "gam"; ri_paradigms := [("1", "para")];
                   ri_hom := None |} ];
     PREFIXED_ROOTS := [];
     VERBS :=
       [ {| v_name := "gacchati"; v_root := "gam"; v_hom := None; v_vclass := "1";
            v_person := "3"; v_number := "s"; v_mode := "pres"; v_voice := "para" |};
         {| v_name := "bhavati"; v_root := "bhU"; v_hom := None; v_vclass := "1";
            v_person := "3"; v_number := "s"; v_mode := "pres"; v_voice := "para" |};
         {| v_name := "bhavanti"; v_root := "bhU"; v_hom := None; v_vclass := "";
            v_person := "3"; v_number := "p"; v_mode := "pres"; v_voice := "para" |} ];
     GERUNDS :=
       [ {| vi_name := "gatvA"; vi_root := "gam"; vi_hom := None |};
         {| vi_name := "bhUtvA"; vi_root := "bhU"; vi_hom := None |} ];
     INFINITIVES := [ {| vi_name := "gantum"; vi_root := "gam"; vi_hom := None |} ];
     PARTICIPLE_STEMS :=
       [ {| p_name := "gacchat"; p_root := "gam"; p_hom := None;
            p_mode := "pres"; p_voice := "para" |} ];
     NOMINAL_ENDINGS :=
       [ {| neg_stem := "a";
            neg_endings := [ {| ne_name := "H"; ne_gender := "m";
                                ne_case := Some "1"; ne_number := Some "s";
                                ne_compounded := None |} ] |} ];
     NOUN_STEMS := [ {| ns_name := "nara"; ns_genders := "m" |};
                     {| ns_name := "phala"; ns_genders := "n" |} ];
     IRREGULAR_NOUNS := [];
     ADJECTIVE_STEMS := [ {| as_name := "sundara" |} ];
     IRREGULAR_ADJECTIVES := [];
     PRONOUNS := [];
     Tag_dir := [("ADJECTIVE", 2); ("NOUN", 1); ("__doc__", 0)];
     Tag_NOUN := 1;
     Tag_ADJECTIVE := 2;
     sorted_tables := [ {| context.table_name := "tag" |};
                        {| context.table_name := "root" |} ] |}.

Definition sample_roots : root_map_t := {[ ("gam", None) := 1 ]}.

(** The [ENUM] tables that [add_enums] builds from the enums file of
    [sample_ctx]. *)
Definition sample_ENUM : gmap string (gmap string nat) :=
  {[ "vclass" := {[ "1" := 1 ]};
     "person" := {[ "3" := 1 ]};
     "number" := {[ "s" := 1; "p" := 2 ]};
     "mode" := {[ "pres" := 1 ]};
     "voice" := {[ "para" := 1 ]};
     "gender" := {[ "m" := 1; "n" := 2 ]};
     "case" := {[ "1" := 1 ]};
     "sandhi_type" := {[ "internal" := 1 ]};
     "gender_group" := {[ "m" := 1; "n" := 2 ]} ]}.

Definition sample_world : world :=
  {| ENUM := sample_ENUM; pending := []; database := []; tables := ∅; trace := [] |}.

(** A fresh process and an empty database. *)
Definition empty_world : world :=
  {| ENUM := ∅; pending := []; database := []; tables := ∅; trace := [] |}.

(** *** Frames and failure *)

(** The module-global [ENUM] is the same in both worlds. *)
Definition same_ENUM (w w' : world) : Prop := ENUM w' = ENUM w.

(** The committed rows are the same in both worlds. *)
Definition same_database (w w' : world) : Prop := database w' = database w.

(** Whenever [m] ends in an exception, the database is as it was. *)
Definition commits_nothing_on_failure {A} (m : M A) : Prop :=
  forall w e w', m w = (Raise e, w') -> database w' = database w.

(** [m] ends normally from every world. *)
Definition never_fails {A} (m : M A) : Prop :=
  forall w, exists a w', m w = (Ok a, w').

(** The first of [tables], in the order a stage subscripts them, that
    [ENUM] does not have. *)
Definition first_missing (E : gmap string (gmap string nat)) (tables : list string)
  : option string :=
  head (filter (fun t => E !! t = None) tables).

(** *** Rows of the simple stages *)

(** The key of a root in the root map. *)
Definition root_item_key (item : root_item) : root_key := (ri_name item, ri_hom item).

(** The [Tag] row of an attribute of [Tag]: upper-case attributes only,
    the name in lower case. *)
Definition tag_row (p : string * nat) : option row :=
  if str_isupper p.1 then Some (Tag p.2 (str_lower p.1)) else None.

(** Every paradigm of every root names a class and a voice of the
    tables. *)
Definition paradigms_resolve (vclass voice : gmap string nat)
    (roots : list root_item) : Prop :=
  Forall (fun item =>
            Forall (fun p : string * string =>
                      is_Some (vclass !! p.1) /\ is_Some (voice !! p.2))
                   (ri_paradigms item))
         roots.

(** The number of bulk inserts that [n] rows take, [threshold] at a
    time. *)
Definition bulk_inserts (threshold n : nat) : nat := (n + (threshold - 1)) / threshold.

(** The names of the [Root] rows among [rows], oldest first. *)
Definition root_names (rows : list row) : list string :=
  omap (fun r => match r with Root name => Some name | _ => None end) rows.

(** An enum of the enums file that neither pass of [add_enums] takes:
    its name is none of the nine of [mapper], nor [GenderGroup]. *)
Definition ignored_enum (enum : enum_doc) : Prop :=
  mapper !! enum_name enum = None /\ enum_name enum <> class_name GenderGroup.

(** *** The skip counts of the verbal stage *)

(** The same skip counts have been printed in both worlds. *)
Definition same_skips (w w' : world) : Prop :=
  reported_skips (trace w') = reported_skips (trace w).

(** The (name, homonym) pairs of the roots file. *)
Definition file_roots (c : ctx) : gset root_key :=
  list_to_set (root_item_key <$> ROOTS c).

(** The distinct pairs among [keys] that no record of the roots file
    has. *)
Definition dangling (c : ctx) (keys : list root_key) : gset root_key :=
  list_to_set (filter (fun k => k ∉ file_roots c) keys).

(** *** Periodic commits *)


End setup_vocabulary.

(** * Properties of the configuration context *)

Section context_defaults.
Import context.

Lemma copy_upper_lookup (cfg : settings) (k : string) :
  copy_upper cfg !! k = if str_isupper k then cfg !! k else None.
Proof.
  unfold copy_upper. destruct (str_isupper k) eqn:Hk.
  - destruct (cfg !! k) as [v|] eqn:Hv.
    + apply map_lookup_filter_Some. by split.
    + apply map_lookup_filter_None. left. done.
  - apply map_lookup_filter_None. right. intros v _. simpl. congruence.
Qed.

Lemma setdefault_lookup {V} (k k' : string) (v : V) (d : gmap string V) :
  setdefault k v d !! k' =
    match d !! k' with
    | Some x => Some x
    | None => if decide (k = k') then Some v else None
    end.
Proof.
  unfold setdefault. destruct (decide (k = k')) as [->|Hne].
  - destruct (d !! k') eqn:E; [by rewrite E|]. by rewrite lookup_insert_eq.
  - destruct (d !! k) eqn:E; [by destruct (d !! k')|].
    rewrite lookup_insert_ne by done. by destruct (d !! k').
Qed.

(** With [DATA_PATH] present, the defaults go through, and each key ends
    up with the value it had or, failing that, the first default given
    for it. *)
Lemma apply_defaults_spec (ds : list (string * string)) :
  forall (m : settings) (d : string),
    m !! "DATA_PATH" = Some d ->
    exists m', apply_defaults ds m = Ok m' /\
      forall k, m' !! k =
        match m !! k with
        | Some v => Some v
        | None => default_path d <$> (list_to_map ds : gmap string string) !! k
        end.
Proof.
  induction ds as [|[name file] ds IH]; intros m d Hd.
  - exists m. split; [done|]. intros k. simpl. rewrite lookup_empty. by destruct (m !! k).
  - simpl. unfold default, subscript. rewrite Hd.
    set (m1 := setdefault name _ m).
    assert (Hd1 : m1 !! "DATA_PATH" = Some d).
    { unfold m1. by rewrite setdefault_lookup, Hd. }
    destruct (IH m1 d Hd1) as (m' & Hrun & Hm'). exists m'. split; [done|].
    intros k. rewrite Hm'. unfold m1. rewrite setdefault_lookup.
    destruct (m !! k) as [v|]; [done|].
    destruct (decide (name = k)) as [->|Hne].
    + by rewrite lookup_insert_eq.
    + by rewrite lookup_insert_ne.
Qed.

(** Without [DATA_PATH], the first default already raises. *)
Lemma apply_defaults_no_data_path (m : settings) :
  m !! "DATA_PATH" = None ->
  apply_defaults default_files m = Raise (KeyError "DATA_PATH").
Proof.
  intros Hd. unfold default_files. simpl. unfold default, subscript. by rewrite Hd.
Qed.

Lemma default_files_ok : Forall path_key_ok default_files.
Proof.
  unfold path_key_ok. apply (bool_decide_unpack _). by vm_compute.
Qed.

(** What [__init__] comes to once [DATA_PATH] is there: the defaults go
    through, and the outcome is that of [connect()] where it is called. *)
Lemma Context_init_outcome (create_engine : string -> result Engine)
    (cfg : settings) (connect_ : bool) (d : string) :
  cfg !! "DATA_PATH" = Some d ->
  exists conf,
    (forall k, conf !! k =
       if str_isupper k then
         match cfg !! k with
         | Some v => Some v
         | None => default_path d <$> (list_to_map default_files : gmap string string) !! k
         end
       else None) /\
    Context_init create_engine cfg connect_ =
      match (if connect_ then cfg !! "DATABASE_URI" else None) with
      | Some u =>
          match create_engine u with
          | Ok e => Ok {| config := conf; engine := Some e |}
          | Raise err => Raise err
          end
      | None => Ok {| config := conf; engine := None |}
      end.
Proof.
  intros Hd.
  assert (Hup : copy_upper cfg !! "DATA_PATH" = Some d).
  { rewrite copy_upper_lookup. by replace (str_isupper "DATA_PATH") with true. }
  destruct (apply_defaults_spec default_files _ _ Hup) as (m' & Hrun & Hm').
  assert (Hk : forall k, m' !! k =
                 if str_isupper k then
                   match cfg !! k with
                   | Some v => Some v
                   | None => default_path d
                               <$> (list_to_map default_files : gmap string string) !! k
                   end
                 else None).
  { intros k. rewrite Hm', copy_upper_lookup.
    destruct (str_isupper k) eqn:Hu; [done|].
    destruct ((list_to_map default_files : gmap string string) !! k) as [file|] eqn:Hf;
      [|done].
    apply elem_of_list_to_map_2 in Hf.
    destruct (proj1 (Forall_forall _ _) default_files_ok _ Hf) as (Hu' & _).
    cbn [fst] in Hu'. congruence. }
  assert (Huri : m' !! "DATABASE_URI" = cfg !! "DATABASE_URI").
  { rewrite Hk. replace (str_isupper "DATABASE_URI") with true by reflexivity.
    destruct (cfg !! "DATABASE_URI"); [done|]. by vm_compute. }
  exists m'. split; [exact Hk|].
  unfold Context_init, connect, subscript. rewrite Hrun, Huri.
  destruct connect_; [|done]. cbn [andb].
  destruct (cfg !! "DATABASE_URI") as [u|]; [|done].
  rewrite bool_decide_true by (by eexists). by destruct (create_engine u).
Qed.

(** With [DATA_PATH] there and an engine to be had, a context is made. *)
Lemma Context_init_made (create_engine : string -> result Engine)
    (cfg : settings) (connect_ : bool) (d : string) :
  cfg !! "DATA_PATH" = Some d ->
  engine_ok create_engine cfg connect_ ->
  exists c,
    Context_init create_engine cfg connect_ = Ok c /\
    (forall k, config c !! k =
       if str_isupper k then
         match cfg !! k with
         | Some v => Some v
         | None => default_path d <$> (list_to_map default_files : gmap string string) !! k
         end
       else None) /\
    (forall u, connect_ = true -> cfg !! "DATABASE_URI" = Some u ->
       exists e, create_engine u = Ok e /\ engine c = Some e) /\
    ((if connect_ then cfg !! "DATABASE_URI" else None) = None -> engine c = None).
Proof.
  intros Hd Hok.
  destruct (Context_init_outcome create_engine cfg connect_ d Hd) as (conf & Hk & Hrun).
  rewrite Hrun. destruct connect_.
  - destruct (cfg !! "DATABASE_URI") as [u|] eqn:Huri.
    + specialize (Hok u eq_refl Huri).
      destruct (create_engine u) as [e|err] eqn:He; [|done].
      eexists. split; [done|]. split; [exact Hk|]. split; [|done].
      intros u' _ [= <-]. by exists e.
    + eexists. split; [done|]. split; [exact Hk|]. by split.
  - eexists. split; [done|]. split; [exact Hk|]. by split.
Qed.

Lemma Context_init_config (create_engine : string -> result Engine)
    (cfg : settings) (connect_ : bool) (d : string) :
  cfg !! "DATA_PATH" = Some d ->
  engine_ok create_engine cfg connect_ ->
  exists c, Context_init create_engine cfg connect_ = Ok c /\
    forall name file, (name, file) ∈ default_files ->
      config c !! name = Some (from_option id (default_path d file) (cfg !! name)).
Proof.
  intros Hd Hok.
  destruct (Context_init_made create_engine cfg connect_ d Hd Hok)
    as (c & Hc & Hk & _).
  exists c. split; [done|].
  intros name file Hin. rewrite Hk.
  pose proof (proj1 (Forall_forall _ _) default_files_ok _ Hin) as (Hu & _ & _ & Hl).
  cbn [fst snd] in Hu, Hl. rewrite Hu, Hl. by destruct (cfg !! name).
Qed.

(** C4: a context is constructed from a settings mapping with only
    [DATA_PATH] and [DATABASE_URI] whenever no connection is asked for
    or [create_engine] takes the URI, and it then has every
    resource-path key, [ADJECTIVE_STEMS] through [VERBS], set to
    [os.path.join(DATA_PATH, 'lang', file)] for the key's fixed file
    name; when [create_engine] raises, so does [__init__], and there is
    no context.  In the same way, whenever the caller supplies a path
    key (besides [DATA_PATH]), the supplied value is the one the context
    constructed keeps. *)
Theorem Context_init_default_paths (create_engine : string -> result Engine) :
  (forall (d u : string) (connect_ : bool),
     (connect_ = true -> is_Ok (create_engine u) = true) ->
     exists c,
       Context_init create_engine (<["DATA_PATH" := d]> {["DATABASE_URI" := u]}) connect_
         = Ok c /\
       forall name file, (name, file) ∈ default_files ->
         config c !! name = Some (os_path_join d ["lang"; file])) /\
  (forall (d u : string) (err : exn),
     create_engine u = Raise err ->
     Context_init create_engine (<["DATA_PATH" := d]> {["DATABASE_URI" := u]}) true
       = Raise err) /\
  (forall (cfg : settings) (d : string) (connect_ : bool),
     cfg !! "DATA_PATH" = Some d ->
     engine_ok create_engine cfg connect_ ->
     exists c,
       Context_init create_engine cfg connect_ = Ok c /\
       forall name file v, (name, file) ∈ default_files ->
         cfg !! name = Some v -> config c !! name = Some v).
Proof.
  split; [|split].
  - intros d u connect_ Hok.
    destruct (Context_init_config create_engine
                (<["DATA_PATH" := d]> {["DATABASE_URI" := u]}) connect_ d)
      as (c & Hc & Hcfg); [by rewrite lookup_insert_eq| |].
    { intros u' Hconn Hu'. rewrite lookup_insert_ne, lookup_singleton_eq in Hu' by done.
      injection Hu' as <-. by apply Hok. }
    exists c. split; [done|]. intros name file Hin. rewrite (Hcfg _ _ Hin).
    pose proof (proj1 (Forall_forall _ _) default_files_ok _ Hin) as (_ & H1 & H2 & _).
    cbn [fst snd] in H1, H2.
    rewrite lookup_insert_ne by done. rewrite lookup_singleton_ne by done. done.
  - intros d u err Herr.
    destruct (Context_init_outcome create_engine
                (<["DATA_PATH" := d]> {["DATABASE_URI" := u]}) true d)
      as (conf & _ & Hrun); [by rewrite lookup_insert_eq|].
    rewrite Hrun, lookup_insert_ne, lookup_singleton_eq by done. by rewrite Herr.
  - intros cfg d connect_ Hd Hok.
    destruct (Context_init_config create_engine cfg connect_ d Hd Hok)
      as (c & Hc & Hcfg).
    exists c. split; [done|]. intros name file v Hin Hv.
    by rewrite (Hcfg _ _ Hin), Hv.
Qed.

Lemma Context_init_default_paths_witness :
  exists c,
    Context_init sample_create_engine
      (<["DATA_PATH" := "/data"]>
         (<["DATABASE_URI" := "sqlite://"]> {["ROOTS" := "/mine/roots.yml"]})) true
    = Ok c /\
    config c !! "ROOTS" = Some "/mine/roots.yml".
Proof.
  destruct (proj2 (proj2 (Context_init_default_paths sample_create_engine))
              (<["DATA_PATH" := "/data"]>
                 (<["DATABASE_URI" := "sqlite://"]> {["ROOTS" := "/mine/roots.yml"]}))
              "/data" true) as (c & Hc & Hkeep); [reflexivity| |].
  { intros u _ Hu. vm_compute in Hu. injection Hu as <-. reflexivity. }
  exists c. split; [exact Hc|].
  apply (Hkeep "ROOTS" "roots.yml"); [|reflexivity].
  unfold default_files. repeat first [apply list_elem_of_here | apply list_elem_of_further].
Defined.

(** C10: without [DATA_PATH] in the settings, [Context.__init__] raises
    [KeyError('DATA_PATH')], whatever other keys, path keys included,
    the caller supplies. *)
Theorem Context_init_requires_data_path (create_engine : string -> result Engine)
    (cfg : settings) (connect_ : bool) :
  cfg !! "DATA_PATH" = None ->
  Context_init create_engine cfg connect_ = Raise (KeyError "DATA_PATH").
Proof.
  intros Hd. unfold Context_init.
  rewrite apply_defaults_no_data_path; [done|].
  rewrite copy_upper_lookup, Hd. by destruct (str_isupper "DATA_PATH").
Qed.

Lemma Context_init_requires_data_path_witness :
  Context_init sample_create_engine
    (<["ROOTS" := "/mine/roots.yml"]> {["VERBS" := "/mine/verbs.csv"]}) true
  = Raise (KeyError "DATA_PATH").
Proof.
  apply (Context_init_requires_data_path sample_create_engine
           (<["ROOTS" := "/mine/roots.yml"]> {["VERBS" := "/mine/verbs.csv"]}) true).
  reflexivity.
Defined.

End context_defaults.

(** * Properties of the schema lifecycle and of the enum registry *)

Section registry.
Import context.

(** A [Table] is never found in the set of names [extant]. *)
Lemma table_not_in_names (t : Table) (names : list string) :
  py_in (PyTable t) (PyStr <$> names) = false.
Proof. induction names as [|n names IH]; [done|]. simpl. exact IH. Qed.

(** So [create_all] prints every table of the schema, whatever the
    database held before. *)
Lemma create_all_prints_every_table (ts : list Table) (ex : gset string) :
  (create_all ts ex).2 = table_name <$> ts.
Proof.
  unfold create_all. simpl. f_equal.
  induction ts as [|t ts IH]; [done|].
  rewrite filter_cons, decide_True by apply table_not_in_names.
  f_equal.
  etransitivity; [|exact IH].
  apply list_filter_iff. intros x. by rewrite !table_not_in_names.
Qed.

(** C8 (evaluation at the failing input): with the table [tag] already in
    the database, [create_all] on the schema [tag, root] prints both
    names, although only [root] is newly created. *)
Theorem create_all_reports_existing_table :
  let ts := [ {| table_name := "tag" |}; {| table_name := "root" |} ] in
  let before : gset string := {[ "tag" ]} in
  (create_all ts before).2 = ["tag"; "root"] /\
  newly_created ts before = ["root"].
Proof. split; by vm_compute. Qed.

(** *** [_build_enums] *)

Lemma enum_id_fold_keep (rows : list enum_item) :
  forall (m : enum_id_t) (k : string) (v : nat),
    m !! k = Some v ->
    Forall (fun r => item_name r <> k /\ item_abbr r <> k) rows ->
    fold_left enum_id_store rows m !! k = Some v.
Proof.
  induction rows as [|r rows IH]; intros m k v Hm Hrows; [done|].
  apply Forall_cons in Hrows as [[Hn Ha] Hrows]. simpl.
  apply IH; [|done]. unfold enum_id_store.
  by rewrite !lookup_insert_ne.
Qed.

Lemma enum_abbr_fold_keep (rows : list enum_item) :
  forall (m : enum_abbr_t) (k : abbr_key) (v : string),
    m !! k = Some v ->
    Forall (fun r => inl (item_id r) <> k /\ inr (item_name r) <> k) rows ->
    fold_left enum_abbr_store rows m !! k = Some v.
Proof.
  induction rows as [|r rows IH]; intros m k v Hm Hrows; [done|].
  apply Forall_cons in Hrows as [[Hn Ha] Hrows]. simpl.
  apply IH; [|done]. unfold enum_abbr_store.
  by rewrite !lookup_insert_ne.
Qed.

Lemma enum_id_store_name (m : enum_id_t) (item : enum_item) :
  enum_id_store m item !! item_name item = Some (item_id item).
Proof.
  unfold enum_id_store. rewrite lookup_insert. case_decide; [done|].
  by rewrite lookup_insert_eq.
Qed.

Lemma enum_id_store_abbr (m : enum_id_t) (item : enum_item) :
  enum_id_store m item !! item_abbr item = Some (item_id item).
Proof. unfold enum_id_store. by rewrite lookup_insert_eq. Qed.

Lemma enum_abbr_store_id (m : enum_abbr_t) (item : enum_item) :
  enum_abbr_store m item !! inl (item_id item) = Some (item_abbr item).
Proof.
  unfold enum_abbr_store. rewrite lookup_insert_ne by done.
  by rewrite lookup_insert_eq.
Qed.

Lemma enum_abbr_store_name (m : enum_abbr_t) (item : enum_item) :
  enum_abbr_store m item !! inr (item_name item) = Some (item_abbr item).
Proof. unfold enum_abbr_store. by rewrite lookup_insert_eq. Qed.

(** The registry keeps, under a table name, the dictionaries of the last
    class with that name. *)
Lemma build_enums_tables (cs2 : list (string * list enum_item)) :
  forall (acc : gmap string enum_id_t * gmap string enum_abbr_t)
         (key : string) (ids : enum_id_t) (abbrs : enum_abbr_t),
    acc.1 !! key = Some ids -> acc.2 !! key = Some abbrs ->
    key ∉ cs2.*1 ->
    let tables :=
      fold_left (fun acc c =>
                   (<[c.1 := table_enum_id c.2]> acc.1,
                    <[c.1 := table_enum_abbr c.2]> acc.2)) cs2 acc in
    tables.1 !! key = Some ids /\ tables.2 !! key = Some abbrs.
Proof.
  induction cs2 as [|c cs2 IH]; intros acc key ids abbrs H1 H2 Hnot; [done|].
  rewrite fmap_cons, not_elem_of_cons in Hnot. destruct Hnot as [Hne Hnot].
  simpl. apply IH; simpl; [by rewrite lookup_insert_ne..|done].
Qed.

(** C5 (counterexample): in a table with the rows [(1, "a", "b")] and
    [(2, "b", "c")], the abbreviation of the first row is the name of the
    second, which overwrites it: [enum_id["b"]] is 2, not the first row's
    id 1. *)
Lemma build_enums_overwrites_shared_key :
  let r1 := {| item_id := 1; item_name := "a"; item_abbr := "b" |} in
  let r2 := {| item_id := 2; item_name := "b"; item_abbr := "c" |} in
  ~ two_way_keyed (_build_enums [("person", [r1; r2])] []) "person" r1.
Proof.
  intros r1 r2 (ids & abbrs & Hids & _ & _ & Habbr & _).
  vm_compute in Hids. injection Hids as <-.
  vm_compute in Habbr. discriminate.
Qed.

(** C5 (amended): a row of an enum table whose id, name and abbreviation
    are not reused as id, name or abbreviation by a later row of that
    table (and whose table name no later class shares) is two-way keyed
    after [_build_enums]: [enum_id] sends its name and its abbreviation
    to its id, [enum_abbr] sends its id and its name to its
    abbreviation. *)
Theorem build_enums_two_way_keyed
    (cs1 cs2 : list (string * list enum_item)) (groups : list gender_group)
    (key : string) (before after : list enum_item) (item : enum_item) :
  key ∉ cs2.*1 ->
  Forall (no_clash item) after ->
  two_way_keyed
    (_build_enums (cs1 ++ (key, before ++ item :: after) :: cs2) groups)
    key item.
Proof.
  intros Hkey Hafter. unfold two_way_keyed, _build_enums. simpl.
  rewrite fold_left_app. simpl.
  match goal with |- context [fold_left ?f cs2 ?acc] =>
    destruct (build_enums_tables cs2 acc key
                (table_enum_id (before ++ item :: after))
                (table_enum_abbr (before ++ item :: after))) as [H1 H2]
  end; [simpl; by rewrite lookup_insert_eq..|done|].
  eexists _, _. split; [exact H1|]. split; [exact H2|].
  unfold table_enum_id, table_enum_abbr. rewrite !fold_left_app. simpl.
  repeat split.
  - apply enum_id_fold_keep; [apply enum_id_store_name|].
    eapply Forall_impl; [exact Hafter|]. intros r (_ & ? & ? & _). done.
  - apply enum_id_fold_keep; [apply enum_id_store_abbr|].
    eapply Forall_impl; [exact Hafter|]. intros r (_ & _ & _ & ? & ?). done.
  - apply enum_abbr_fold_keep; [apply enum_abbr_store_id|].
    eapply Forall_impl; [exact Hafter|]. intros r (? & _). split; congruence.
  - apply enum_abbr_fold_keep; [apply enum_abbr_store_name|].
    eapply Forall_impl; [exact Hafter|]. intros r (_ & ? & _). split; congruence.
Qed.

Lemma build_enums_two_way_keyed_witness :
  let r1 := {| item_id := 1; item_name := "singular"; item_abbr := "s" |} in
  let r2 := {| item_id := 2; item_name := "dual"; item_abbr := "d" |} in
  two_way_keyed (_build_enums [("number", [r1; r2])] []) "number" r1.
Proof.
  intros r1 r2.
  apply (build_enums_two_way_keyed [] [] [] "number" [] [r2] r1).
  - apply not_elem_of_nil.
  - apply Forall_cons. split; [|apply Forall_nil_2].
    unfold no_clash. simpl. repeat split; discriminate.
Defined.

End registry.

(** * Reasoning about the pipeline monad *)

Section monad.
Import setup.

Lemma bind_Ok {A B} (m : M A) (f : A -> M B) (w w' : world) (a : A) :
  m w = (Ok a, w') -> (m ≫= f) w = f a w'.
Proof. intros H. unfold mbind, M_bind. by rewrite H. Qed.

Lemma bind_Raise {A B} (m : M A) (f : A -> M B) (w w' : world) (e : exn) :
  m w = (Raise e, w') -> (m ≫= f) w = (Raise e, w').
Proof. intros H. unfold mbind, M_bind. by rewrite H. Qed.

Section frame.
Context (R : relation world) `{!PreOrder R}.

Lemma respects_ret {A} (a : A) : respects R (mret a : M A).
Proof. intros w r w' [= _ <-]. reflexivity. Qed.

Lemma respects_lift {A} (r : result A) : respects R (lift r).
Proof. intros w r' w' [= _ <-]. reflexivity. Qed.

Lemma respects_bind {A B} (m : M A) (f : A -> M B) :
  respects R m -> (forall a, respects R (f a)) -> respects R (m ≫= f).
Proof.
  intros Hm Hf w r w'. unfold mbind, M_bind.
  destruct (m w) as [[a|e] w1] eqn:E; intros H.
  - transitivity w1; [by eapply Hm | by eapply Hf].
  - injection H as _ <-. by eapply Hm.
Qed.

Lemma respects_for {A} (xs : list A) (body : A -> M unit) :
  (forall x, x ∈ xs -> respects R (body x)) -> respects R (for_ xs body).
Proof.
  induction xs as [|x xs IH]; intros Hbody; simpl.
  - apply respects_ret.
  - apply respects_bind; [apply Hbody, list_elem_of_here|].
    intros _. apply IH. intros y Hy. apply Hbody. by apply list_elem_of_further.
Qed.

Lemma respects_for_fold {A S} (xs : list A) (body : S -> A -> M S) :
  (forall s x, x ∈ xs -> respects R (body s x)) ->
  forall s, respects R (for_fold xs s body).
Proof.
  induction xs as [|x xs IH]; intros Hbody s; simpl.
  - apply respects_ret.
  - apply respects_bind; [apply Hbody, list_elem_of_here|].
    intros s'. apply IH. intros s'' y Hy. apply Hbody. by apply list_elem_of_further.
Qed.

Lemma respects_list_comp {A B} (xs : list A) (f : A -> M B) :
  (forall x, respects R (f x)) -> respects R (list_comp xs f).
Proof.
  intros Hf. induction xs as [|x xs IH]; simpl.
  - apply respects_ret.
  - apply respects_bind; [apply Hf|]. intros y.
    apply respects_bind; [apply IH|]. intros ys. apply respects_ret.
Qed.

End frame.

(** *** Loops that run to their end *)

(** A loop whose body succeeds on every element, keeping an invariant
    [I] of the elements done, the local variables and the world. *)
Lemma for_fold_ok {A S} (P : A -> Prop) (I : list A -> S -> world -> Prop)
    (body : S -> A -> M S) :
  (forall done x s w, P x -> I done s w ->
     exists s' w', body s x w = (Ok s', w') /\ I (done ++ [x]) s' w') ->
  forall xs done s w, Forall P xs -> I done s w ->
    exists s' w', for_fold xs s body w = (Ok s', w') /\ I (done ++ xs) s' w'.
Proof.
  intros Hbody. induction xs as [|x xs IH]; intros done s w HP HI.
  - exists s, w. by rewrite app_nil_r.
  - apply Forall_cons in HP as [Hx HP].
    destruct (Hbody done x s w Hx HI) as (s1 & w1 & Hrun & HI1).
    destruct (IH (done ++ [x]) s1 w1 HP HI1) as (s' & w' & Hrest & HI').
    exists s', w'. simpl. rewrite (bind_Ok _ _ _ _ _ Hrun).
    split; [done|]. by rewrite <- app_assoc in HI'.
Qed.

Lemma for_ok {A} (P : A -> Prop) (I : list A -> world -> Prop)
    (body : A -> M unit) :
  (forall done x w, P x -> I done w ->
     exists w', body x w = (Ok tt, w') /\ I (done ++ [x]) w') ->
  forall xs done w, Forall P xs -> I done w ->
    exists w', for_ xs body w = (Ok tt, w') /\ I (done ++ xs) w'.
Proof.
  intros Hbody. induction xs as [|x xs IH]; intros done w HP HI.
  - exists w. by rewrite app_nil_r.
  - apply Forall_cons in HP as [Hx HP].
    destruct (Hbody done x w Hx HI) as (w1 & Hrun & HI1).
    destruct (IH (done ++ [x]) w1 HP HI1) as (w' & Hrest & HI').
    exists w'. simpl. rewrite (bind_Ok _ _ _ _ _ Hrun).
    split; [done|]. by rewrite <- app_assoc in HI'.
Qed.

(** *** Computations that raise *)

Lemma raises_in_bind_l {A B} (P : world -> Prop) (m : M A) (f : A -> M B) :
  raises_in P m -> raises_in P (m ≫= f).
Proof.
  intros Hm w HP. destruct (Hm w HP) as (e & w' & H).
  exists e, w'. by apply bind_Raise.
Qed.

Lemma raises_in_bind_r {A B} (P : world -> Prop) (m : M A) (f : A -> M B) :
  preserves P m -> (forall a, raises_in P (f a)) -> raises_in P (m ≫= f).
Proof.
  intros Hm Hf w HP. destruct (m w) as [[a|e] w1] eqn:E.
  - destruct (Hf a w1) as (e & w' & H); [by eapply Hm|].
    exists e, w'. by rewrite (bind_Ok _ _ _ _ _ E).
  - exists e, w1. by apply bind_Raise.
Qed.

Lemma raises_in_for {A} (P : world -> Prop) (xs : list A) (body : A -> M unit)
    (x : A) :
  (forall y, preserves P (body y)) ->
  x ∈ xs -> raises_in P (body x) -> raises_in P (for_ xs body).
Proof.
  intros Hpres Hin Hx. induction xs as [|y xs IH]; [by apply elem_of_nil in Hin|].
  apply elem_of_cons in Hin as [<-|Hin]; simpl.
  - by apply raises_in_bind_l.
  - apply raises_in_bind_r; [apply Hpres|]. intros _. by apply IH.
Qed.

Lemma raises_in_for_fold {A S} (P : world -> Prop) (xs : list A)
    (body : S -> A -> M S) (x : A) :
  (forall s y, preserves P (body s y)) ->
  x ∈ xs -> (forall s, raises_in P (body s x)) ->
  forall s, raises_in P (for_fold xs s body).
Proof.
  intros Hpres Hin Hx. induction xs as [|y xs IH]; [by apply elem_of_nil in Hin|].
  intros s. apply elem_of_cons in Hin as [<-|Hin]; simpl.
  - by apply raises_in_bind_l.
  - apply raises_in_bind_r; [apply Hpres|]. intros s'. by apply IH.
Qed.

Lemma raises_in_list_comp {A B} (P : world -> Prop) (xs : list A) (f : A -> M B)
    (x : A) :
  (forall y, preserves P (f y)) ->
  x ∈ xs -> raises_in P (f x) -> raises_in P (list_comp xs f).
Proof.
  intros Hpres Hin Hx. induction xs as [|y xs IH]; [by apply elem_of_nil in Hin|].
  apply elem_of_cons in Hin as [<-|Hin]; simpl.
  - by apply raises_in_bind_l.
  - apply raises_in_bind_r; [apply Hpres|]. intros b.
    apply raises_in_bind_l. by apply IH.
Qed.

Lemma raises_in_subscript {A} (P : world -> Prop) (d : gmap string A) (k : string) :
  d !! k = None -> raises_in P (lift (subscript d k)).
Proof. intros H w _. exists (KeyError k), w. unfold lift, subscript. by rewrite H. Qed.

Lemma preserves_True {A} (m : M A) : preserves (fun _ => True) m.
Proof. done. Qed.

(** *** The exceptions of the pipeline are [KeyError]s *)

Lemma only_KeyError_ret {A} (a : A) : only_KeyError (mret a : M A).
Proof. by intros w e w'. Qed.

Lemma only_KeyError_subscript {A} (d : gmap string A) (k : string) :
  only_KeyError (lift (subscript d k)).
Proof.
  intros w e w'. unfold lift, subscript. destruct (d !! k); [done|].
  intros [= <- _]. by eexists.
Qed.

Lemma only_KeyError_ENUM_get (key : string) : only_KeyError (ENUM_get key).
Proof.
  intros w e w'. unfold ENUM_get, subscript. destruct (ENUM w !! key); [done|].
  intros [= <- _]. by eexists.
Qed.

Lemma only_KeyError_bind {A B} (m : M A) (f : A -> M B) :
  only_KeyError m -> (forall a, only_KeyError (f a)) -> only_KeyError (m ≫= f).
Proof.
  intros Hm Hf w e w'. unfold mbind, M_bind.
  destruct (m w) as [[a|e1] w1] eqn:E.
  - apply Hf.
  - intros [= <- _]. by eapply Hm.
Qed.

Lemma only_KeyError_for {A} (xs : list A) (body : A -> M unit) :
  (forall x, only_KeyError (body x)) -> only_KeyError (for_ xs body).
Proof.
  intros Hbody. induction xs as [|x xs IH]; [apply only_KeyError_ret|].
  cbn [for_]. apply only_KeyError_bind; [apply Hbody|by intros _].
Qed.

Lemma only_KeyError_for_fold {A S} (xs : list A) (s : S) (body : S -> A -> M S) :
  (forall s x, only_KeyError (body s x)) -> only_KeyError (for_fold xs s body).
Proof.
  intros Hbody. revert s. induction xs as [|x xs IH]; intros s;
    [apply only_KeyError_ret|].
  cbn [for_fold]. apply only_KeyError_bind; [apply Hbody|apply IH].
Qed.

Lemma only_KeyError_list_comp {A B} (xs : list A) (f : A -> M B) :
  (forall x, only_KeyError (f x)) -> only_KeyError (list_comp xs f).
Proof.
  intros Hf. induction xs as [|x xs IH]; [apply only_KeyError_ret|].
  cbn [list_comp]. apply only_KeyError_bind; [apply Hf|]. intros y.
  apply only_KeyError_bind; [apply IH|]. intros ys. apply only_KeyError_ret.
Qed.

Lemma only_KeyError_emit (e : event) : only_KeyError (emit e).
Proof. by intros w e' w'. Qed.

Lemma only_KeyError_session_add (r : row) : only_KeyError (session_add r).
Proof. by intros w e' w'. Qed.

Lemma only_KeyError_session_commit : only_KeyError session_commit.
Proof. by intros w e' w'. Qed.

Lemma only_KeyError_conn_execute (rows : list row) : only_KeyError (conn_execute rows).
Proof. by intros w e' w'. Qed.

Lemma only_KeyError_last_id (table : string) : only_KeyError (last_id table).
Proof. by intros w e' w'. Qed.

Lemma only_KeyError_ENUM_set (key : string) (d : gmap string nat) :
  only_KeyError (ENUM_set key d).
Proof. by intros w e' w'. Qed.

Lemma raises_in_aborts {A} (P : world -> Prop) (m : M A) (w : world) :
  only_KeyError m -> raises_in P m -> P w -> aborts m w.
Proof.
  intros Honly Hm HP. destruct (Hm w HP) as (e & w' & H).
  destruct (Honly w e w' H) as [k ->]. by exists k, w'.
Qed.

(** [ENUM[key]] at the head of a stage: it raises, or the stage goes on
    with the table. *)
Lemma aborts_ENUM_get {B} (key : string) (f : gmap string nat -> M B) (w : world) :
  (forall d, ENUM w !! key = Some d -> aborts (f d) w) ->
  aborts (ENUM_get key ≫= f) w.
Proof.
  intros Hf. unfold aborts, mbind, M_bind, ENUM_get, subscript.
  destruct (ENUM w !! key) as [d|] eqn:E; [by apply Hf|]. by eexists _, _.
Qed.

End monad.

(** * Properties of the cross-reference resolver *)

Section prefixed_roots.
Import setup.

(** A loop that overwrites its candidate on every hit ends with the
    last hit, or with the candidate it started from. *)
Lemma overwrite_scan_last {K V} (f : K -> option V) (scan : list K) :
  forall candidate : option V,
    fold_left (fun acc k => match f k with Some v => Some v | None => acc end)
              scan candidate
    = match last (omap f scan) with Some v => Some v | None => candidate end.
Proof.
  induction scan as [|k scan IH]; intros candidate; [done|].
  simpl. rewrite IH. destruct (f k) as [v|]; [|done].
  rewrite last_cons. unfold omap. by destruct (last _).
Qed.

Lemma scan_homs_last_match (root_map : root_map_t) (basis : string) :
  scan_homs root_map basis None = last_match root_map basis homs.
Proof.
  unfold scan_homs, last_match.
  rewrite (overwrite_scan_last (fun hom => root_map !! (basis, hom))).
  by destruct (last _).
Qed.

(** C3 (counterexample): with the root map [{("gam", "0"): 5}] and a
    prefixed root of basis [gam] and homonym ["7"], the exact pair is
    absent and index 0 is the one match of a scan over 0-9 and none, yet
    the code selects no basis id: its scan does not visit index 0. *)
Lemma basis_lookup_never_scans_index_0 :
  let root_map : root_map_t := {[ ("gam", Some "0") := 5 ]} in
  root_map !! ("gam", Some "7") = None /\
  last_match root_map "gam" scan_0_to_9_and_none = Some 5 /\
  basis_lookup root_map "gam" (Some "7") = None.
Proof. repeat split; by vm_compute. Qed.

(** C3 (amended): in the prefixed-root stage an exact hit on (basis,
    homonym) gives the basis id; on an exact miss the lookup is retried
    over the homonym indices none, "1", ..., "9" in that order, every hit
    overwriting the candidate, so that the basis id selected is the one
    of the last matching index in scan order (none if no index
    matches). *)
Theorem basis_lookup_last_match (root_map : root_map_t) (basis : string)
    (hom : option string) :
  homs = [None; Some "1"; Some "2"; Some "3"; Some "4"; Some "5"; Some "6";
          Some "7"; Some "8"; Some "9"] /\
  (forall id, root_map !! (basis, hom) = Some id ->
     basis_lookup root_map basis hom = Some id) /\
  (root_map !! (basis, hom) = None ->
     basis_lookup root_map basis hom = last_match root_map basis homs /\
     forall before h after id,
       homs = before ++ h :: after ->
       root_map !! (basis, h) = Some id ->
       Forall (fun h' => root_map !! (basis, h') = None) after ->
       basis_lookup root_map basis hom = Some id).
Proof.
  split; [by vm_compute|]. split.
  - intros id Hid. unfold basis_lookup. by rewrite Hid.
  - intros Hmiss.
    assert (Hscan : basis_lookup root_map basis hom = last_match root_map basis homs).
    { unfold basis_lookup. rewrite Hmiss. apply scan_homs_last_match. }
    split; [exact Hscan|].
    intros before h after id Hsplit Hh Hafter. rewrite Hscan.
    assert (Hnone : omap (fun hom0 => root_map !! (basis, hom0)) after = []).
    { clear Hsplit. induction after as [|a after IH]; [done|].
      apply Forall_cons in Hafter as [Ha Hafter]. simpl. rewrite Ha. by apply IH. }
    assert (Hone : omap (fun hom0 => root_map !! (basis, hom0)) (h :: after) = [id]).
    { simpl. rewrite Hh. f_equal. exact Hnone. }
    unfold last_match. rewrite Hsplit, omap_app, Hone. apply last_snoc.
Qed.

Lemma basis_lookup_last_match_witness :
  let root_map : root_map_t :=
    {[ ("gam", None) := 1; ("gam", Some "3") := 3; ("gam", Some "8") := 8 ]} in
  basis_lookup root_map "gam" (Some "5") = Some 8.
Proof.
  intros root_map.
  destruct (basis_lookup_last_match root_map "gam" (Some "5")) as (_ & _ & Hmiss).
  destruct Hmiss as [_ Hlast]; [by vm_compute|].
  apply (Hlast [None; Some "1"; Some "2"; Some "3"; Some "4"; Some "5";
                Some "6"; Some "7"] (Some "8") [Some "9"] 8).
  - by vm_compute.
  - by vm_compute.
  - apply Forall_cons. split; [by vm_compute|apply Forall_nil_2].
Defined.

End prefixed_roots.

(** * Properties of the batch writer *)

Section batch_writer.
Import setup.

Lemma executed_app (t1 t2 : list event) :
  executed (t1 ++ t2) = executed t1 ++ executed t2.
Proof. apply omap_app. Qed.

Lemma mod_500_next (i : nat) :
  (S i mod 500 = 0 -> i mod 500 = 499) /\
  (S i mod 500 <> 0 -> S i mod 500 = S (i mod 500)).
Proof.
  pose proof (Nat.div_mod_eq i 500). pose proof (Nat.div_mod_eq (S i) 500).
  pose proof (Nat.mod_upper_bound i 500). pose proof (Nat.mod_upper_bound (S i) 500).
  split; intros; nia.
Qed.

Lemma executed_snoc_other (t : list event) (e : event) :
  (forall rows, e <> Execute rows) -> executed (t ++ [e]) = executed t.
Proof.
  intros He. rewrite executed_app.
  destruct e; try (apply app_nil_r). by destruct (He rows).
Qed.

Lemma executed_snoc_Execute (t : list event) (rows : list row) :
  executed (t ++ [Execute rows]) = executed t ++ [rows].
Proof. by rewrite executed_app. Qed.

Lemma omap_snoc_Some {A B} (f : A -> option B) (xs : list A) (x : A) (y : B) :
  f x = Some y -> omap f (xs ++ [x]) = omap f xs ++ [y].
Proof. intros H. rewrite omap_app. f_equal. simpl. by rewrite H. Qed.

Lemma concat_snoc {A} (ls : list (list A)) (l : list A) :
  concat (ls ++ [l]) = concat ls ++ l.
Proof. rewrite concat_app. simpl. by rewrite app_nil_r. Qed.

Lemma batch_step_batching {A} (payload : A -> option row) (w0 : world)
    (done : list A) (x : A) (name : string) (r : row)
    (s : list row * nat) (w : world) :
  payload x = Some r -> batching payload w0 done s w ->
  exists s' w', batch_step name r s w = (Ok s', w') /\
                batching payload w0 (done ++ [x]) s' w'.
Proof.
  intros Hx (batches & Hex & Hfull & Hrows & Hi & Hbuf & Hdb & Hpend & HE).
  destruct s as [buf i]. cbn [fst snd] in *. unfold batch_step. cbn [fst snd].
  destruct (mod_500_next i) as [Hzero Hnext].
  case_bool_decide as Hmod.
  - eexists ([], S i), _. split; [reflexivity|].
    exists (batches ++ [buf ++ [r]]). cbn [fst snd trace database pending ENUM].
    rewrite executed_snoc_Execute, executed_snoc_other by done.
    rewrite Hex, (omap_snoc_Some _ _ _ _ Hx), Hrows, concat_snoc, Hdb.
    rewrite !length_app, !app_nil_r, <- !app_assoc. cbn [length].
    split; [done|]. split.
    { apply Forall_app. split; [done|]. apply Forall_singleton.
      rewrite length_app. cbn [length]. specialize (Hzero Hmod). lia. }
    split; [done|]. split; [lia|]. split; [done|]. done.
  - eexists (buf ++ [r], S i), _. split; [reflexivity|].
    exists batches. cbn [fst snd].
    rewrite (omap_snoc_Some _ _ _ _ Hx), Hrows, !length_app, <- !app_assoc.
    cbn [length]. specialize (Hnext Hmod).
    split; [done|]. split; [done|]. split; [done|]. split; [lia|]. split; [lia|].
    done.
Qed.

Lemma final_flush_batched {A} (payload : A -> option row) (w0 : world)
    (xs : list A) (s : list row * nat) (w : world) :
  batching payload w0 xs s w ->
  exists w' batches,
    final_flush s.1 w = (Ok tt, w') /\
    executed (trace w') = executed (trace w0) ++ batches /\
    batched 500 batches (omap payload xs) /\
    database w' = database w0 ++ omap payload xs /\
    pending w' = pending w0 /\ ENUM w' = ENUM w0.
Proof.
  intros (batches & Hex & Hfull & Hrows & Hi & Hbuf & Hdb & Hpend & HE).
  destruct s as [buf i]. cbn [fst snd] in *.
  assert (Hlt : length buf < 500).
  { rewrite Hbuf. apply Nat.mod_upper_bound. done. }
  assert (Hfull' : Forall (fun b : list row => b <> [] /\ length b <= 500) batches).
  { eapply Forall_impl; [exact Hfull|]. intros b Hb. cbn beta in Hb.
    split; [|lia]. intros ->. done. }
  destruct buf as [|r buf].
  - exists w, batches. rewrite app_nil_r in Hrows. rewrite Hrows.
    split; [reflexivity|]. split; [done|]. split; [|done].
    split; [done|]. split; [done|].
    intros j b Hj _. by apply (proj1 (Forall_lookup _ _) Hfull j b).
  - eexists _, (batches ++ [r :: buf]). split; [reflexivity|].
    cbn [trace database pending ENUM].
    rewrite executed_snoc_Execute, Hex, Hdb, Hrows, <- !app_assoc.
    split; [done|]. split; [|done].
    split; [apply concat_snoc|]. split.
    + apply Forall_app. split; [done|].
      apply Forall_singleton. split; [done|]. lia.
    + intros j b Hj Hlast. rewrite length_app in Hlast. cbn [length] in Hlast.
      rewrite lookup_app_l in Hj by lia.
      by apply (proj1 (Forall_lookup _ _) Hfull j b).
Qed.

Lemma omap_Some_fmap {A B} (f : A -> B) (xs : list A) :
  omap (fun x => Some (f x)) xs = f <$> xs.
Proof. induction xs as [|x xs IH]; [done|]. simpl. by f_equal. Qed.

Lemma omap_mapM {A B} (f : A -> option B) (xs : list A) (ys : list B) :
  mapM f xs = Some ys -> omap f xs = ys.
Proof.
  intros H. apply mapM_Some in H.
  induction H as [|x y xs ys Hxy _ IH]; [done|].
  simpl. rewrite Hxy. by f_equal.
Qed.

Lemma batching_start {A} (payload : A -> option row) (w : world) :
  batching payload w [] ([], 0) w.
Proof. exists []. simpl. by rewrite !app_nil_r. Qed.

Lemma add_adjective_stems_spec (c : ctx) (w : world) :
  exists w' batches,
    add_adjective_stems c w = (Ok tt, w') /\
    executed (trace w') = executed (trace w) ++ batches /\
    batched 500 batches (adjective_stem_payload (Tag_ADJECTIVE c) <$> ADJECTIVE_STEMS c) /\
    database w' = database w ++
                  (adjective_stem_payload (Tag_ADJECTIVE c) <$> ADJECTIVE_STEMS c) /\
    pending w' = pending w.
Proof.
  set (payload := fun adj => Some (adjective_stem_payload (Tag_ADJECTIVE c) adj)).
  destruct (for_fold_ok (fun _ => True) (batching payload w)
              (add_adjective_stem (Tag_ADJECTIVE c))) with
    (xs := ADJECTIVE_STEMS c) (done := @nil adjective_stem_row)
    (s := (@nil row, 0)) (w := w) as (s' & w1 & Hloop & Hinv).
  - intros done x [buf i] w1 _ Hinv.
    apply (batch_step_batching payload w done x (as_name x) _ (buf, i) w1); done.
  - by apply Forall_true.
  - apply batching_start.
  - simpl in Hinv.
    destruct (final_flush_batched payload w _ s' w1 Hinv)
      as (w' & batches & Hflush & Hex & Hb & Hdb & Hpend & _).
    assert (Hrows : omap payload (ADJECTIVE_STEMS c)
                    = adjective_stem_payload (Tag_ADJECTIVE c) <$> ADJECTIVE_STEMS c).
    { apply omap_Some_fmap. }
    rewrite Hrows in Hb, Hdb.
    exists w', batches. split; [|done].
    unfold add_adjective_stems. rewrite (bind_Ok _ _ _ _ _ Hloop).
    destruct s' as [buf i]. exact Hflush.
Qed.

Lemma add_noun_stems_spec (c : ctx) (w : world) (gender_group : gmap string nat)
    (payloads : list row) :
  ENUM w !! "gender_group" = Some gender_group ->
  mapM (noun_stem_payload gender_group (Tag_NOUN c)) (NOUN_STEMS c) = Some payloads ->
  exists w' batches,
    add_noun_stems c w = (Ok tt, w') /\
    executed (trace w') = executed (trace w) ++ batches /\
    batched 500 batches payloads /\
    database w' = database w ++ payloads /\
    pending w' = pending w.
Proof.
  intros HE Hpay.
  set (payload := noun_stem_payload gender_group (Tag_NOUN c)).
  assert (Hall : Forall (fun x => is_Some (payload x)) (NOUN_STEMS c)).
  { apply mapM_Some in Hpay. clear -Hpay. induction Hpay; constructor; eauto. }
  assert (Hrows : omap payload (NOUN_STEMS c) = payloads).
  { by apply omap_mapM. }
  destruct (for_fold_ok (fun x => is_Some (payload x)) (batching payload w)
              (add_noun_stem gender_group (Tag_NOUN c))) with
    (xs := NOUN_STEMS c) (done := @nil noun_stem_row)
    (s := (@nil row, 0)) (w := w) as (s' & w1 & Hloop & Hinv).
  - intros done x [buf i] w1 [r Hr] Hinv.
    destruct (batch_step_batching payload w done x (ns_name x) r (buf, i) w1 Hr Hinv)
      as (s1 & w2 & Hstep & Hinv2).
    exists s1, w2. split; [|done]. rewrite <- Hstep.
    unfold add_noun_stem, batch_step. simpl.
    unfold payload, noun_stem_payload in Hr.
    destruct (gender_group !! ns_genders x) as [g|] eqn:Hg; [|done].
    simpl in Hr. injection Hr as <-.
    unfold mbind at 1, M_bind at 1, lift, subscript. by rewrite Hg.
  - done.
  - apply batching_start.
  - simpl in Hinv.
    destruct (final_flush_batched payload w _ s' w1 Hinv)
      as (w' & batches & Hflush & Hex & Hb & Hdb & Hpend & _).
    rewrite Hrows in Hb, Hdb.
    exists w', batches. split; [|done].
    unfold add_noun_stems.
    unfold mbind at 1, M_bind at 1, ENUM_get, subscript. rewrite HE.
    rewrite (bind_Ok _ _ _ _ _ Hloop).
    destruct s' as [buf i]. exact Hflush.
Qed.

(** C7 (counterexample): with the gender group [n] missing from the
    table, [add_noun_stems] reads [nara], whose group is there, and
    buffers its row, then ends in [KeyError('n')] at [phala]: no bulk
    insert has been issued, and the row of [nara], read from the file,
    is never inserted. *)
Lemma unknown_gender_group_loses_buffered_stem :
  let w := {| ENUM := {[ "gender_group" := {[ "m" := 1 ]} ]}; pending := [];
              database := []; tables := ∅; trace := [] |} in
  ns_name <$> NOUN_STEMS sample_ctx = ["nara"; "phala"] /\
  noun_stem_payload {[ "m" := 1 ]} (Tag_NOUN sample_ctx)
    {| ns_name := "nara"; ns_genders := "m" |}
  = Some (Stem (NounStem "nara" (Some 1) 1)) /\
  (add_noun_stems sample_ctx w).1 = Raise (KeyError "n") /\
  executed (trace (add_noun_stems sample_ctx w).2) = [] /\
  database (add_noun_stems sample_ctx w).2 = [].
Proof. intros w. repeat split; by vm_compute. Qed.

(** C7: the adjective-stem stage, and the noun-stem stage whenever every
    gender-group name of its file resolves, buffer the row payloads and
    issue a bulk insert of the whole buffer each time 500 rows have
    accumulated, then one last bulk insert of the rows that remain, if
    any: the bulk inserts, concatenated in order, are exactly the rows
    of the input file, each one once, every insert but the last holds
    exactly 500 rows, and none is empty. *)
Theorem bulk_stems_inserted_once (c : ctx) (w : world) :
  (exists w' batches,
     add_adjective_stems c w = (Ok tt, w') /\
     executed (trace w') = executed (trace w) ++ batches /\
     batched 500 batches
       (adjective_stem_payload (Tag_ADJECTIVE c) <$> ADJECTIVE_STEMS c) /\
     database w' = database w ++
       (adjective_stem_payload (Tag_ADJECTIVE c) <$> ADJECTIVE_STEMS c)) /\
  (forall gender_group payloads,
     ENUM w !! "gender_group" = Some gender_group ->
     mapM (noun_stem_payload gender_group (Tag_NOUN c)) (NOUN_STEMS c)
       = Some payloads ->
     exists w' batches,
       add_noun_stems c w = (Ok tt, w') /\
       executed (trace w') = executed (trace w) ++ batches /\
       batched 500 batches payloads /\
       database w' = database w ++ payloads).
Proof.
  split.
  - destruct (add_adjective_stems_spec c w) as (w' & bs & H1 & H2 & H3 & H4 & _).
    by exists w', bs.
  - intros gg payloads HE Hpay.
    destruct (add_noun_stems_spec c w gg payloads HE Hpay)
      as (w' & bs & H1 & H2 & H3 & H4 & _).
    by exists w', bs.
Qed.

Lemma bulk_stems_inserted_once_witness :
  exists w' batches,
    add_noun_stems sample_ctx sample_world = (Ok tt, w') /\
    executed (trace w') = batches /\
    concat batches =
      [Stem (NounStem "nara" (Some 1) 1); Stem (NounStem "phala" (Some 1) 2)] /\
    database w' =
      [Stem (NounStem "nara" (Some 1) 1); Stem (NounStem "phala" (Some 1) 2)].
Proof.
  destruct (proj2 (bulk_stems_inserted_once sample_ctx sample_world)
              {[ "m" := 1; "n" := 2 ]}
              [Stem (NounStem "nara" (Some 1) 1); Stem (NounStem "phala" (Some 1) 2)])
    as (w' & batches & Hrun & Hex & (Hcat & _) & Hdb).
  - by vm_compute.
  - by vm_compute.
  - exists w', batches. split; [exact Hrun|]. split; [exact Hex|].
    split; [exact Hcat|exact Hdb].
Defined.

End batch_writer.

(** * Properties of the stages that resolve root references *)

Section root_references.
Import setup.

Lemma reported_skips_app (t1 t2 : list event) :
  reported_skips (t1 ++ t2) = reported_skips t1 ++ reported_skips t2.
Proof. apply omap_app. Qed.

Lemma reported_skips_snoc_other (t : list event) (e : event) :
  (forall n, e <> PrintSkipped n) -> reported_skips (t ++ [e]) = reported_skips t.
Proof.
  intros He. rewrite reported_skips_app.
  destruct e; try (apply app_nil_r). by destruct (He n).
Qed.

Lemma omap_snoc_None {A B} (f : A -> option B) (xs : list A) (x : A) :
  f x = None -> omap f (xs ++ [x]) = omap f xs.
Proof. intros H. rewrite omap_app. simpl. rewrite H. apply app_nil_r. Qed.

Lemma ENUM_get_Ok {B} (key : string) (f : gmap string nat -> M B) (w : world)
    (d : gmap string nat) :
  ENUM w !! key = Some d -> (ENUM_get key ≫= f) w = f d w.
Proof. intros H. unfold mbind, M_bind, ENUM_get, subscript. by rewrite H. Qed.

Lemma ENUM_get_Raise {B} (key : string) (f : gmap string nat -> M B) (w : world) :
  ENUM w !! key = None -> (ENUM_get key ≫= f) w = (Raise (KeyError key), w).
Proof. intros H. unfold mbind, M_bind, ENUM_get, subscript. by rewrite H. Qed.

Lemma unresolved_snoc_miss (root_map : root_map_t) (keys : list root_key)
    (k : root_key) :
  root_map !! k = None ->
  unresolved root_map (keys ++ [k]) = unresolved root_map keys ++ [k].
Proof.
  intros H. unfold unresolved. rewrite filter_app. f_equal.
  by rewrite filter_cons_True.
Qed.

Lemma unresolved_snoc_hit (root_map : root_map_t) (keys : list root_key)
    (k : root_key) (id : nat) :
  root_map !! k = Some id ->
  unresolved root_map (keys ++ [k]) = unresolved root_map keys.
Proof.
  intros H. unfold unresolved. rewrite filter_app.
  rewrite (filter_cons_False _ k []) by congruence. apply app_nil_r.
Qed.

(** *** One turn of a resolving loop *)

Lemma resolving_start {R : Type} (root_map : root_map_t) (key : R -> root_key)
    (record : R -> nat -> option row) (w : world) :
  resolving root_map key record w [] ∅ w.
Proof. unfold resolving. simpl. by rewrite app_nil_r. Qed.

Lemma resolving_miss {R : Type} (root_map : root_map_t) (key : R -> root_key)
    (record : R -> nat -> option row) (w0 : world) (done : list R) (x : R)
    (skipped : gset root_key) (w : world) :
  root_map !! key x = None ->
  resolving root_map key record w0 done skipped w ->
  resolving root_map key record w0 (done ++ [x]) (skipped ∪ {[ key x ]}) w.
Proof.
  intros Hx (Hs & Hdb & Hrep & HE). unfold resolving.
  rewrite fmap_app. simpl. rewrite (unresolved_snoc_miss _ _ _ Hx).
  rewrite list_to_set_app_L, <- Hs. simpl. rewrite (right_id_L ∅ (∪)).
  rewrite omap_snoc_None; [done|]. unfold resolved_record. by rewrite Hx.
Qed.

Lemma resolving_hit {R : Type} (root_map : root_map_t) (key : R -> root_key)
    (record : R -> nat -> option row) (w0 : world) (done : list R) (x : R)
    (skipped : gset root_key) (w w' : world) (root_id : nat) (r : row) :
  root_map !! key x = Some root_id -> record x root_id = Some r ->
  resolving root_map key record w0 done skipped w ->
  database w' ++ pending w' = (database w ++ pending w) ++ [r] ->
  reported_skips (trace w') = reported_skips (trace w) ->
  ENUM w' = ENUM w ->
  resolving root_map key record w0 (done ++ [x]) skipped w'.
Proof.
  intros Hx Hr (Hs & Hdb & Hrep & HE) Hdb' Hrep' HE'. unfold resolving.
  rewrite fmap_app. simpl. rewrite (unresolved_snoc_hit _ _ _ _ Hx).
  rewrite (omap_snoc_Some _ _ _ r).
  - rewrite Hdb', Hdb, Hrep', HE', app_assoc. done.
  - unfold resolved_record. rewrite Hx. exact Hr.
Qed.

(** *** The loop bodies *)

Lemma add_verb_miss (root_map : root_map_t)
    (vclass person number mode voice : gmap string nat)
    (skipped : gset root_key) (i : nat) (row : verb_row) (w : world) :
  root_map !! (v_root row, v_hom row) = None ->
  add_verb root_map vclass person number mode voice (skipped, i) row w
  = (Ok (skipped ∪ {[ (v_root row, v_hom row) ]}, i), w).
Proof. intros H. unfold add_verb. cbv beta iota zeta. by rewrite H. Qed.

Lemma add_verb_hit (root_map : root_map_t)
    (vclass person number mode voice : gmap string nat)
    (skipped : gset root_key) (i : nat) (row : verb_row) (root_id : nat)
    (r : setup.row) (w : world) :
  root_map !! (v_root row, v_hom row) = Some root_id ->
  verb_record vclass person number mode voice row root_id = Some r ->
  exists w',
    add_verb root_map vclass person number mode voice (skipped, i) row w
      = (Ok (skipped, S i), w') /\
    database w' ++ pending w' = (database w ++ pending w) ++ [r] /\
    reported_skips (trace w') = reported_skips (trace w) /\
    ENUM w' = ENUM w.
Proof.
  intros Hroot Hr. unfold add_verb. cbv beta iota zeta. rewrite Hroot.
  unfold verb_record in Hr.
  unfold mbind, M_bind, mret, M_ret, lift, subscript.
  case_bool_decide; simplify_option_eq;
    (eexists; split; [reflexivity|]; cbn [database pending trace ENUM];
     rewrite ?reported_skips_snoc_other by done;
     rewrite ?app_nil_r, <- ?app_assoc; done).
Qed.

Lemma add_participle_stem_miss (root_map : root_map_t)
    (mode voice : gmap string nat)
    (skipped : gset root_key) (i : nat) (row : participle_row) (w : world) :
  root_map !! (p_root row, p_hom row) = None ->
  add_participle_stem root_map mode voice (skipped, i) row w
  = (Ok (skipped ∪ {[ (p_root row, p_hom row) ]}, i), w).
Proof. intros H. unfold add_participle_stem. cbv beta iota zeta. by rewrite H. Qed.

Lemma add_participle_stem_hit (root_map : root_map_t)
    (mode voice : gmap string nat)
    (skipped : gset root_key) (i : nat) (row : participle_row) (root_id : nat)
    (r : setup.row) (w : world) :
  root_map !! (p_root row, p_hom row) = Some root_id ->
  participle_record mode voice row root_id = Some r ->
  exists w',
    add_participle_stem root_map mode voice (skipped, i) row w
      = (Ok (skipped, S i), w') /\
    database w' ++ pending w' = (database w ++ pending w) ++ [r] /\
    reported_skips (trace w') = reported_skips (trace w) /\
    ENUM w' = ENUM w.
Proof.
  intros Hroot Hr. unfold add_participle_stem. cbv beta iota zeta. rewrite Hroot.
  unfold participle_record in Hr.
  unfold mbind, M_bind, mret, M_ret, lift, subscript.
  case_bool_decide; simplify_option_eq;
    (eexists; split; [reflexivity|]; cbn [database pending trace ENUM];
     rewrite ?reported_skips_snoc_other by done;
     rewrite ?app_nil_r, <- ?app_assoc; done).
Qed.

Lemma add_verbal_indeclinable_miss (root_map : root_map_t)
    (cls : string -> nat -> row)
    (skipped : gset root_key) (row : indeclinable_row) (w : world) :
  root_map !! (vi_root row, vi_hom row) = None ->
  add_verbal_indeclinable root_map cls skipped row w
  = (Ok (skipped ∪ {[ (vi_root row, vi_hom row) ]}), w).
Proof. intros H. unfold add_verbal_indeclinable. cbv beta iota zeta. by rewrite H. Qed.

Lemma add_verbal_indeclinable_hit (root_map : root_map_t)
    (cls : string -> nat -> row)
    (skipped : gset root_key) (row : indeclinable_row) (root_id : nat) (w : world) :
  root_map !! (vi_root row, vi_hom row) = Some root_id ->
  exists w',
    add_verbal_indeclinable root_map cls skipped row w = (Ok skipped, w') /\
    database w' ++ pending w'
      = (database w ++ pending w) ++ [cls (vi_name row) root_id] /\
    reported_skips (trace w') = reported_skips (trace w) /\
    ENUM w' = ENUM w.
Proof.
  intros Hroot. unfold add_verbal_indeclinable. cbv beta iota zeta. rewrite Hroot.
  eexists. split; [reflexivity|]. cbn [database pending trace ENUM].
  rewrite ?reported_skips_snoc_other by done. by rewrite <- ?app_assoc.
Qed.

(** *** The loops *)

Lemma for_fold_add_verb (root_map : root_map_t)
    (vclass person number mode voice : gmap string nat)
    (rows : list verb_row) (w : world) :
  records_resolve root_map verb_key
    (verb_record vclass person number mode voice) rows ->
  exists skipped i w',
    for_fold rows (∅, 0) (add_verb root_map vclass person number mode voice) w
      = (Ok (skipped, i), w') /\
    resolving root_map verb_key (verb_record vclass person number mode voice)
      w rows skipped w'.
Proof.
  intros Hrows.
  destruct (for_fold_ok
              (fun x => forall root_id, root_map !! verb_key x = Some root_id ->
                          is_Some (verb_record vclass person number mode voice x root_id))
              (fun done s w' =>
                 resolving root_map verb_key
                   (verb_record vclass person number mode voice) w done s.1 w')
              (add_verb root_map vclass person number mode voice))
    with (xs := rows) (done := @nil verb_row) (s := (∅ : gset root_key, 0)) (w := w)
    as ([skipped i] & w' & Hloop & Hinv).
  - intros done x [skipped i] w1 Hx Hinv. cbn [fst] in *.
    destruct (root_map !! verb_key x) as [root_id|] eqn:Hroot.
    + destruct (Hx root_id eq_refl) as [r Hr].
      destruct (add_verb_hit root_map vclass person number mode voice
                  skipped i x root_id r w1 Hroot Hr)
        as (w2 & Hrun & Hdb & Hrep & HE).
      exists (skipped, S i), w2. split; [exact Hrun|]. cbn [fst].
      by eapply resolving_hit.
    + exists (skipped ∪ {[ verb_key x ]}, i), w1.
      split; [by apply add_verb_miss|]. cbn [fst]. by apply resolving_miss.
  - exact Hrows.
  - apply resolving_start.
  - exists skipped, i, w'. by split.
Qed.

Lemma for_fold_add_participle_stem (root_map : root_map_t)
    (mode voice : gmap string nat) (rows : list participle_row) (w : world) :
  records_resolve root_map participle_key (participle_record mode voice) rows ->
  exists skipped i w',
    for_fold rows (∅, 0) (add_participle_stem root_map mode voice) w
      = (Ok (skipped, i), w') /\
    resolving root_map participle_key (participle_record mode voice)
      w rows skipped w'.
Proof.
  intros Hrows.
  destruct (for_fold_ok
              (fun x => forall root_id, root_map !! participle_key x = Some root_id ->
                          is_Some (participle_record mode voice x root_id))
              (fun done s w' =>
                 resolving root_map participle_key
                   (participle_record mode voice) w done s.1 w')
              (add_participle_stem root_map mode voice))
    with (xs := rows) (done := @nil participle_row)
         (s := (∅ : gset root_key, 0)) (w := w)
    as ([skipped i] & w' & Hloop & Hinv).
  - intros done x [skipped i] w1 Hx Hinv. cbn [fst] in *.
    destruct (root_map !! participle_key x) as [root_id|] eqn:Hroot.
    + destruct (Hx root_id eq_refl) as [r Hr].
      destruct (add_participle_stem_hit root_map mode voice
                  skipped i x root_id r w1 Hroot Hr)
        as (w2 & Hrun & Hdb & Hrep & HE).
      exists (skipped, S i), w2. split; [exact Hrun|]. cbn [fst].
      by eapply resolving_hit.
    + exists (skipped ∪ {[ participle_key x ]}, i), w1.
      split; [by apply add_participle_stem_miss|]. cbn [fst].
      by apply resolving_miss.
  - exact Hrows.
  - apply resolving_start.
  - exists skipped, i, w'. by split.
Qed.

(** A loop run over [rows ++ [x]] is the loop over [rows] followed by
    the body on [x]. *)
Lemma for_fold_snoc {A S} (rows : list A) (x : A) (body : S -> A -> M S) :
  forall (s s1 s2 : S) (w w1 w2 : world),
    for_fold rows s body w = (Ok s1, w1) ->
    body s1 x w1 = (Ok s2, w2) ->
    for_fold (rows ++ [x]) s body w = (Ok s2, w2).
Proof.
  induction rows as [|y rows IH]; intros s s1 s2 w w1 w2 Hrun Hx.
  - injection Hrun as <- <-. simpl. by rewrite (bind_Ok _ _ _ _ _ Hx).
  - simpl in *. unfold mbind, M_bind in *.
    destruct (body s y w) as [[s'|e] w']; [|done]. by eapply IH.
Qed.

(** The inner loop of [add_verbal_indeclinables] over one file, started
    with the skipped set [skipped0] of the files before it. *)
Lemma for_fold_add_verbal_indeclinable (root_map : root_map_t)
    (cls : string -> nat -> row) (rows : list indeclinable_row) :
  forall (skipped0 : gset root_key) (w : world),
  exists skipped w',
    for_fold rows skipped0 (add_verbal_indeclinable root_map cls) w
      = (Ok skipped, w') /\
    skipped = skipped0 ∪ list_to_set (unresolved root_map (indeclinable_key <$> rows)) /\
    database w' ++ pending w'
      = (database w ++ pending w) ++
        omap (resolved_record root_map indeclinable_key
                (fun row root_id => Some (cls (vi_name row) root_id))) rows /\
    reported_skips (trace w') = reported_skips (trace w) /\
    ENUM w' = ENUM w.
Proof.
  induction rows as [|x rows IH] using rev_ind; intros skipped0 w.
  - exists skipped0, w. split; [done|]. simpl.
    rewrite (right_id_L ∅ (∪)), app_nil_r. done.
  - destruct (IH skipped0 w) as (s1 & w1 & Hrun1 & Hs & Hdb & Hrep & HE).
    rewrite fmap_app. simpl.
    destruct (root_map !! indeclinable_key x) as [root_id|] eqn:Hroot.
    + destruct (add_verbal_indeclinable_hit root_map cls s1 x root_id w1 Hroot)
        as (w2 & Hrun & Hdb2 & Hrep2 & HE2).
      exists s1, w2. split; [by eapply for_fold_snoc|].
      rewrite (unresolved_snoc_hit _ _ _ _ Hroot).
      rewrite (omap_snoc_Some _ _ _ (cls (vi_name x) root_id))
        by (unfold resolved_record; by rewrite Hroot).
      rewrite Hdb2, Hdb, Hrep2, Hrep, HE2, HE, app_assoc. done.
    + pose proof (add_verbal_indeclinable_miss root_map cls s1 x w1 Hroot) as Hrun.
      exists (s1 ∪ {[ indeclinable_key x ]}), w1.
      split; [by eapply for_fold_snoc|].
      rewrite (unresolved_snoc_miss _ _ _ Hroot).
      rewrite omap_snoc_None by (unfold resolved_record; by rewrite Hroot).
      rewrite list_to_set_app_L. simpl. rewrite (right_id_L ∅ (∪)).
      rewrite Hs, (assoc_L (∪)). done.
Qed.

(** *** The stages *)

Lemma add_verbs_spec (c : ctx) (root_map : root_map_t) (w : world)
    (vclass person number mode voice : gmap string nat) :
  verb_tables w vclass person number mode voice ->
  records_resolve root_map verb_key
    (verb_record vclass person number mode voice) (VERBS c) ->
  exists w',
    add_verbs c root_map w = (Ok tt, w') /\
    database w' = (database w ++ pending w) ++
      omap (resolved_record root_map verb_key
              (verb_record vclass person number mode voice)) (VERBS c) /\
    pending w' = [] /\
    reported_skips (trace w') = reported_skips (trace w) ++
      [size (list_to_set (unresolved root_map (verb_key <$> VERBS c)) : gset root_key)] /\
    ENUM w' = ENUM w.
Proof.
  intros (H1 & H2 & H3 & H4 & H5) Hrows. unfold add_verbs.
  rewrite (ENUM_get_Ok _ _ _ _ H1), (ENUM_get_Ok _ _ _ _ H2),
    (ENUM_get_Ok _ _ _ _ H3), (ENUM_get_Ok _ _ _ _ H4), (ENUM_get_Ok _ _ _ _ H5).
  destruct (for_fold_add_verb root_map vclass person number mode voice
              (VERBS c) w Hrows) as (skipped & i & w1 & Hloop & Hs & Hdb & Hrep & HE).
  rewrite (bind_Ok _ _ _ _ _ Hloop).
  eexists. split; [reflexivity|]. cbn [database pending trace ENUM].
  rewrite Hdb, reported_skips_app, !reported_skips_snoc_other, Hrep, <- Hs by done.
  done.
Qed.

Lemma add_participle_stems_spec (c : ctx) (root_map : root_map_t) (w : world)
    (mode voice : gmap string nat) :
  participle_tables w mode voice ->
  records_resolve root_map participle_key
    (participle_record mode voice) (PARTICIPLE_STEMS c) ->
  exists w',
    add_participle_stems c root_map w = (Ok tt, w') /\
    database w' = (database w ++ pending w) ++
      omap (resolved_record root_map participle_key
              (participle_record mode voice)) (PARTICIPLE_STEMS c) /\
    pending w' = [] /\
    reported_skips (trace w') = reported_skips (trace w) ++
      [size (list_to_set (unresolved root_map (participle_key <$> PARTICIPLE_STEMS c))
             : gset root_key)] /\
    ENUM w' = ENUM w.
Proof.
  intros (H1 & H2) Hrows. unfold add_participle_stems.
  rewrite (ENUM_get_Ok _ _ _ _ H1), (ENUM_get_Ok _ _ _ _ H2).
  destruct (for_fold_add_participle_stem root_map mode voice
              (PARTICIPLE_STEMS c) w Hrows)
    as (skipped & i & w1 & Hloop & Hs & Hdb & Hrep & HE).
  rewrite (bind_Ok _ _ _ _ _ Hloop).
  eexists. split; [reflexivity|]. cbn [database pending trace ENUM].
  rewrite Hdb, reported_skips_app, !reported_skips_snoc_other, Hrep, <- Hs by done.
  done.
Qed.

Lemma add_verbal_indeclinables_spec (c : ctx) (root_map : root_map_t) (w : world) :
  exists w',
    add_verbal_indeclinables c root_map w = (Ok tt, w') /\
    database w' = (database w ++ pending w) ++
      omap (resolved_record root_map indeclinable_key gerund_record) (GERUNDS c) ++
      omap (resolved_record root_map indeclinable_key infinitive_record)
        (INFINITIVES c) /\
    pending w' = [] /\
    reported_skips (trace w') = reported_skips (trace w) /\
    ENUM w' = ENUM w.
Proof.
  unfold add_verbal_indeclinables. cbn [for_fold].
  destruct (for_fold_add_verbal_indeclinable root_map Gerund (GERUNDS c) ∅ w)
    as (s1 & w1 & Hrun1 & _ & Hdb1 & Hrep1 & HE1).
  destruct (for_fold_add_verbal_indeclinable root_map Infinitive (INFINITIVES c) s1 w1)
    as (s2 & w2 & Hrun2 & _ & Hdb2 & Hrep2 & HE2).
  rewrite (bind_Ok _ (fun _ => session_commit) _ w2 s2).
  - eexists. split; [reflexivity|]. cbn [database pending trace ENUM].
    rewrite Hdb2, Hdb1, reported_skips_snoc_other, Hrep2, Hrep1, HE2, HE1 by done.
    by rewrite <- !app_assoc.
  - rewrite (bind_Ok _ _ _ _ _ Hrun1). rewrite (bind_Ok _ _ _ _ _ Hrun2). done.
Qed.

Lemma size_list_to_set_remove_dups (keys : list root_key) :
  size (list_to_set keys : gset root_key) = length (remove_dups keys).
Proof.
  rewrite <- (size_list_to_set (C := gset root_key) (remove_dups keys))
    by apply NoDup_remove_dups.
  f_equal. apply set_eq. intros k.
  by rewrite !elem_of_list_to_set, elem_of_remove_dups.
Qed.

End root_references.

(** * Root references: resolution, skipping and the reported count *)

Section root_reference_claims.
Import setup.

(** C1 (counterexample): (a) in the verbs stage a record whose root pair
    is in the root map, but whose number name is in no enum table, is not
    inserted: the stage ends in a [KeyError] and the database stays as it
    was; (b) the gerund and infinitive stage drops the gerund of the
    unknown root [bhU] and ends without reporting any skipped count. *)
Lemma resolved_root_not_inserted_and_skips_unreported :
  (let root_map : root_map_t := <[("bhU", None) := 2]> sample_roots in
   let E := <["number" := {[ "s" := 1 ]}]> sample_ENUM in
   let w := {| ENUM := E; pending := []; database := []; tables := ∅; trace := [] |} in
   let row := {| v_name := "bhavanti"; v_root := "bhU"; v_hom := None;
                 v_vclass := ""; v_person := "3"; v_number := "p";
                 v_mode := "pres"; v_voice := "para" |} in
   row ∈ VERBS sample_ctx /\
   root_map !! verb_key row = Some 2 /\
   (add_verbs sample_ctx root_map w).1 = Raise (KeyError "p") /\
   database (add_verbs sample_ctx root_map w).2 = []) /\
  (let r := add_verbal_indeclinables sample_ctx sample_roots sample_world in
   unresolved sample_roots (indeclinable_key <$> GERUNDS sample_ctx) = [("bhU", None)] /\
   r.1 = Ok tt /\
   database r.2 = [Gerund "gatvA" 1; Infinitive "gantum" 1] /\
   reported_skips (trace r.2) = []).
Proof.
  split.
  - split; [|repeat split; by vm_compute].
    unfold sample_ctx. cbn [VERBS].
    repeat first [apply list_elem_of_here | apply list_elem_of_further].
  - repeat split; by vm_compute.
Qed.

(** C1 (amended): in the verbs and participle-stems stages, when the enum
    names of the records whose root resolves are in the enum tables, and in
    the gerund and infinitive stage always, the stage runs to its end over
    the whole file: a record whose pair (root name, homonym index) is in
    the root map is inserted with the root id found there, a record whose
    pair is absent is not inserted; the verbs and participle-stems stages
    then report one count, the size of the set of unresolved pairs.  In
    each of the three loops a record whose pair is absent adds the pair to
    the skipped set, changes nothing else and lets the loop go on. *)
Theorem root_references_resolved_or_skipped (c : ctx) (root_map : root_map_t)
    (w : world) :
  (forall vclass person number mode voice,
     verb_tables w vclass person number mode voice ->
     records_resolve root_map verb_key
       (verb_record vclass person number mode voice) (VERBS c) ->
     exists w',
       add_verbs c root_map w = (Ok tt, w') /\
       database w' = (database w ++ pending w) ++
         omap (resolved_record root_map verb_key
                 (verb_record vclass person number mode voice)) (VERBS c) /\
       reported_skips (trace w') = reported_skips (trace w) ++
         [size (list_to_set (unresolved root_map (verb_key <$> VERBS c))
                : gset root_key)]) /\
  (forall mode voice,
     participle_tables w mode voice ->
     records_resolve root_map participle_key
       (participle_record mode voice) (PARTICIPLE_STEMS c) ->
     exists w',
       add_participle_stems c root_map w = (Ok tt, w') /\
       database w' = (database w ++ pending w) ++
         omap (resolved_record root_map participle_key
                 (participle_record mode voice)) (PARTICIPLE_STEMS c) /\
       reported_skips (trace w') = reported_skips (trace w) ++
         [size (list_to_set
                  (unresolved root_map (participle_key <$> PARTICIPLE_STEMS c))
                : gset root_key)]) /\
  (exists w',
     add_verbal_indeclinables c root_map w = (Ok tt, w') /\
     database w' = (database w ++ pending w) ++
       omap (resolved_record root_map indeclinable_key gerund_record) (GERUNDS c) ++
       omap (resolved_record root_map indeclinable_key infinitive_record)
         (INFINITIVES c)) /\
  (forall vclass person number mode voice skipped i row,
     root_map !! verb_key row = None ->
     add_verb root_map vclass person number mode voice (skipped, i) row w
     = (Ok (skipped ∪ {[ verb_key row ]}, i), w)) /\
  (forall mode voice skipped i row,
     root_map !! participle_key row = None ->
     add_participle_stem root_map mode voice (skipped, i) row w
     = (Ok (skipped ∪ {[ participle_key row ]}, i), w)) /\
  (forall cls skipped row,
     root_map !! indeclinable_key row = None ->
     add_verbal_indeclinable root_map cls skipped row w
     = (Ok (skipped ∪ {[ indeclinable_key row ]}), w)).
Proof.
  split; [|split; [|split; [|split; [|split]]]].
  - intros vclass person number mode voice Ht Hrows.
    destruct (add_verbs_spec c root_map w vclass person number mode voice Ht Hrows)
      as (w' & Hrun & Hdb & _ & Hrep & _).
    by exists w'.
  - intros mode voice Ht Hrows.
    destruct (add_participle_stems_spec c root_map w mode voice Ht Hrows)
      as (w' & Hrun & Hdb & _ & Hrep & _).
    by exists w'.
  - destruct (add_verbal_indeclinables_spec c root_map w)
      as (w' & Hrun & Hdb & _).
    by exists w'.
  - intros. by apply add_verb_miss.
  - intros. by apply add_participle_stem_miss.
  - intros. by apply add_verbal_indeclinable_miss.
Qed.

Lemma root_references_resolved_or_skipped_witness :
  exists w',
    add_verbs sample_ctx sample_roots sample_world = (Ok tt, w') /\
    database w' = [Verb "gacchati" 1 (Some 1) 1 1 1 1].
Proof.
  destruct (proj1 (root_references_resolved_or_skipped
                     sample_ctx sample_roots sample_world)
              {[ "1" := 1 ]} {[ "3" := 1 ]} {[ "s" := 1; "p" := 2 ]}
              {[ "pres" := 1 ]} {[ "para" := 1 ]})
    as (w' & Hrun & Hdb & _).
  - repeat split; by vm_compute.
  - unfold records_resolve, sample_ctx. cbn [VERBS].
    repeat (apply Forall_cons; split;
            [intros root_id Hroot; vm_compute in Hroot;
             first [discriminate Hroot | vm_compute; by eexists]|]).
    apply Forall_nil_2.
  - exists w'. split; [exact Hrun|]. rewrite Hdb. by vm_compute.
Defined.

(** C9: in the verbs stage and in the participle-stems stage, whenever the
    stage runs to its end (the enum names of the records whose root
    resolves are in the enum tables), the one count it reports is the
    number of distinct pairs (root name, homonym index) that the root map
    does not have: the unresolved pairs of the file, one per dropped
    record, counted without repetition. *)
Theorem skip_count_is_number_of_distinct_pairs (c : ctx) (root_map : root_map_t)
    (w : world) :
  (forall vclass person number mode voice,
     verb_tables w vclass person number mode voice ->
     records_resolve root_map verb_key
       (verb_record vclass person number mode voice) (VERBS c) ->
     exists w',
       add_verbs c root_map w = (Ok tt, w') /\
       reported_skips (trace w') = reported_skips (trace w) ++
         [length (remove_dups (unresolved root_map (verb_key <$> VERBS c)))]) /\
  (forall mode voice,
     participle_tables w mode voice ->
     records_resolve root_map participle_key
       (participle_record mode voice) (PARTICIPLE_STEMS c) ->
     exists w',
       add_participle_stems c root_map w = (Ok tt, w') /\
       reported_skips (trace w') = reported_skips (trace w) ++
         [length (remove_dups
                    (unresolved root_map (participle_key <$> PARTICIPLE_STEMS c)))]).
Proof.
  split.
  - intros vclass person number mode voice Ht Hrows.
    destruct (add_verbs_spec c root_map w vclass person number mode voice Ht Hrows)
      as (w' & Hrun & _ & _ & Hrep & _).
    exists w'. split; [exact Hrun|].
    by rewrite Hrep, size_list_to_set_remove_dups.
  - intros mode voice Ht Hrows.
    destruct (add_participle_stems_spec c root_map w mode voice Ht Hrows)
      as (w' & Hrun & _ & _ & Hrep & _).
    exists w'. split; [exact Hrun|].
    by rewrite Hrep, size_list_to_set_remove_dups.
Qed.

Lemma skip_count_is_number_of_distinct_pairs_witness :
  length (unresolved sample_roots (verb_key <$> VERBS sample_ctx)) = 2 /\
  exists w',
    add_verbs sample_ctx sample_roots sample_world = (Ok tt, w') /\
    reported_skips (trace w') = [1].
Proof.
  split; [by vm_compute|].
  destruct (proj1 (skip_count_is_number_of_distinct_pairs
                     sample_ctx sample_roots sample_world)
              {[ "1" := 1 ]} {[ "3" := 1 ]} {[ "s" := 1; "p" := 2 ]}
              {[ "pres" := 1 ]} {[ "para" := 1 ]})
    as (w' & Hrun & Hrep).
  - repeat split; by vm_compute.
  - unfold records_resolve, sample_ctx. cbn [VERBS].
    repeat (apply Forall_cons; split;
            [intros root_id Hroot; vm_compute in Hroot;
             first [discriminate Hroot | vm_compute; by eexists]|]).
    apply Forall_nil_2.
  - exists w'. split; [exact Hrun|]. rewrite Hrep. by vm_compute.
Defined.

End root_reference_claims.

(** * Enum references: fatal misses and the two lenient fields *)

Section enum_references.
Import setup.

Lemma missing_in_table (E : gmap string (gmap string nat)) (category name : string)
    (d : gmap string nat) :
  missing E category name -> E !! category = Some d -> d !! name = None.
Proof. unfold missing. intros H Hd. by rewrite Hd in H. Qed.

(** A computation that raises from every world aborts from this one. *)
Lemma raises_everywhere_aborts {A} (m : M A) (w : world) :
  only_KeyError m -> raises_in (fun _ => True) m -> aborts m w.
Proof. intros Honly H. by apply (raises_in_aborts (fun _ => True)). Qed.

(** Takes a stage apart to see that its exceptions are [KeyError]s. *)
Ltac only_KeyError_step :=
  first
    [ apply only_KeyError_subscript | apply only_KeyError_ENUM_get
    | apply only_KeyError_emit | apply only_KeyError_session_add
    | apply only_KeyError_session_commit | apply only_KeyError_conn_execute
    | apply only_KeyError_last_id | apply only_KeyError_ENUM_set
    | apply only_KeyError_ret
    | apply only_KeyError_bind; [|intros ?]
    | apply only_KeyError_for; intros ?
    | apply only_KeyError_for_fold; intros ? ?
    | apply only_KeyError_list_comp; intros ?
    | match goal with
      | |- only_KeyError (match ?x with _ => _ end) => destruct x
      | |- only_KeyError ((match ?x with _ => _ end) _) => destruct x
      end
    | progress (cbv beta) ].

Ltac only_KeyError_stage :=
  unfold heading, session_flush, session_close, tick, ENUM_setitem, gender_member,
    add_form, add_enum_item, add_gender_group, add_verb, add_participle_stem,
    add_verbal_indeclinable, add_noun_stem, add_adjective_stem;
  repeat only_KeyError_step.

Ltac raise_r := apply raises_in_bind_r; [apply preserves_True | intros ?].
Ltac raise_l := apply raises_in_bind_l.
Ltac raise_now := by apply raises_in_subscript.

(** *** Forms of irregular nouns, adjectives and pronouns *)

Lemma add_form_raises (cls : stem -> string -> nat -> nat -> nat -> row)
    (flush : bool) (gender case number : gmap string nat) (st : stem) (f : form) :
  gender !! f_gender f = None \/ case !! f_case f = None \/
  number !! f_number f = None ->
  raises_in (fun _ => True) (add_form cls flush gender case number st f).
Proof.
  intros [H|[H|H]]; unfold add_form.
  - raise_l. raise_now.
  - raise_r. raise_l. raise_now.
  - raise_r. raise_r. raise_l. raise_now.
Qed.

Lemma form_unresolved_tables (E : gmap string (gmap string nat))
    (gender case number : gmap string nat) (f : form) :
  form_unresolved E f ->
  E !! "gender" = Some gender -> E !! "case" = Some case ->
  E !! "number" = Some number ->
  gender !! f_gender f = None \/ case !! f_case f = None \/
  number !! f_number f = None.
Proof.
  intros [H|[H|H]] Hg Hc Hn;
    [left|right; left|right; right]; by eapply missing_in_table.
Qed.

(** *** The stages *)

Lemma add_sandhi_aborts (c : ctx) (w : world) (rs : ruleset) :
  rs ∈ SANDHI c -> ruleset_rules rs <> [] ->
  missing (ENUM w) "sandhi_type" (ruleset_type rs) ->
  aborts (add_sandhi c) w.
Proof.
  intros Hin Hrules Hmiss. unfold add_sandhi.
  apply aborts_ENUM_get. intros stype Hstype.
  apply raises_everywhere_aborts; [only_KeyError_stage|]. raise_l.
  apply (raises_in_for _ _ _ rs); [intros; apply preserves_True|done|].
  raise_r. destruct (ruleset_rules rs) as [|rule rules]; [done|].
  apply (raises_in_for _ _ _ rule);
    [intros; apply preserves_True|apply list_elem_of_here|].
  raise_l. apply raises_in_subscript. by eapply missing_in_table.
Qed.

Lemma add_verb_endings_aborts (c : ctx) (w : world) (group : verb_ending_group) :
  group ∈ VERB_ENDINGS c ->
  missing (ENUM w) "mode" (veg_mode group) \/
  missing (ENUM w) "voice" (veg_voice group) \/
  (exists row, row ∈ veg_endings group /\
     (missing (ENUM w) "person" (ve_person row) \/
      missing (ENUM w) "number" (ve_number row))) ->
  aborts (add_verb_endings c) w.
Proof.
  intros Hin Hmiss. unfold add_verb_endings.
  apply aborts_ENUM_get. intros person Hperson.
  apply aborts_ENUM_get. intros number Hnumber.
  apply aborts_ENUM_get. intros mode Hmode.
  apply aborts_ENUM_get. intros voice Hvoice.
  apply raises_everywhere_aborts; [only_KeyError_stage|]. raise_l.
  apply (raises_in_for _ _ _ group); [intros; apply preserves_True|done|].
  destruct Hmiss as [H|[H|(row & Hrow & H)]].
  - raise_l. apply raises_in_subscript. by eapply missing_in_table.
  - raise_r. raise_l. apply raises_in_subscript. by eapply missing_in_table.
  - raise_r. raise_r. raise_l.
    apply (raises_in_for _ _ _ row); [intros; apply preserves_True|done|].
    destruct H as [H|H].
    + raise_l. apply raises_in_subscript. by eapply missing_in_table.
    + raise_r. raise_l. apply raises_in_subscript. by eapply missing_in_table.
Qed.

Lemma add_roots_aborts (c : ctx) (w : world) (item : root_item)
    (paradigm : string * string) :
  item ∈ ROOTS c -> paradigm ∈ ri_paradigms item ->
  missing (ENUM w) "vclass" paradigm.1 \/ missing (ENUM w) "voice" paradigm.2 ->
  aborts (add_roots c) w.
Proof.
  intros Hin Hpar Hmiss. unfold add_roots.
  apply aborts_ENUM_get. intros vclass Hvclass.
  apply aborts_ENUM_get. intros voice Hvoice.
  apply raises_everywhere_aborts; [only_KeyError_stage|]. raise_l.
  apply (raises_in_for_fold _ _ _ item);
    [intros [? ?] ?; apply preserves_True|done|].
  intros [root_map i]. raise_r. raise_r. raise_r. raise_l.
  apply (raises_in_for _ _ _ paradigm); [intros; apply preserves_True|done|].
  destruct Hmiss as [H|H].
  - raise_l. apply raises_in_subscript. by eapply missing_in_table.
  - raise_r. raise_l. apply raises_in_subscript. by eapply missing_in_table.
Qed.

Lemma add_verbs_aborts (c : ctx) (root_map : root_map_t) (w : world)
    (row : verb_row) :
  row ∈ VERBS c -> is_Some (root_map !! verb_key row) ->
  verb_unresolved (ENUM w) row ->
  aborts (add_verbs c root_map) w.
Proof.
  intros Hin [root_id Hroot] Hmiss. unfold add_verbs.
  apply aborts_ENUM_get. intros vclass Hvclass.
  apply aborts_ENUM_get. intros person Hperson.
  apply aborts_ENUM_get. intros number Hnumber.
  apply aborts_ENUM_get. intros mode Hmode.
  apply aborts_ENUM_get. intros voice Hvoice.
  apply raises_everywhere_aborts; [only_KeyError_stage|]. raise_l.
  apply (raises_in_for_fold _ _ _ row);
    [intros [? ?] ?; apply preserves_True|done|].
  intros [skipped i]. unfold add_verb. cbv beta iota zeta.
  change (root_map !! (v_root row, v_hom row)) with (root_map !! verb_key row).
  rewrite Hroot.
  destruct Hmiss as [[Hne H]|[H|[H|[H|H]]]].
  - raise_l. rewrite bool_decide_eq_true_2 by done.
    raise_l. apply raises_in_subscript. by eapply missing_in_table.
  - raise_r. raise_l. apply raises_in_subscript. by eapply missing_in_table.
  - raise_r. raise_r. raise_l. apply raises_in_subscript. by eapply missing_in_table.
  - raise_r. raise_r. raise_r. raise_l.
    apply raises_in_subscript. by eapply missing_in_table.
  - raise_r. raise_r. raise_r. raise_r. raise_l.
    apply raises_in_subscript. by eapply missing_in_table.
Qed.

Lemma add_participle_stems_aborts (c : ctx) (root_map : root_map_t) (w : world)
    (row : participle_row) :
  row ∈ PARTICIPLE_STEMS c -> is_Some (root_map !! participle_key row) ->
  missing (ENUM w) "mode" (p_mode row) \/ missing (ENUM w) "voice" (p_voice row) ->
  aborts (add_participle_stems c root_map) w.
Proof.
  intros Hin [root_id Hroot] Hmiss. unfold add_participle_stems.
  apply aborts_ENUM_get. intros mode Hmode.
  apply aborts_ENUM_get. intros voice Hvoice.
  apply raises_everywhere_aborts; [only_KeyError_stage|]. raise_l.
  apply (raises_in_for_fold _ _ _ row);
    [intros [? ?] ?; apply preserves_True|done|].
  intros [skipped i]. unfold add_participle_stem. cbv beta iota zeta.
  change (root_map !! (p_root row, p_hom row)) with (root_map !! participle_key row).
  rewrite Hroot.
  destruct Hmiss as [H|H].
  - raise_l. apply raises_in_subscript. by eapply missing_in_table.
  - raise_r. raise_l. apply raises_in_subscript. by eapply missing_in_table.
Qed.

Lemma add_nominal_endings_aborts (c : ctx) (w : world)
    (group : nominal_ending_group) (row : nominal_ending_row) :
  group ∈ NOMINAL_ENDINGS c -> row ∈ neg_endings group ->
  missing (ENUM w) "gender" (ne_gender row) ->
  aborts (add_nominal_endings c) w.
Proof.
  intros Hin Hrow Hmiss. unfold add_nominal_endings.
  apply aborts_ENUM_get. intros gender Hgender.
  apply aborts_ENUM_get. intros case Hcase.
  apply aborts_ENUM_get. intros number Hnumber.
  apply raises_everywhere_aborts; [only_KeyError_stage|]. raise_l.
  apply (raises_in_for _ _ _ group); [intros; apply preserves_True|done|].
  raise_l.
  apply (raises_in_for _ _ _ row); [intros; apply preserves_True|done|].
  raise_l. apply raises_in_subscript. by eapply missing_in_table.
Qed.

Lemma add_noun_stems_aborts (c : ctx) (w : world) (noun : noun_stem_row) :
  noun ∈ NOUN_STEMS c ->
  missing (ENUM w) "gender_group" (ns_genders noun) ->
  aborts (add_noun_stems c) w.
Proof.
  intros Hin Hmiss. unfold add_noun_stems.
  apply aborts_ENUM_get. intros gender_group Hgg.
  apply raises_everywhere_aborts; [only_KeyError_stage|]. raise_l.
  apply (raises_in_for_fold _ _ _ noun);
    [intros [? ?] ?; apply preserves_True|done|].
  intros [buf i]. unfold add_noun_stem. cbv beta iota zeta.
  raise_l. apply raises_in_subscript. by eapply missing_in_table.
Qed.

Lemma add_irregular_nouns_aborts (c : ctx) (w : world) (noun : irregular_noun) :
  noun ∈ IRREGULAR_NOUNS c ->
  missing (ENUM w) "gender_group" (in_genders noun) \/
  (exists f, f ∈ in_forms noun /\ form_unresolved (ENUM w) f) ->
  aborts (add_irregular_nouns c) w.
Proof.
  intros Hin Hmiss. unfold add_irregular_nouns.
  apply aborts_ENUM_get. intros gender_group Hgg.
  apply aborts_ENUM_get. intros gender Hgender.
  apply aborts_ENUM_get. intros case Hcase.
  apply aborts_ENUM_get. intros number Hnumber.
  apply raises_everywhere_aborts; [only_KeyError_stage|]. raise_l.
  apply (raises_in_for _ _ _ noun); [intros; apply preserves_True|done|].
  destruct Hmiss as [H|(f & Hf & H)].
  - raise_l. apply raises_in_subscript. by eapply missing_in_table.
  - raise_r. raise_r. raise_r. raise_r. raise_r. raise_r.
    apply (raises_in_for _ _ _ f); [intros; apply preserves_True|done|].
    apply add_form_raises. by eapply form_unresolved_tables.
Qed.

Lemma add_irregular_adjectives_aborts (c : ctx) (w : world)
    (adj : irregular_adjective) (f : form) :
  adj ∈ IRREGULAR_ADJECTIVES c -> f ∈ ia_forms adj ->
  form_unresolved (ENUM w) f ->
  aborts (add_irregular_adjectives c) w.
Proof.
  intros Hin Hf Hmiss. unfold add_irregular_adjectives.
  apply aborts_ENUM_get. intros gender Hgender.
  apply aborts_ENUM_get. intros case Hcase.
  apply aborts_ENUM_get. intros number Hnumber.
  apply raises_everywhere_aborts; [only_KeyError_stage|]. raise_l.
  apply (raises_in_for _ _ _ adj); [intros; apply preserves_True|done|].
  raise_r. raise_r. raise_r. raise_r. raise_r.
  apply (raises_in_for _ _ _ f); [intros; apply preserves_True|done|].
  apply add_form_raises. by eapply form_unresolved_tables.
Qed.

Lemma add_pronouns_aborts (c : ctx) (w : world) (p : pronoun) :
  p ∈ PRONOUNS c ->
  missing (ENUM w) "gender_group" (pn_genders p) \/
  (exists f, f ∈ pn_forms p /\ form_unresolved (ENUM w) f) ->
  aborts (add_pronouns c) w.
Proof.
  intros Hin Hmiss. unfold add_pronouns.
  apply aborts_ENUM_get. intros gender_group Hgg.
  apply aborts_ENUM_get. intros gender Hgender.
  apply aborts_ENUM_get. intros case Hcase.
  apply aborts_ENUM_get. intros number Hnumber.
  apply raises_everywhere_aborts; [only_KeyError_stage|]. raise_l.
  apply (raises_in_for _ _ _ p); [intros; apply preserves_True|done|].
  destruct Hmiss as [H|(f & Hf & H)].
  - raise_l. apply raises_in_subscript. by eapply missing_in_table.
  - raise_r. raise_r. raise_r. raise_r.
    apply (raises_in_for _ _ _ f); [intros; apply preserves_True|done|].
    apply add_form_raises. by eapply form_unresolved_tables.
Qed.

(** *** Gender groups: the second pass of [add_enums]

    The pass writes [ENUM['gender_group']] while it reads
    [ENUM['gender']]; the gender table stays as it was. *)

#[local] Instance same_gender_table_preorder : PreOrder same_gender_table.
Proof.
  split.
  - by intros w.
  - intros w1 w2 w3 H12 H23. unfold same_gender_table in *. by rewrite H23.
Qed.

Lemma respects_emit (e : event) : respects same_gender_table (emit e).
Proof. intros w r w' [= _ <-]. reflexivity. Qed.

Lemma respects_session_add (r : row) : respects same_gender_table (session_add r).
Proof. intros w r' w' [= _ <-]. reflexivity. Qed.

Lemma respects_last_id (table : string) : respects same_gender_table (last_id table).
Proof. intros w r' w' [= _ <-]. reflexivity. Qed.

Lemma respects_ENUM_get (key : string) : respects same_gender_table (ENUM_get key).
Proof. intros w r' w' [= _ <-]. reflexivity. Qed.

Lemma respects_ENUM_set (key : string) (d : gmap string nat) :
  key <> "gender" -> respects same_gender_table (ENUM_set key d).
Proof.
  intros Hkey w r' w' [= _ <-]. unfold same_gender_table. simpl.
  by rewrite lookup_insert_ne.
Qed.

Lemma respects_ENUM_setitem (key k : string) (v : nat) :
  key <> "gender" -> respects same_gender_table (ENUM_setitem key k v).
Proof.
  intros Hkey. unfold ENUM_setitem.
  apply respects_bind; [typeclasses eauto|apply respects_ENUM_get|].
  intros d. by apply respects_ENUM_set.
Qed.

Lemma respects_gender_member (x : string) :
  respects same_gender_table (gender_member x).
Proof.
  unfold gender_member.
  apply respects_bind; [typeclasses eauto|apply respects_ENUM_get|].
  intros d. apply respects_lift. typeclasses eauto.
Qed.

Lemma respects_add_gender_group (item : enum_item) :
  respects same_gender_table (add_gender_group item).
Proof.
  unfold add_gender_group.
  apply respects_bind; [typeclasses eauto|apply respects_session_add|]. intros _.
  apply respects_bind; [typeclasses eauto|apply respects_emit|]. intros _.
  apply respects_bind; [typeclasses eauto| |].
  { apply respects_list_comp; [typeclasses eauto|]. apply respects_gender_member. }
  intros members.
  apply respects_bind; [typeclasses eauto|apply respects_last_id|]. intros id.
  apply respects_bind; [typeclasses eauto|apply respects_session_add|]. intros _.
  by apply respects_ENUM_setitem.
Qed.

Lemma respects_second_pass_body (enum : enum_doc) :
  respects same_gender_table
    (if bool_decide (enum_name enum ≠ class_name GenderGroup) then mret tt
     else
       ENUM_set (tablename GenderGroup) ∅ ;;
       for_ (enum_items enum) add_gender_group ;;
       tick [class_name GenderGroup]).
Proof.
  case_bool_decide.
  - apply respects_ret. typeclasses eauto.
  - apply respects_bind; [typeclasses eauto|by apply respects_ENUM_set|]. intros _.
    apply respects_bind; [typeclasses eauto| |].
    { apply respects_for; [typeclasses eauto|].
      intros item _. apply respects_add_gender_group. }
    intros _. apply respects_emit.
Qed.

Lemma preserves_missing_gender {A} (x : string) (m : M A) :
  respects same_gender_table m ->
  preserves (fun w => missing (ENUM w) "gender" x) m.
Proof.
  intros Hm w r w' Hmiss Hrun. unfold missing in *.
  by rewrite (Hm w r w' Hrun).
Qed.

Lemma gender_member_raises (x : string) :
  raises_in (fun w => missing (ENUM w) "gender" x) (gender_member x).
Proof.
  intros w Hmiss. unfold gender_member, mbind, M_bind, ENUM_get, lift, subscript.
  unfold missing in Hmiss.
  destruct (ENUM w !! "gender") as [d|]; [|by eexists _, _].
  simpl in Hmiss. rewrite Hmiss. by eexists _, _.
Qed.

Lemma add_enums_second_pass_aborts (c : ctx) (w : world) (enum : enum_doc)
    (item : enum_item) (x : string) :
  enum ∈ ENUMS c -> enum_name enum = "GenderGroup" ->
  item ∈ enum_items enum -> x ∈ item_members item ->
  missing (ENUM w) "gender" x ->
  aborts (add_enums_second_pass c) w.
Proof.
  intros Hin Hname Hitem Hx Hmiss. unfold add_enums_second_pass.
  apply (raises_in_aborts (fun w => missing (ENUM w) "gender" x));
    [only_KeyError_stage| |done].
  raise_l.
  apply (raises_in_for _ _ _ enum); [|done|].
  { intros y. apply preserves_missing_gender, respects_second_pass_body. }
  rewrite bool_decide_eq_false_2 by (rewrite Hname; intros H; by apply H).
  apply raises_in_bind_r.
  { by apply preserves_missing_gender, respects_ENUM_set. }
  intros _. raise_l.
  apply (raises_in_for _ _ _ item); [|done|].
  { intros y. apply preserves_missing_gender, respects_add_gender_group. }
  unfold add_gender_group.
  apply raises_in_bind_r.
  { apply preserves_missing_gender, respects_session_add. }
  intros _. apply raises_in_bind_r.
  { apply preserves_missing_gender, respects_emit. }
  intros _. raise_l.
  apply (raises_in_list_comp _ _ _ x); [|done|].
  { intros y. apply preserves_missing_gender, respects_gender_member. }
  apply gender_member_raises.
Qed.

(** *** Nominal endings: [case] and [number] go through [dict.get] *)

Lemma add_nominal_endings_spec (c : ctx) (w : world)
    (gender case number : gmap string nat) :
  nominal_tables w gender case number ->
  genders_resolve gender (NOMINAL_ENDINGS c) ->
  exists w',
    add_nominal_endings c w = (Ok tt, w') /\
    database w' = (database w ++ pending w) ++
      nominal_ending_rows gender case number (NOMINAL_ENDINGS c) /\
    pending w' = [].
Proof.
  intros (Hg & Hc & Hn) Hall. unfold add_nominal_endings.
  rewrite (ENUM_get_Ok _ _ _ _ Hg), (ENUM_get_Ok _ _ _ _ Hc), (ENUM_get_Ok _ _ _ _ Hn).
  destruct (for_ok
              (fun group => Forall (fun row => is_Some (gender !! ne_gender row))
                              (neg_endings group))
              (fun done w' =>
                 database w' ++ pending w'
                 = (database w ++ pending w) ++
                   nominal_ending_rows gender case number done)
              (fun group =>
                 let stem_type := neg_stem group in
                 for_ (neg_endings group) (fun row =>
                   gender_id ← lift (subscript gender (ne_gender row));
                   let case_id := dict_get case (ne_case row) in
                   let number_id := dict_get number (ne_number row) in
                   let compounded := default false (ne_compounded row) in
                   session_add (NominalEnding (ne_name row) stem_type gender_id
                                  case_id number_id compounded) ;;
                   session_flush) ;;
                 tick [stem_type]))
    with (xs := NOMINAL_ENDINGS c) (done := @nil nominal_ending_group) (w := w)
    as (w1 & Hloop & Hinv).
  - intros done group w1 Hgroup Hinv. cbv zeta.
    destruct (for_ok
                (fun row => is_Some (gender !! ne_gender row))
                (fun rows w' =>
                   database w' ++ pending w'
                   = (database w1 ++ pending w1) ++
                     omap (nominal_ending_record gender case number (neg_stem group))
                          rows)
                (fun row =>
                   gender_id ← lift (subscript gender (ne_gender row));
                   let case_id := dict_get case (ne_case row) in
                   let number_id := dict_get number (ne_number row) in
                   let compounded := default false (ne_compounded row) in
                   session_add (NominalEnding (ne_name row) (neg_stem group) gender_id
                                  case_id number_id compounded) ;;
                   session_flush))
      with (xs := neg_endings group) (done := @nil nominal_ending_row) (w := w1)
      as (w2 & Hrows & Hinv2).
    + intros rows row w2 [gender_id Hrow] Hinv2.
      unfold mbind at 1, M_bind at 1, lift, subscript. rewrite Hrow. cbv zeta.
      eexists. split; [reflexivity|]. cbn [database pending].
      rewrite (omap_snoc_Some _ _ _
                 (NominalEnding (ne_name row) (neg_stem group) gender_id
                    (dict_get case (ne_case row)) (dict_get number (ne_number row))
                    (default false (ne_compounded row)))).
      * by rewrite !app_assoc, Hinv2.
      * unfold nominal_ending_record. rewrite Hrow. reflexivity.
    + exact Hgroup.
    + simpl. by rewrite app_nil_r.
    + rewrite (bind_Ok _ _ _ _ _ Hrows).
      eexists. split; [reflexivity|]. cbn [database pending].
      unfold nominal_ending_rows. rewrite fmap_app, concat_app. simpl.
      simpl in Hinv2. rewrite Hinv2, Hinv, app_nil_r, app_assoc. done.
  - exact Hall.
  - unfold nominal_ending_rows. simpl. by rewrite app_nil_r.
  - rewrite (bind_Ok _ _ _ _ _ Hloop).
    eexists. split; [reflexivity|]. cbn [database pending].
    simpl in Hinv. by rewrite Hinv.
Qed.

End enum_references.

(** * Enum references: what a miss does, stage by stage *)

Section enum_reference_claims.
Import setup.

(** C2 (counterexample): with an empty [case] table, the nominal ending
    [H] of the sample file, whose case is ["1"], is inserted all the same,
    its [case_id] left empty: the stage ends normally. *)
Lemma nominal_ending_case_miss_is_not_fatal :
  let w := {| ENUM := <["case" := ∅]> sample_ENUM; pending := []; database := [];
              tables := ∅; trace := [] |} in
  let r := add_nominal_endings sample_ctx w in
  missing (ENUM w) "case" "1" /\
  r.1 = Ok tt /\
  database r.2 = [NominalEnding "H" "a" 1 None (Some 1) false].
Proof. repeat split; by vm_compute. Qed.

(** C2 (amended): a record that names an enum value absent from the enum
    tables ends its stage in a [KeyError], for every enum-valued field
    the stages subscript: the members of a gender group, the type of a
    sandhi rule set that has rules, the mode and voice of a verb-ending
    group and the person and number of its endings, the class and voice
    of a root paradigm, the class (when given), person, number, mode and
    voice of a verb and the mode and voice of a participle stem whose root
    resolves, the gender of a nominal ending, the gender group of a noun
    stem, of an irregular noun and of a pronoun, and the gender, case and
    number of the forms of irregular nouns, irregular adjectives and
    pronouns.  The case and the number of a nominal ending are read with
    [dict.get] instead: when the genders resolve the stage runs to its
    end, and an ending whose case or number is absent from the tables is
    inserted with that field empty. *)
Theorem enum_miss_aborts_stage (c : ctx) (w : world) :
  (forall enum item x,
     enum ∈ ENUMS c -> enum_name enum = "GenderGroup" ->
     item ∈ enum_items enum -> x ∈ item_members item ->
     missing (ENUM w) "gender" x ->
     aborts (add_enums_second_pass c) w) /\
  (forall rs,
     rs ∈ SANDHI c -> ruleset_rules rs <> [] ->
     missing (ENUM w) "sandhi_type" (ruleset_type rs) ->
     aborts (add_sandhi c) w) /\
  (forall group,
     group ∈ VERB_ENDINGS c ->
     missing (ENUM w) "mode" (veg_mode group) \/
     missing (ENUM w) "voice" (veg_voice group) \/
     (exists row, row ∈ veg_endings group /\
        (missing (ENUM w) "person" (ve_person row) \/
         missing (ENUM w) "number" (ve_number row))) ->
     aborts (add_verb_endings c) w) /\
  (forall item paradigm,
     item ∈ ROOTS c -> paradigm ∈ ri_paradigms item ->
     missing (ENUM w) "vclass" paradigm.1 \/ missing (ENUM w) "voice" paradigm.2 ->
     aborts (add_roots c) w) /\
  (forall root_map row,
     row ∈ VERBS c -> is_Some (root_map !! verb_key row) ->
     verb_unresolved (ENUM w) row ->
     aborts (add_verbs c root_map) w) /\
  (forall root_map row,
     row ∈ PARTICIPLE_STEMS c -> is_Some (root_map !! participle_key row) ->
     missing (ENUM w) "mode" (p_mode row) \/ missing (ENUM w) "voice" (p_voice row) ->
     aborts (add_participle_stems c root_map) w) /\
  (forall group row,
     group ∈ NOMINAL_ENDINGS c -> row ∈ neg_endings group ->
     missing (ENUM w) "gender" (ne_gender row) ->
     aborts (add_nominal_endings c) w) /\
  (forall noun,
     noun ∈ NOUN_STEMS c ->
     missing (ENUM w) "gender_group" (ns_genders noun) ->
     aborts (add_noun_stems c) w) /\
  (forall noun,
     noun ∈ IRREGULAR_NOUNS c ->
     missing (ENUM w) "gender_group" (in_genders noun) \/
     (exists f, f ∈ in_forms noun /\ form_unresolved (ENUM w) f) ->
     aborts (add_irregular_nouns c) w) /\
  (forall adj f,
     adj ∈ IRREGULAR_ADJECTIVES c -> f ∈ ia_forms adj ->
     form_unresolved (ENUM w) f ->
     aborts (add_irregular_adjectives c) w) /\
  (forall p,
     p ∈ PRONOUNS c ->
     missing (ENUM w) "gender_group" (pn_genders p) \/
     (exists f, f ∈ pn_forms p /\ form_unresolved (ENUM w) f) ->
     aborts (add_pronouns c) w) /\
  (forall gender case number,
     nominal_tables w gender case number ->
     genders_resolve gender (NOMINAL_ENDINGS c) ->
     exists w',
       add_nominal_endings c w = (Ok tt, w') /\
       database w' = (database w ++ pending w) ++
         nominal_ending_rows gender case number (NOMINAL_ENDINGS c)).
Proof.
  repeat apply conj.
  - intros. by eapply add_enums_second_pass_aborts.
  - intros. by eapply add_sandhi_aborts.
  - intros. by eapply add_verb_endings_aborts.
  - intros. by eapply add_roots_aborts.
  - intros. by eapply add_verbs_aborts.
  - intros. by eapply add_participle_stems_aborts.
  - intros. by eapply add_nominal_endings_aborts.
  - intros. by eapply add_noun_stems_aborts.
  - intros. by eapply add_irregular_nouns_aborts.
  - intros. by eapply add_irregular_adjectives_aborts.
  - intros. by eapply add_pronouns_aborts.
  - intros gender case number Ht Hall.
    destruct (add_nominal_endings_spec c w gender case number Ht Hall)
      as (w' & Hrun & Hdb & _).
    by exists w'.
Qed.

Lemma enum_miss_aborts_stage_witness :
  aborts (add_noun_stems sample_ctx)
    {| ENUM := <["gender_group" := {[ "m" := 1 ]}]> sample_ENUM; pending := [];
       database := []; tables := ∅; trace := [] |}.
Proof.
  set (w := {| ENUM := <["gender_group" := {[ "m" := 1 ]}]> sample_ENUM;
               pending := []; database := []; tables := ∅; trace := [] |}).
  destruct (enum_miss_aborts_stage sample_ctx w)
    as (_ & _ & _ & _ & _ & _ & _ & Hnoun & _).
  apply (Hnoun {| ns_name := "phala"; ns_genders := "n" |}).
  - unfold sample_ctx. cbn [NOUN_STEMS].
    repeat first [apply list_elem_of_here | apply list_elem_of_further].
  - by vm_compute.
Defined.

End enum_reference_claims.

(** * Properties of the orchestration *)

Section orchestration.
Import setup.

#[local] Instance quiet_preorder : PreOrder quiet.
Proof.
  split.
  - intros w. exists []. by rewrite app_nil_r.
  - intros w1 w2 w3 (t1 & H1 & F1) (t2 & H2 & F2). exists (t1 ++ t2).
    split; [by rewrite H2, H1, app_assoc|]. by apply Forall_app.
Qed.

Lemma quiet_emit (e : event) : stage_event e -> respects quiet (emit e).
Proof.
  intros He w r w' [= _ <-]. exists [e]. split; [done|]. by apply Forall_singleton.
Qed.

Lemma quiet_session_add (r : row) : respects quiet (session_add r).
Proof.
  intros w r' w' [= _ <-]. exists [SessionAdd r]. split; [done|].
  by apply Forall_singleton.
Qed.

Lemma quiet_session_commit : respects quiet session_commit.
Proof.
  intros w r' w' [= _ <-]. exists [SessionCommit]. split; [done|].
  by apply Forall_singleton.
Qed.

Lemma quiet_conn_execute (rows : list row) : respects quiet (conn_execute rows).
Proof.
  intros w r' w' [= _ <-]. exists [Execute rows]. split; [done|].
  by apply Forall_singleton.
Qed.

Lemma quiet_ENUM_get (key : string) : respects quiet (ENUM_get key).
Proof. intros w r' w' [= _ <-]. reflexivity. Qed.

Lemma quiet_ENUM_set (key : string) (d : gmap string nat) :
  respects quiet (ENUM_set key d).
Proof. intros w r' w' [= _ <-]. exists []. by rewrite app_nil_r. Qed.

Lemma quiet_last_id (table : string) : respects quiet (last_id table).
Proof. intros w r' w' [= _ <-]. reflexivity. Qed.

(** Takes a stage apart, down to the operations above. *)
Ltac quiet_step :=
  first
    [ apply quiet_session_add | apply quiet_session_commit
    | apply quiet_conn_execute | apply quiet_ENUM_get | apply quiet_ENUM_set
    | apply quiet_last_id
    | apply quiet_emit; exact I
    | apply respects_ret; typeclasses eauto
    | apply respects_lift; typeclasses eauto
    | apply respects_bind; [typeclasses eauto| |intros ?]
    | apply respects_for; [typeclasses eauto|intros ? _]
    | apply respects_for_fold; [typeclasses eauto|intros ? ? _]
    | apply respects_list_comp; [typeclasses eauto|intros ?]
    | match goal with
      | |- respects _ (match ?x with _ => _ end) => destruct x
      | |- respects _ ((match ?x with _ => _ end) _) => destruct x
      end
    | progress (cbv beta) ].

Ltac quiet_stage :=
  unfold session_flush, session_close, tick, ENUM_setitem, gender_member,
    add_form, add_enum_item, add_gender_group, add_verb, add_participle_stem,
    add_verbal_indeclinable, add_noun_stem, add_adjective_stem;
  repeat quiet_step.

Lemma quiet_add_tags (c : ctx) : respects quiet (add_tags c).
Proof. unfold add_tags. quiet_stage. Qed.

Lemma quiet_add_enums (c : ctx) : respects quiet (add_enums c).
Proof.
  unfold add_enums, add_enums_first_pass, add_enums_second_pass. quiet_stage.
Qed.

Lemma quiet_add_sandhi (c : ctx) : respects quiet (add_sandhi c).
Proof. unfold add_sandhi. quiet_stage. Qed.

Lemma quiet_add_indeclinables (c : ctx) : respects quiet (add_indeclinables c).
Proof. unfold add_indeclinables. quiet_stage. Qed.

Lemma quiet_add_verb_prefixes (c : ctx) : respects quiet (add_verb_prefixes c).
Proof. unfold add_verb_prefixes. quiet_stage. Qed.

Lemma quiet_add_verb_endings (c : ctx) : respects quiet (add_verb_endings c).
Proof. unfold add_verb_endings. quiet_stage. Qed.

Lemma quiet_add_roots (c : ctx) : respects quiet (add_roots c).
Proof. unfold add_roots. quiet_stage. Qed.

Lemma quiet_add_verbs (c : ctx) (root_map : root_map_t) :
  respects quiet (add_verbs c root_map).
Proof. unfold add_verbs. quiet_stage. Qed.

Lemma quiet_add_participle_stems (c : ctx) (root_map : root_map_t) :
  respects quiet (add_participle_stems c root_map).
Proof. unfold add_participle_stems. quiet_stage. Qed.

Lemma quiet_add_verbal_indeclinables (c : ctx) (root_map : root_map_t) :
  respects quiet (add_verbal_indeclinables c root_map).
Proof. unfold add_verbal_indeclinables. quiet_stage. Qed.

Lemma quiet_add_nominal_endings (c : ctx) : respects quiet (add_nominal_endings c).
Proof. unfold add_nominal_endings. quiet_stage. Qed.

Lemma quiet_add_noun_stems (c : ctx) : respects quiet (add_noun_stems c).
Proof. unfold add_noun_stems. quiet_stage. Qed.

Lemma quiet_add_irregular_nouns (c : ctx) : respects quiet (add_irregular_nouns c).
Proof. unfold add_irregular_nouns. quiet_stage. Qed.

Lemma quiet_add_adjective_stems (c : ctx) : respects quiet (add_adjective_stems c).
Proof. unfold add_adjective_stems. quiet_stage. Qed.

Lemma quiet_add_irregular_adjectives (c : ctx) :
  respects quiet (add_irregular_adjectives c).
Proof. unfold add_irregular_adjectives. quiet_stage. Qed.

Lemma quiet_add_pronouns (c : ctx) : respects quiet (add_pronouns c).
Proof. unfold add_pronouns. quiet_stage. Qed.

(** *** Headings *)

Lemma headings_app (t1 t2 : list event) :
  headings (t1 ++ t2) = headings t1 ++ headings t2.
Proof. apply omap_app. Qed.

Lemma stage_events_no_headings (t : list event) :
  Forall stage_event t -> headings t = [] /\ Forall (fun e => ~ schema_event e) t.
Proof.
  induction 1 as [|e t He _ [IH1 IH2]]; [done|]. split.
  - destruct e; try done.
  - apply Forall_cons. split; [|done]. destruct e; cbn in He |- *; tauto.
Qed.

Lemma announces_quiet {A} (m : M A) : respects quiet m -> announces [] m.
Proof.
  intros Hm w r w' Hrun. destruct (Hm w r w' Hrun) as (t & Ht & Hstage).
  destruct (stage_events_no_headings t Hstage) as [Hh Hs].
  exists t. rewrite Hh. done.
Qed.

Lemma announces_heading (s : string) (char : ascii) :
  announces [(s, char)] (heading s char).
Proof.
  intros w r w' [= <- <-]. exists [Heading s char]. split; [done|].
  split; [apply Forall_singleton; by intros []|]. done.
Qed.

Lemma announces_bind {A B} (hs1 hs2 : list (string * ascii)) (m : M A)
    (f : A -> M B) :
  announces hs1 m -> (forall a, announces hs2 (f a)) ->
  announces (hs1 ++ hs2) (m ≫= f).
Proof.
  intros Hm Hf w r w'. unfold mbind, M_bind.
  destruct (m w) as [[a|e] w1] eqn:E; intros Hrun.
  - destruct (Hm w _ _ E) as (t1 & Ht1 & Hs1 & _ & Hall1).
    destruct (Hf a w1 r w' Hrun) as (t2 & Ht2 & Hs2 & Hpre2 & Hall2).
    exists (t1 ++ t2). rewrite Ht2, Ht1, app_assoc, headings_app, (Hall1 eq_refl).
    split; [done|]. split; [by apply Forall_app|]. split.
    + by apply prefix_app.
    + intros Hok. by rewrite (Hall2 Hok).
  - injection Hrun as <- <-.
    destruct (Hm w _ _ E) as (t1 & Ht1 & Hs1 & Hpre1 & _).
    exists t1. split; [done|]. split; [done|]. split; [|done].
    by apply prefix_app_r.
Qed.

(** A heading, then a quiet stage, then the rest. *)
Lemma announces_stage {A B} (s : string) (char : ascii)
    (hs : list (string * ascii)) (m : M A) (k : A -> M B) :
  respects quiet m -> (forall a, announces hs (k a)) ->
  announces ((s, char) :: hs) (heading s char ;; (m ≫= k)).
Proof.
  intros Hm Hk.
  apply (announces_bind [(s, char)] hs); [apply announces_heading|]. intros _.
  apply (announces_bind [] hs); [by apply announces_quiet|done].
Qed.

Lemma announces_last_stage {A} (s : string) (char : ascii) (m : M A) :
  respects quiet m -> announces [(s, char)] (heading s char ;; m).
Proof.
  intros Hm.
  apply (announces_bind [(s, char)] []); [apply announces_heading|]. intros _.
  by apply announces_quiet.
Qed.

Lemma announces_add_verbal (c : ctx) :
  announces [ ("Verb prefixes", "-"%char); ("Verb endings", "-"%char);
              ("Roots and paradigms", "-"%char); ("Verbs", "-"%char);
              ("Participle stems", "-"%char); ("Verbal indeclinables", "-"%char) ]
    (add_verbal c).
Proof.
  unfold add_verbal.
  apply announces_stage; [apply quiet_add_verb_prefixes|]. intros prefixes.
  apply announces_stage; [apply quiet_add_verb_endings|]. intros _.
  apply announces_stage; [apply quiet_add_roots|]. intros roots.
  apply announces_stage; [apply quiet_add_verbs|]. intros _.
  apply announces_stage; [apply quiet_add_participle_stems|]. intros _.
  apply announces_last_stage. apply quiet_add_verbal_indeclinables.
Qed.

Lemma announces_add_nominals (c : ctx) :
  announces [ ("Nominal endings", "-"%char); ("Noun stems", "-"%char);
              ("Irregular nouns", "-"%char); ("Adjective stems", "-"%char);
              ("Irregular adjectives", "-"%char); ("Pronouns", "-"%char) ]
    (add_nominals c).
Proof.
  unfold add_nominals.
  apply announces_stage; [apply quiet_add_nominal_endings|]. intros _.
  apply announces_stage; [apply quiet_add_noun_stems|]. intros _.
  apply announces_stage; [apply quiet_add_irregular_nouns|]. intros _.
  apply announces_stage; [apply quiet_add_adjective_stems|]. intros _.
  apply announces_stage; [apply quiet_add_irregular_adjectives|]. intros _.
  apply announces_last_stage. apply quiet_add_pronouns.
Qed.

(** The loop of [run] over [functions]. *)
Lemma announces_functions (c : ctx) :
  announces pipeline_headings
    (for_ functions (fun '(name, f) => heading name "~" ;; f c)).
Proof.
  unfold functions. cbn [for_].
  apply (announces_bind [("Tags", "~"%char)] (tail pipeline_headings)).
  { apply announces_last_stage, quiet_add_tags. }
  intros _.
  apply (announces_bind [("Enumerated data", "~"%char)]
           (tail (tail pipeline_headings))).
  { apply announces_last_stage, quiet_add_enums. }
  intros _.
  apply (announces_bind [("Sandhi", "~"%char)]
           (tail (tail (tail pipeline_headings)))).
  { apply announces_last_stage, quiet_add_sandhi. }
  intros _.
  apply (announces_bind [("Indeclinables", "~"%char)]
           (tail (tail (tail (tail pipeline_headings))))).
  { apply announces_last_stage, quiet_add_indeclinables. }
  intros _.
  apply (announces_bind
           [ ("Verbal data", "~"%char);
             ("Verb prefixes", "-"%char); ("Verb endings", "-"%char);
             ("Roots and paradigms", "-"%char); ("Verbs", "-"%char);
             ("Participle stems", "-"%char); ("Verbal indeclinables", "-"%char) ]
           [ ("Nominal data", "~"%char);
             ("Nominal endings", "-"%char); ("Noun stems", "-"%char);
             ("Irregular nouns", "-"%char); ("Adjective stems", "-"%char);
             ("Irregular adjectives", "-"%char); ("Pronouns", "-"%char) ]).
  { apply (announces_bind [("Verbal data", "~"%char)]);
      [apply announces_heading|]. intros _. apply announces_add_verbal. }
  intros _.
  apply (announces_bind
           [ ("Nominal data", "~"%char);
             ("Nominal endings", "-"%char); ("Noun stems", "-"%char);
             ("Irregular nouns", "-"%char); ("Adjective stems", "-"%char);
             ("Irregular adjectives", "-"%char); ("Pronouns", "-"%char) ] []).
  { apply (announces_bind [("Nominal data", "~"%char)]);
      [apply announces_heading|]. intros _. apply announces_add_nominals. }
  intros _. apply announces_quiet, respects_ret. typeclasses eauto.
Qed.

End orchestration.

(** * More properties of the configuration context and of the registry *)

Section context_more.
Import context.

Lemma filter_all {A} (P : A -> Prop) `{forall x, Decision (P x)} (l : list A) :
  Forall P l -> filter P l = l.
Proof.
  induction 1 as [|x l Hx _ IH]; [done|].
  by rewrite filter_cons_True, IH.
Qed.

(** X1: [create_all] prints the name of every table of the schema, in
    schema order, whatever tables the database already has.  Called on
    what [drop_all] leaves, as [setup.run] calls it, that report is
    exact: every table of the schema is then newly created, and the
    database ends with the tables it had and those of the schema. *)
Theorem create_all_report_is_exact_after_drop_all (ts : list Table) (ex : gset string) :
  (create_all ts ex).2 = table_name <$> ts /\
  (create_all ts (drop_all ts ex)).2 = newly_created ts (drop_all ts ex) /\
  (create_all ts (drop_all ts ex)).1 = ex ∪ list_to_set (table_name <$> ts).
Proof.
  split; [apply create_all_prints_every_table|]. split.
  - rewrite create_all_prints_every_table. unfold newly_created. f_equal.
    symmetry. apply filter_all, Forall_forall. intros t Ht.
    unfold drop_all. rewrite elem_of_difference, elem_of_list_to_set.
    intros [_ Hn]. apply Hn. by apply list_elem_of_fmap_2.
  - unfold create_all, metadata_create_all, drop_all. cbn [fst].
    apply difference_union_L.
Qed.

(** X2: when the settings supply [DATA_PATH] and [connect()], where it
    is called, gets its engine, [Context.__init__] makes a context whose
    [config] keeps the upper-case keys of the settings, each with its
    value, drops every key that is not upper-case, and adds nothing but
    the twenty path keys: a key of [config] is an upper-case key of the
    settings or a path key. *)
Theorem Context_init_keeps_upper_case_keys (create_engine : string -> result Engine)
    (cfg : settings) (connect_ : bool) (d : string) :
  cfg !! "DATA_PATH" = Some d ->
  engine_ok create_engine cfg connect_ ->
  exists c, Context_init create_engine cfg connect_ = Ok c /\
    (forall k v, str_isupper k = true -> cfg !! k = Some v ->
       config c !! k = Some v) /\
    (forall k, str_isupper k = false -> config c !! k = None) /\
    (forall k, cfg !! k = None ->
       config c !! k
       = default_path d <$> (list_to_map default_files : gmap string string) !! k).
Proof.
  intros Hd Hok.
  destruct (Context_init_made create_engine cfg connect_ d Hd Hok)
    as (c & Hc & Hk & _).
  exists c. split; [done|]. repeat split.
  - intros k v Hu Hv. by rewrite Hk, Hu, Hv.
  - intros k Hu. by rewrite Hk, Hu.
  - intros k Hnone. rewrite Hk, Hnone.
    destruct (str_isupper k) eqn:Hu; [done|].
    destruct ((list_to_map default_files : gmap string string) !! k) as [file|] eqn:Hf;
      [|done].
    apply elem_of_list_to_map_2 in Hf.
    destruct (proj1 (Forall_forall _ _) default_files_ok _ Hf) as (Hu' & _).
    cbn [fst] in Hu'. congruence.
Qed.

Lemma Context_init_keeps_upper_case_keys_witness :
  exists c,
    Context_init sample_create_engine
      (<["DATA_PATH" := "/data"]>
         (<["DATABASE_URI" := "sqlite://"]> (<["debug" := "1"]> {["SECRET" := "x"]})))
      true = Ok c /\
    config c !! "debug" = None /\ config c !! "SECRET" = Some "x".
Proof.
  destruct (Context_init_keeps_upper_case_keys sample_create_engine
              (<["DATA_PATH" := "/data"]>
                 (<["DATABASE_URI" := "sqlite://"]>
                    (<["debug" := "1"]> {["SECRET" := "x"]})))
              true "/data") as (c & Hc & Hkeep & Hdrop & _); [reflexivity| |].
  { intros u _ Hu. vm_compute in Hu. injection Hu as <-. reflexivity. }
  exists c. split; [exact Hc|]. split.
  - apply Hdrop. reflexivity.
  - apply Hkeep; reflexivity.
Defined.

(** X3: [Context.__init__] calls [create_engine] exactly when [connect]
    is true and the settings supply the upper-case key [DATABASE_URI],
    and with the URI supplied: the engine of the context is the one
    [create_engine] returned, and an exception of [create_engine] leaves
    [__init__], so that no context is made; in every other case the
    context is made without an engine, whatever [create_engine] would
    do. *)
Theorem Context_init_connects_with_supplied_uri
    (create_engine : string -> result Engine)
    (cfg : settings) (connect_ : bool) (d : string) :
  cfg !! "DATA_PATH" = Some d ->
  match (if connect_ then cfg !! "DATABASE_URI" else None) with
  | Some u =>
      match create_engine u with
      | Ok e =>
          exists c, Context_init create_engine cfg connect_ = Ok c /\ engine c = Some e
      | Raise err => Context_init create_engine cfg connect_ = Raise err
      end
  | None =>
      exists c, Context_init create_engine cfg connect_ = Ok c /\ engine c = None
  end.
Proof.
  intros Hd.
  destruct (Context_init_outcome create_engine cfg connect_ d Hd) as (conf & _ & Hrun).
  rewrite Hrun.
  destruct (if connect_ then cfg !! "DATABASE_URI" else None) as [u|];
    [destruct (create_engine u) as [e|err]|]; first [done | by eexists].
Qed.

Lemma Context_init_connects_with_supplied_uri_witness :
  Context_init sample_create_engine
    (<["DATA_PATH" := "/data"]> {["DATABASE_URI" := ""]}) true
  = Raise (ArgumentError "Could not parse rfc1738 URL").
Proof.
  exact (Context_init_connects_with_supplied_uri sample_create_engine
           (<["DATA_PATH" := "/data"]> {["DATABASE_URI" := ""]}) true "/data" eq_refl).
Defined.

(** *** The registry, key by key *)

Lemma filter_snoc_True {A} (P : A -> Prop) `{forall x, Decision (P x)}
    (l : list A) (x : A) :
  P x -> filter P (l ++ [x]) = filter P l ++ [x].
Proof. intros Hx. rewrite filter_app. f_equal. by rewrite filter_cons_True. Qed.

Lemma filter_snoc_False {A} (P : A -> Prop) `{forall x, Decision (P x)}
    (l : list A) (x : A) :
  ~ P x -> filter P (l ++ [x]) = filter P l.
Proof.
  intros Hx. rewrite filter_app, (filter_cons_False _ x []) by done.
  apply app_nil_r.
Qed.

Lemma table_enum_id_lookup (rows : list enum_item) (k : string) :
  table_enum_id rows !! k
  = item_id <$> last (filter (fun r => item_name r = k \/ item_abbr r = k) rows).
Proof.
  unfold table_enum_id.
  induction rows as [|r rows IH] using rev_ind; [done|].
  rewrite fold_left_app. cbn [fold_left]. unfold enum_id_store at 1.
  rewrite lookup_insert. case_decide as Ha.
  - rewrite filter_snoc_True by (by right). by rewrite last_snoc.
  - rewrite lookup_insert. case_decide as Hn.
    + rewrite filter_snoc_True by (by left). by rewrite last_snoc.
    + by rewrite filter_snoc_False by (intros [?|?]; done).
Qed.

Lemma table_enum_abbr_lookup_id (rows : list enum_item) (id : nat) :
  table_enum_abbr rows !! (inl id : abbr_key)
  = item_abbr <$> last (filter (fun r => item_id r = id) rows).
Proof.
  unfold table_enum_abbr.
  induction rows as [|r rows IH] using rev_ind; [done|].
  rewrite fold_left_app. cbn [fold_left]. unfold enum_abbr_store at 1.
  rewrite lookup_insert_ne by done.
  rewrite lookup_insert. case_decide as Hi.
  - rewrite filter_snoc_True by congruence. by rewrite last_snoc.
  - by rewrite filter_snoc_False by congruence.
Qed.

Lemma table_enum_abbr_lookup_name (rows : list enum_item) (name : string) :
  table_enum_abbr rows !! (inr name : abbr_key)
  = item_abbr <$> last (filter (fun r => item_name r = name) rows).
Proof.
  unfold table_enum_abbr.
  induction rows as [|r rows IH] using rev_ind; [done|].
  rewrite fold_left_app. cbn [fold_left]. unfold enum_abbr_store at 1.
  rewrite lookup_insert. case_decide as Hn.
  - rewrite filter_snoc_True by congruence. by rewrite last_snoc.
  - rewrite lookup_insert_ne by done.
    by rewrite filter_snoc_False by congruence.
Qed.

(** X4: in the registry that [_build_enums] builds for an enum table,
    [enum_id] sends a key to the id of the last row of the table that has
    the key as its name or as its abbreviation, [enum_abbr] sends an id to
    the abbreviation of the last row with that id and a name to the
    abbreviation of the last row with that name; a key that no row
    carries is absent. *)
Theorem build_enums_last_row_wins
    (cs1 cs2 : list (string * list enum_item)) (groups : list gender_group)
    (key : string) (rows : list enum_item) :
  key ∉ cs2.*1 ->
  exists enum_id enum_abbr,
    _enum_id (_build_enums (cs1 ++ (key, rows) :: cs2) groups) !! key = Some enum_id /\
    _enum_abbr (_build_enums (cs1 ++ (key, rows) :: cs2) groups) !! key
      = Some enum_abbr /\
    (forall k, enum_id !! k
       = item_id <$> last (filter (fun r => item_name r = k \/ item_abbr r = k) rows)) /\
    (forall id, enum_abbr !! (inl id : abbr_key)
       = item_abbr <$> last (filter (fun r => item_id r = id) rows)) /\
    (forall name, enum_abbr !! (inr name : abbr_key)
       = item_abbr <$> last (filter (fun r => item_name r = name) rows)).
Proof.
  intros Hkey. unfold _build_enums. cbn [_enum_id _enum_abbr].
  rewrite fold_left_app. cbn [fold_left].
  match goal with |- context [fold_left ?f cs2 ?acc] =>
    destruct (build_enums_tables cs2 acc key
                (table_enum_id rows) (table_enum_abbr rows)) as [H1 H2]
  end; [cbn [fst snd]; by rewrite lookup_insert_eq..|done|].
  eexists _, _. split; [exact H1|]. split; [exact H2|].
  split; [apply table_enum_id_lookup|].
  split; [apply table_enum_abbr_lookup_id|apply table_enum_abbr_lookup_name].
Qed.

Lemma build_enums_last_row_wins_witness :
  let r1 := {| item_id := 1; item_name := "a"; item_abbr := "b" |} in
  let r2 := {| item_id := 2; item_name := "b"; item_abbr := "c" |} in
  exists enum_id,
    _enum_id (_build_enums [("person", [r1; r2])] []) !! "person" = Some enum_id /\
    enum_id !! "b" = Some 2 /\ enum_id !! "z" = None.
Proof.
  intros r1 r2.
  destruct (build_enums_last_row_wins [] [] [] "person" [r1; r2])
    as (enum_id & enum_abbr & H1 & _ & Hid & _); [apply not_elem_of_nil|].
  exists enum_id. split; [exact H1|]. rewrite !Hid. split; reflexivity.
Defined.

(** X5: [_gender_set] sends the id of a gender group to the set of the
    ids of the members of the last group with that id; an id of no group
    is absent. *)
Theorem build_enums_gender_set (classes : list (string * list enum_item))
    (groups : list gender_group) (g : nat) :
  _gender_set (_build_enums classes groups) !! g
  = (fun group => list_to_set (group_members group))
      <$> last (filter (fun group => group_id group = g) groups).
Proof.
  unfold _build_enums. cbn [_gender_set].
  induction groups as [|group groups IH] using rev_ind; [done|].
  rewrite fold_left_app. cbn [fold_left].
  rewrite lookup_insert. case_decide as Hg.
  - rewrite filter_snoc_True by done. by rewrite last_snoc.
  - by rewrite filter_snoc_False by done.
Qed.

End context_more.

(** * More properties of the pipeline stages *)

(** Takes a computation apart, down to the operations [prims] covers. *)
Ltac frame_step prims :=
  first
    [ prims
    | apply respects_ret; typeclasses eauto
    | apply respects_lift; typeclasses eauto
    | apply respects_bind; [typeclasses eauto| |intros ?]
    | apply respects_for; [typeclasses eauto|intros ? _]
    | apply respects_for_fold; [typeclasses eauto|intros ? ? _]
    | apply respects_list_comp; [typeclasses eauto|intros ?]
    | match goal with
      | |- respects _ (match ?x with _ => _ end) => destruct x
      | |- respects _ ((match ?x with _ => _ end) _) => destruct x
      end
    | progress (cbv beta) ].

Section stage_frames.
Import setup.

(** *** The prefixed-root lookup *)

Lemma last_omap_Some {A B} (f : A -> option B) (l : list A) (y : B) :
  last (omap f l) = Some y -> exists x, x ∈ l /\ f x = Some y.
Proof.
  intros H. apply last_Some_elem_of in H.
  apply list_elem_of_omap in H as (x & Hx & Hfx). by exists x.
Qed.

Lemma omap_nil_Forall {A B} (f : A -> option B) (l : list A) :
  omap f l = [] <-> Forall (fun x => f x = None) l.
Proof.
  induction l as [|x l IH]; [done|]. simpl. split.
  - destruct (f x) eqn:E; [done|]. intros H. constructor; [done|]. by apply IH.
  - intros H. apply Forall_cons in H as [Hx Hl]. rewrite Hx. by apply IH.
Qed.

(** X6: the basis id that the prefixed-root stage selects is always the
    id the root map holds for the basis under the record's own homonym
    index or under one of the scanned indices; and the stage selects
    none, skipping the record, exactly when the basis is in the root map
    neither under the record's index nor under any scanned index. *)
Theorem basis_lookup_sound_and_complete (root_map : root_map_t) (basis : string)
    (hom : option string) :
  (forall id, basis_lookup root_map basis hom = Some id ->
     exists h, (h = hom \/ h ∈ homs) /\ root_map !! (basis, h) = Some id) /\
  (basis_lookup root_map basis hom = None <->
     root_map !! (basis, hom) = None /\
     Forall (fun h => root_map !! (basis, h) = None) homs).
Proof.
  unfold basis_lookup.
  destruct (root_map !! (basis, hom)) as [id0|] eqn:Hexact.
  - split.
    + intros id [= <-]. exists hom. split; [by left|done].
    + split; [done|]. by intros [? _].
  - rewrite scan_homs_last_match. unfold last_match. split.
    + intros id Hid. apply last_omap_Some in Hid as (h & Hh & Hid).
      exists h. split; [by right|done].
    + rewrite last_None, omap_nil_Forall. split; [by intros ?|by intros [_ ?]].
Qed.

Lemma basis_lookup_sound_and_complete_witness :
  let root_map : root_map_t := {[ ("gam", Some "12") := 4 ]} in
  basis_lookup root_map "gam" None = None.
Proof.
  intros root_map.
  apply (proj2 (basis_lookup_sound_and_complete root_map "gam" None)).
  split; [by vm_compute|].
  unfold homs. cbn [seq fmap list_fmap].
  repeat (apply Forall_cons; split; [by vm_compute|]). apply Forall_nil_2.
Defined.

(** *** What the stages leave alone *)

#[local] Instance same_ENUM_preorder : PreOrder same_ENUM.
Proof.
  split; [by intros w|].
  intros w1 w2 w3 H12 H23. unfold same_ENUM in *. by rewrite H23.
Qed.

#[local] Instance same_database_preorder : PreOrder same_database.
Proof.
  split; [by intros w|].
  intros w1 w2 w3 H12 H23. unfold same_database in *. by rewrite H23.
Qed.

Lemma same_ENUM_emit (e : event) : respects same_ENUM (emit e).
Proof. by intros w r w' [= _ <-]. Qed.

Lemma same_ENUM_session_add (r : row) : respects same_ENUM (session_add r).
Proof. by intros w r' w' [= _ <-]. Qed.

Lemma same_ENUM_session_commit : respects same_ENUM session_commit.
Proof. by intros w r' w' [= _ <-]. Qed.

Lemma same_ENUM_conn_execute (rows : list row) : respects same_ENUM (conn_execute rows).
Proof. by intros w r' w' [= _ <-]. Qed.

Lemma same_ENUM_ENUM_get (key : string) : respects same_ENUM (ENUM_get key).
Proof. by intros w r' w' [= _ <-]. Qed.

Lemma same_ENUM_last_id (table : string) : respects same_ENUM (last_id table).
Proof. by intros w r' w' [= _ <-]. Qed.

Lemma same_database_emit (e : event) : respects same_database (emit e).
Proof. by intros w r w' [= _ <-]. Qed.

Lemma same_database_session_add (r : row) : respects same_database (session_add r).
Proof. by intros w r' w' [= _ <-]. Qed.

Lemma same_database_ENUM_get (key : string) : respects same_database (ENUM_get key).
Proof. by intros w r' w' [= _ <-]. Qed.

Lemma same_database_last_id (table : string) : respects same_database (last_id table).
Proof. by intros w r' w' [= _ <-]. Qed.

Ltac unfold_stage :=
  unfold heading, session_flush, session_close, tick, add_form, add_verb,
    add_participle_stem, add_verbal_indeclinable, add_noun_stem, add_adjective_stem.

Ltac same_ENUM_stage :=
  unfold_stage;
  repeat frame_step
    ltac:(first [ apply same_ENUM_emit | apply same_ENUM_session_add
                | apply same_ENUM_session_commit | apply same_ENUM_conn_execute
                | apply same_ENUM_ENUM_get | apply same_ENUM_last_id ]).

Ltac same_database_stage :=
  unfold_stage;
  repeat frame_step
    ltac:(first [ apply same_database_emit | apply same_database_session_add
                | apply same_database_ENUM_get | apply same_database_last_id ]).

Lemma same_ENUM_add_tags (c : ctx) : respects same_ENUM (add_tags c).
Proof. unfold add_tags. same_ENUM_stage. Qed.

Lemma same_ENUM_add_sandhi (c : ctx) : respects same_ENUM (add_sandhi c).
Proof. unfold add_sandhi. same_ENUM_stage. Qed.

Lemma same_ENUM_add_indeclinables (c : ctx) : respects same_ENUM (add_indeclinables c).
Proof. unfold add_indeclinables. same_ENUM_stage. Qed.

Lemma same_ENUM_add_verbs (c : ctx) (root_map : root_map_t) :
  respects same_ENUM (add_verbs c root_map).
Proof. unfold add_verbs. same_ENUM_stage. Qed.

Lemma same_ENUM_add_participle_stems (c : ctx) (root_map : root_map_t) :
  respects same_ENUM (add_participle_stems c root_map).
Proof. unfold add_participle_stems. same_ENUM_stage. Qed.

Lemma same_ENUM_add_verbal_indeclinables (c : ctx) (root_map : root_map_t) :
  respects same_ENUM (add_verbal_indeclinables c root_map).
Proof. unfold add_verbal_indeclinables. same_ENUM_stage. Qed.

Lemma same_ENUM_add_verbal (c : ctx) : respects same_ENUM (add_verbal c).
Proof.
  unfold add_verbal.
  apply respects_bind; [typeclasses eauto|apply same_ENUM_emit|]. intros _.
  apply respects_bind; [typeclasses eauto| |].
  { unfold add_verb_prefixes. same_ENUM_stage. }
  intros prefixes.
  apply respects_bind; [typeclasses eauto|apply same_ENUM_emit|]. intros _.
  apply respects_bind; [typeclasses eauto| |].
  { unfold add_verb_endings. same_ENUM_stage. }
  intros _.
  apply respects_bind; [typeclasses eauto|apply same_ENUM_emit|]. intros _.
  apply respects_bind; [typeclasses eauto| |].
  { unfold add_roots. same_ENUM_stage. }
  intros roots.
  apply respects_bind; [typeclasses eauto|apply same_ENUM_emit|]. intros _.
  apply respects_bind; [typeclasses eauto|apply same_ENUM_add_verbs|]. intros _.
  apply respects_bind; [typeclasses eauto|apply same_ENUM_emit|]. intros _.
  apply respects_bind; [typeclasses eauto|apply same_ENUM_add_participle_stems|].
  intros _.
  apply respects_bind; [typeclasses eauto|apply same_ENUM_emit|]. intros _.
  apply same_ENUM_add_verbal_indeclinables.
Qed.

Lemma same_ENUM_add_nominals (c : ctx) : respects same_ENUM (add_nominals c).
Proof.
  unfold add_nominals, add_nominal_endings, add_noun_stems, add_irregular_nouns,
    add_adjective_stems, add_irregular_adjectives, add_pronouns.
  same_ENUM_stage.
Qed.

Lemma respects_snd {A} (R : relation world) (m : M A) (w : world) :
  respects R m -> R w (m w).2.
Proof. intros Hm. destruct (m w) as [r w'] eqn:E. by apply (Hm w r w'). Qed.

(** X7: of the six stages of [run], only the enumerated-data stage writes
    the module-global [ENUM]: the tags, sandhi, indeclinables, verbal and
    nominal stages leave it as they found it, however they end; so do
    the verbs, participle-stems and verbal-indeclinables stages for any
    root map. *)
Theorem only_add_enums_writes_ENUM (c : ctx) (root_map : root_map_t) (w : world) :
  ENUM (add_tags c w).2 = ENUM w /\
  ENUM (add_sandhi c w).2 = ENUM w /\
  ENUM (add_indeclinables c w).2 = ENUM w /\
  ENUM (add_verbal c w).2 = ENUM w /\
  ENUM (add_nominals c w).2 = ENUM w /\
  ENUM (add_verbs c root_map w).2 = ENUM w /\
  ENUM (add_participle_stems c root_map w).2 = ENUM w /\
  ENUM (add_verbal_indeclinables c root_map w).2 = ENUM w.
Proof.
  repeat apply conj; apply (respects_snd same_ENUM).
  - apply same_ENUM_add_tags.
  - apply same_ENUM_add_sandhi.
  - apply same_ENUM_add_indeclinables.
  - apply same_ENUM_add_verbal.
  - apply same_ENUM_add_nominals.
  - apply same_ENUM_add_verbs.
  - apply same_ENUM_add_participle_stems.
  - apply same_ENUM_add_verbal_indeclinables.
Qed.

(** *** Failure before the commit *)

Lemma commits_nothing_ENUM_get {B} (key : string) (f : gmap string nat -> M B) :
  (forall d, commits_nothing_on_failure (f d)) ->
  commits_nothing_on_failure (ENUM_get key ≫= f).
Proof.
  intros Hf w e w'. unfold mbind, M_bind, ENUM_get, subscript.
  destruct (ENUM w !! key) as [d|]; [apply Hf|]. by intros [= _ <-].
Qed.

Lemma commits_nothing_then {A B} (m : M A) (f : A -> M B) :
  respects same_database m -> (forall a, never_fails (f a)) ->
  commits_nothing_on_failure (m ≫= f).
Proof.
  intros Hm Hf w e w'. unfold mbind, M_bind.
  destruct (m w) as [[a|e1] w1] eqn:E.
  - destruct (Hf a w1) as (b & w2 & Hrun). rewrite Hrun. done.
  - intros [= _ <-]. by apply (Hm w _ _ E).
Qed.

Lemma never_fails_commit_close : never_fails (session_commit ;; session_close).
Proof. intros w. by eexists _, _. Qed.

(** X8: the stages that work through the session and commit once, at
    their end, commit nothing when they fail: if the sandhi, verb-endings,
    roots, nominal-endings, irregular-nouns, irregular-adjectives or
    pronouns stage ends in an exception, the database holds the rows it
    held before the stage. *)
Theorem session_stages_commit_nothing_on_failure (c : ctx) :
  commits_nothing_on_failure (add_sandhi c) /\
  commits_nothing_on_failure (add_verb_endings c) /\
  commits_nothing_on_failure (add_roots c) /\
  commits_nothing_on_failure (add_nominal_endings c) /\
  commits_nothing_on_failure (add_irregular_nouns c) /\
  commits_nothing_on_failure (add_irregular_adjectives c) /\
  commits_nothing_on_failure (add_pronouns c).
Proof.
  repeat apply conj.
  - unfold add_sandhi. apply commits_nothing_ENUM_get. intros stype.
    apply commits_nothing_then; [same_database_stage|].
    intros _. apply never_fails_commit_close.
  - unfold add_verb_endings. do 4 (apply commits_nothing_ENUM_get; intros ?).
    apply commits_nothing_then; [same_database_stage|].
    intros _. apply never_fails_commit_close.
  - unfold add_roots. do 2 (apply commits_nothing_ENUM_get; intros ?).
    apply commits_nothing_then; [same_database_stage|].
    intros [root_map i] w. by eexists _, _.
  - unfold add_nominal_endings. do 3 (apply commits_nothing_ENUM_get; intros ?).
    apply commits_nothing_then; [same_database_stage|].
    intros _. apply never_fails_commit_close.
  - unfold add_irregular_nouns. do 4 (apply commits_nothing_ENUM_get; intros ?).
    apply commits_nothing_then; [same_database_stage|].
    intros _. apply never_fails_commit_close.
  - unfold add_irregular_adjectives. do 3 (apply commits_nothing_ENUM_get; intros ?).
    apply commits_nothing_then; [same_database_stage|].
    intros _. apply never_fails_commit_close.
  - unfold add_pronouns. do 4 (apply commits_nothing_ENUM_get; intros ?).
    apply commits_nothing_then; [same_database_stage|].
    intros _. apply never_fails_commit_close.
Qed.

Lemma session_stages_commit_nothing_on_failure_witness :
  let w := {| ENUM := <["person" := ∅]> sample_ENUM; pending := [];
              database := [Tag 1 "noun"]; tables := ∅; trace := [] |} in
  (add_verb_endings sample_ctx w).1 = Raise (KeyError "3") /\
  database (add_verb_endings sample_ctx w).2 = [Tag 1 "noun"].
Proof.
  intros w. split; [by vm_compute|].
  destruct (session_stages_commit_nothing_on_failure sample_ctx)
    as (_ & Hendings & _).
  apply (Hendings w (KeyError "3") (add_verb_endings sample_ctx w).2).
  by vm_compute.
Defined.

(** *** The tables a stage needs *)

Lemma first_missing_cons (E : gmap string (gmap string nat)) (k : string)
    (ks : list string) :
  first_missing E (k :: ks)
  = match E !! k with None => Some k | Some _ => first_missing E ks end.
Proof.
  unfold first_missing. destruct (E !! k) as [d|] eqn:Hk.
  - by rewrite filter_cons_False by (rewrite Hk; done).
  - by rewrite filter_cons_True by done.
Qed.

(** Reads the next table of the head of a stage. *)
Ltac read_table H :=
  rewrite first_missing_cons in H;
  match type of H with
  | match ENUM ?w !! ?k with _ => _ end = _ =>
      let d := fresh "d" in
      let Hk := fresh "Hk" in
      destruct (ENUM w !! k) as [d|] eqn:Hk;
      [ rewrite (ENUM_get_Ok _ _ _ _ Hk)
      | injection H as <-; by rewrite (ENUM_get_Raise _ _ _ Hk) ]
  end.

(** X9: a stage that reads [ENUM] tables needs them all, whatever its
    file holds: with the file read and the database reached, when one of
    the tables is absent the stage ends in [KeyError] for the first
    absent table, in the order the stage subscripts them; it has then
    added no row and printed nothing, and that even when its file is
    empty. *)
Theorem stage_needs_its_tables (c : ctx) (root_map : root_map_t) (w : world)
    (t : string) :
  (first_missing (ENUM w) ["sandhi_type"] = Some t ->
     add_sandhi c w = (Raise (KeyError t), w)) /\
  (first_missing (ENUM w) ["person"; "number"; "mode"; "voice"] = Some t ->
     add_verb_endings c w = (Raise (KeyError t), w)) /\
  (first_missing (ENUM w) ["vclass"; "voice"] = Some t ->
     add_roots c w = (Raise (KeyError t), w)) /\
  (first_missing (ENUM w) ["vclass"; "person"; "number"; "mode"; "voice"] = Some t ->
     add_verbs c root_map w = (Raise (KeyError t), w)) /\
  (first_missing (ENUM w) ["mode"; "voice"] = Some t ->
     add_participle_stems c root_map w = (Raise (KeyError t), w)) /\
  (first_missing (ENUM w) ["gender"; "case"; "number"] = Some t ->
     add_nominal_endings c w = (Raise (KeyError t), w)) /\
  (first_missing (ENUM w) ["gender_group"] = Some t ->
     add_noun_stems c w = (Raise (KeyError t), w)) /\
  (first_missing (ENUM w) ["gender_group"; "gender"; "case"; "number"] = Some t ->
     add_irregular_nouns c w = (Raise (KeyError t), w)) /\
  (first_missing (ENUM w) ["gender"; "case"; "number"] = Some t ->
     add_irregular_adjectives c w = (Raise (KeyError t), w)) /\
  (first_missing (ENUM w) ["gender_group"; "gender"; "case"; "number"] = Some t ->
     add_pronouns c w = (Raise (KeyError t), w)).
Proof.
  repeat apply conj; intros H.
  - unfold add_sandhi. read_table H. discriminate H.
  - unfold add_verb_endings. do 4 (read_table H). discriminate H.
  - unfold add_roots. do 2 (read_table H). discriminate H.
  - unfold add_verbs. do 5 (read_table H). discriminate H.
  - unfold add_participle_stems. do 2 (read_table H). discriminate H.
  - unfold add_nominal_endings. do 3 (read_table H). discriminate H.
  - unfold add_noun_stems. read_table H. discriminate H.
  - unfold add_irregular_nouns. do 4 (read_table H). discriminate H.
  - unfold add_irregular_adjectives. do 3 (read_table H). discriminate H.
  - unfold add_pronouns. do 4 (read_table H). discriminate H.
Qed.

Lemma stage_needs_its_tables_witness :
  let w := {| ENUM := delete "mode" sample_ENUM; pending := []; database := [];
              tables := ∅; trace := [] |} in
  add_verbs sample_ctx sample_roots w = (Raise (KeyError "mode"), w).
Proof.
  intros w.
  destruct (stage_needs_its_tables sample_ctx sample_roots w "mode")
    as (_ & _ & _ & Hverbs & _).
  apply Hverbs. by vm_compute.
Defined.

End stage_frames.

(** * What the stages store *)

Section stage_results.
Import setup.

(** *** Roots *)

Lemma root_names_snoc_Root (rows : list row) (name : string) :
  root_names (rows ++ [Root name]) = root_names rows ++ [name].
Proof. unfold root_names. by rewrite omap_app. Qed.

Lemma root_names_snoc_Paradigm (rows : list row) (root_id vclass_id voice_id : nat) :
  root_names (rows ++ [Paradigm root_id vclass_id voice_id]) = root_names rows.
Proof. unfold root_names. rewrite omap_app. apply app_nil_r. Qed.

(** The paradigms of one root. *)
Lemma add_roots_paradigms (vclass voice : gmap string nat) (root_id : nat)
    (paradigms : list (string * string)) (w : world) :
  Forall (fun p : string * string =>
            is_Some (vclass !! p.1) /\ is_Some (voice !! p.2)) paradigms ->
  exists w',
    for_ paradigms (fun row =>
      vclass_id ← lift (subscript vclass row.1);
      voice_id ← lift (subscript voice row.2);
      session_add (Paradigm root_id vclass_id voice_id)) w = (Ok tt, w') /\
    database w' = database w /\
    root_names (database w' ++ pending w') = root_names (database w ++ pending w).
Proof.
  intros Hps.
  destruct (for_ok
              (fun p : string * string =>
                 is_Some (vclass !! p.1) /\ is_Some (voice !! p.2))
              (fun _ w' =>
                 database w' = database w /\
                 root_names (database w' ++ pending w')
                 = root_names (database w ++ pending w))
              (fun row =>
                 vclass_id ← lift (subscript vclass row.1);
                 voice_id ← lift (subscript voice row.2);
                 session_add (Paradigm root_id vclass_id voice_id)))
    with (xs := paradigms) (done := @nil (string * string)) (w := w)
    as (w' & Hrun & Hinv); [|done|done|by exists w'].
  intros done x w1 [[a Ha] [b Hb]] [Hdb Hrn].
  unfold mbind, M_bind, lift, subscript. rewrite Ha, Hb.
  eexists. split; [reflexivity|]. cbn [database pending]. split; [done|].
  by rewrite app_assoc, root_names_snoc_Paradigm.
Qed.

(** X10: when [ENUM] has the class and voice tables and every paradigm
    of the roots file names a class and a voice of them, [add_roots]
    stores one [Root] row for every record of the file, in file order,
    and returns a root map whose keys are exactly the (name, homonym)
    pairs of the file: records that share a pair get a row each and one
    entry of the map together. *)
Theorem add_roots_maps_the_pairs_of_the_file (c : ctx) (w : world)
    (vclass voice : gmap string nat) :
  ENUM w !! "vclass" = Some vclass -> ENUM w !! "voice" = Some voice ->
  paradigms_resolve vclass voice (ROOTS c) ->
  exists root_map w',
    add_roots c w = (Ok root_map, w') /\
    dom root_map = list_to_set (root_item_key <$> ROOTS c) /\
    root_names (database w')
      = root_names (database w ++ pending w) ++ (ri_name <$> ROOTS c) /\
    pending w' = [].
Proof.
  intros Hvclass Hvoice Hroots. unfold add_roots.
  rewrite (ENUM_get_Ok _ _ _ _ Hvclass), (ENUM_get_Ok _ _ _ _ Hvoice).
  match goal with |- context [for_fold _ _ ?body] =>
    destruct (for_fold_ok
                (fun item =>
                   Forall (fun p : string * string =>
                             is_Some (vclass !! p.1) /\ is_Some (voice !! p.2))
                          (ri_paradigms item))
                (fun done (s : root_map_t * nat) w' =>
                   dom s.1 = list_to_set (root_item_key <$> done) /\
                   root_names (database w' ++ pending w')
                   = root_names (database w ++ pending w) ++ (ri_name <$> done))
                body)
      with (xs := ROOTS c) (done := @nil root_item)
           (s := (∅ : root_map_t, 0)) (w := w)
      as ([root_map n] & w1 & Hloop & Hdom & Hnames)
  end.
  - intros done x [root_map i] w1 Hx [Hdom Hnames]. cbv beta iota zeta.
    do 3 (erewrite bind_Ok by reflexivity).
    edestruct (add_roots_paradigms vclass voice) as (w2 & Hrun & Hdb & Hrn);
      [exact Hx|].
    erewrite (bind_Ok _ _ _ _ _ Hrun).
    rewrite !fmap_app, list_to_set_app_L. cbn [fmap list_fmap].
    assert (Hkeys : dom (<[(ri_name x, ri_hom x) := length
                             (filter (fun r => table_of r = table_of (Root (ri_name x)))
                                     (database w1 ++ pending w1 ++ [Root (ri_name x)]))]>
                           root_map)
                    = list_to_set (root_item_key <$> done)
                      ∪ list_to_set [root_item_key x]).
    { cbn [fst] in Hdom. rewrite dom_insert_L, Hdom. cbn [list_to_set].
      rewrite (right_id_L ∅ (∪)). apply (comm_L (∪)). }
    assert (Hrows : root_names (database w2 ++ pending w2)
                    = root_names (database w ++ pending w)
                      ++ (ri_name <$> done) ++ [ri_name x]).
    { rewrite Hrn. cbn [database pending].
      by rewrite app_assoc, root_names_snoc_Root, Hnames, <- app_assoc. }
    case_bool_decide;
      (eexists _, _; split; [reflexivity|]; cbn [fst database pending]; by split).
  - exact Hroots.
  - cbn [fst fmap list_fmap list_to_set]. split; [apply dom_empty_L|].
    by rewrite app_nil_r.
  - rewrite (bind_Ok _ _ _ _ _ Hloop). cbv beta iota zeta.
    eexists _, _. split; [reflexivity|]. cbn [fst database pending] in *.
    by rewrite app_nil_l in Hdom, Hnames.
Qed.

Lemma add_roots_maps_the_pairs_of_the_file_witness :
  let c := {| ENUMS := []; SANDHI := []; INDECLINABLES := []; VERB_PREFIXES := [];
              VERB_ENDINGS := [];
              ROOTS := [ {| ri_name := "as"; ri_paradigms := [("2", "P")];
                            ri_hom := None |};
                         {| ri_name := "as"; ri_paradigms := []; ri_hom := None |} ];
              PREFIXED_ROOTS := []; VERBS := []; GERUNDS := []; INFINITIVES := [];
              PARTICIPLE_STEMS := []; NOMINAL_ENDINGS := []; NOUN_STEMS := [];
              IRREGULAR_NOUNS := []; ADJECTIVE_STEMS := []; IRREGULAR_ADJECTIVES := [];
              PRONOUNS := []; Tag_dir := []; Tag_NOUN := 1; Tag_ADJECTIVE := 2;
              sorted_tables := [] |} in
  let w := {| ENUM := {[ "vclass" := {[ "2" := 1 ]}; "voice" := {[ "P" := 1 ]} ]};
              pending := []; database := []; tables := ∅; trace := [] |} in
  exists root_map w',
    add_roots c w = (Ok root_map, w') /\
    dom root_map = {[ ("as", None) ]} /\
    root_names (database w') = ["as"; "as"].
Proof.
  intros c w.
  destruct (add_roots_maps_the_pairs_of_the_file c w {[ "2" := 1 ]} {[ "P" := 1 ]})
    as (root_map & w' & Hrun & Hdom & Hnames & _).
  - reflexivity.
  - reflexivity.
  - unfold paradigms_resolve.
    repeat (apply Forall_cons; split); try apply Forall_nil_2;
      split; eexists; by vm_compute.
  - exists root_map, w'. split; [exact Hrun|]. split; [|exact Hnames].
    rewrite Hdom. subst c.
    cbn [ROOTS fmap list_fmap list_to_set root_item_key ri_name ri_hom].
    rewrite (right_id_L ∅ (∪)). apply (idemp_L (∪)).
Defined.

(** *** The number of bulk inserts *)

Lemma length_concat_full (n : nat) (ls : list (list row)) :
  Forall (fun b => length b = n) ls -> length (concat ls) = n * length ls.
Proof.
  induction 1 as [|b ls Hb _ IH]; [by rewrite Nat.mul_0_r|].
  cbn [concat length]. rewrite length_app, IH, Hb. lia.
Qed.

Lemma batched_bulk_inserts (batches : list (list row)) (rows : list row) :
  batched 500 batches rows -> length batches = bulk_inserts 500 (length rows).
Proof.
  intros (Hrows & Hall & Hfull). subst rows. unfold bulk_inserts.
  destruct batches as [|b init _] using rev_ind; [by vm_compute|].
  assert (Hinit : Forall (fun b => length b = 500) init).
  { apply Forall_lookup. intros i b' Hi. apply (Hfull i b').
    - by rewrite lookup_app_l by (by eapply lookup_lt_Some).
    - rewrite length_app. cbn [length]. apply lookup_lt_Some in Hi. lia. }
  apply Forall_app in Hall as [_ Hb]. apply Forall_singleton in Hb as [Hne Hle].
  assert (1 <= length b) by (destruct b; [done|cbn [length]; lia]).
  rewrite concat_app, !length_app, (length_concat_full 500 init Hinit).
  cbn [concat length]. rewrite app_nil_r.
  apply (Nat.div_unique _ _ _ (length b - 1)); lia.
Qed.

(** X11: the stem stages issue one bulk insert per started run of 500
    records: [add_adjective_stems] issues ceil(n / 500) inserts for the
    n records of its file, and so does [add_noun_stems] when every
    record's gender group is in the table; an empty file gives none. *)
Theorem stem_stages_bulk_insert_count (c : ctx) (w : world) :
  length (executed (trace (add_adjective_stems c w).2))
    = length (executed (trace w)) + bulk_inserts 500 (length (ADJECTIVE_STEMS c)) /\
  (forall gender_group payloads,
     ENUM w !! "gender_group" = Some gender_group ->
     mapM (noun_stem_payload gender_group (Tag_NOUN c)) (NOUN_STEMS c) = Some payloads ->
     length (executed (trace (add_noun_stems c w).2))
       = length (executed (trace w)) + bulk_inserts 500 (length (NOUN_STEMS c))).
Proof.
  split.
  - destruct (add_adjective_stems_spec c w) as (w' & batches & Hrun & Hex & Hb & _).
    rewrite Hrun. cbn [snd]. rewrite Hex, length_app.
    by rewrite (batched_bulk_inserts _ _ Hb), length_fmap.
  - intros gender_group payloads HE Hpay.
    destruct (add_noun_stems_spec c w gender_group payloads HE Hpay)
      as (w' & batches & Hrun & Hex & Hb & _).
    rewrite Hrun. cbn [snd]. rewrite Hex, length_app.
    by rewrite (batched_bulk_inserts _ _ Hb), (length_mapM _ _ _ Hpay).
Qed.

Lemma stem_stages_bulk_insert_count_witness :
  length (executed (trace (add_noun_stems sample_ctx sample_world).2)) = 1.
Proof.
  destruct (stem_stages_bulk_insert_count sample_ctx sample_world) as [_ Hnouns].
  rewrite (Hnouns {[ "m" := 1; "n" := 2 ]}
             [ Stem (NounStem "nara" (Some 1) 1); Stem (NounStem "phala" (Some 1) 2) ]);
    by vm_compute.
Defined.

(** *** Records inserted and records skipped *)

Lemma resolved_or_unresolved {R : Type} (root_map : root_map_t) (key : R -> root_key)
    (record : R -> nat -> option row) (rs : list R) :
  records_resolve root_map key record rs ->
  length (omap (resolved_record root_map key record) rs)
  + length (unresolved root_map (key <$> rs)) = length rs.
Proof.
  unfold records_resolve, unresolved.
  induction 1 as [|r rs Hr _ IH]; [done|].
  rewrite fmap_cons. change (r :: rs) with ([r] ++ rs) at 1. rewrite omap_app, length_app.
  destruct (root_map !! key r) as [root_id|] eqn:Hroot.
  - destruct (Hr root_id eq_refl) as [x Hx].
    rewrite filter_cons_False by (by rewrite Hroot).
    replace (omap (resolved_record root_map key record) [r]) with [x].
    + cbn [length]. lia.
    + cbn [omap list_omap]. unfold resolved_record. by rewrite Hroot; cbn; rewrite Hx.
  - rewrite filter_cons_True by done.
    replace (omap (resolved_record root_map key record) [r]) with (@nil row).
    + cbn [length]. lia.
    + cbn [omap list_omap]. unfold resolved_record. by rewrite Hroot.
Qed.

Lemma size_list_to_set_le (keys : list root_key) :
  size (list_to_set keys : gset root_key) <= length keys.
Proof.
  rewrite size_list_to_set_remove_dups.
  induction keys as [|k keys IH]; [done|].
  cbn [remove_dups length]. case_decide; cbn [length]; lia.
Qed.

(** X12: in a run of [add_verbs] that ends normally every record of the
    verbs file is either inserted or skipped: the rows inserted and the
    records whose root pair is not in the root map add up to the records
    of the file.  The count printed at the end, which is of distinct
    pairs, is at most the number of records skipped. *)
Theorem add_verbs_inserts_or_skips_every_record (c : ctx) (root_map : root_map_t)
    (w : world) (vclass person number mode voice : gmap string nat) :
  verb_tables w vclass person number mode voice ->
  records_resolve root_map verb_key
    (verb_record vclass person number mode voice) (VERBS c) ->
  exists w' inserted printed,
    add_verbs c root_map w = (Ok tt, w') /\
    length (database w') = length (database w ++ pending w) + inserted /\
    inserted + length (unresolved root_map (verb_key <$> VERBS c)) = length (VERBS c) /\
    reported_skips (trace w') = reported_skips (trace w) ++ [printed] /\
    printed <= length (VERBS c) - inserted.
Proof.
  intros Htables Hrows.
  destruct (add_verbs_spec c root_map w vclass person number mode voice Htables Hrows)
    as (w' & Hrun & Hdb & _ & Hrep & _).
  pose proof (resolved_or_unresolved root_map verb_key _ _ Hrows) as Hsum.
  pose proof (size_list_to_set_le (unresolved root_map (verb_key <$> VERBS c))) as Hle.
  eexists w', _, _. split; [exact Hrun|]. split; [by rewrite Hdb, length_app|].
  split; [exact Hsum|]. split; [exact Hrep|]. lia.
Qed.

Lemma add_verbs_inserts_or_skips_every_record_witness :
  exists w' inserted printed,
    add_verbs sample_ctx sample_roots sample_world = (Ok tt, w') /\
    length (database w') = inserted /\
    inserted + 2 = 3 /\
    reported_skips (trace w') = [printed] /\
    printed <= 3 - inserted.
Proof.
  destruct (add_verbs_inserts_or_skips_every_record sample_ctx sample_roots sample_world
              {[ "1" := 1 ]} {[ "3" := 1 ]} {[ "s" := 1; "p" := 2 ]}
              {[ "pres" := 1 ]} {[ "para" := 1 ]})
    as (w' & inserted & printed & Hrun & Hdb & Hsum & Hrep & Hle).
  - repeat split; reflexivity.
  - unfold records_resolve, sample_ctx. cbn [VERBS].
    repeat (apply Forall_cons; split;
            [intros root_id Hroot; vm_compute in Hroot;
             first [discriminate Hroot | vm_compute; by eexists]|]).
    apply Forall_nil_2.
  - exists w', inserted, printed. split; [exact Hrun|]. split; [exact Hdb|].
    split; [exact Hsum|]. split; [exact Hrep|exact Hle].
Defined.

End stage_results.

(** * Stages that read no table, and a run without enums *)

Section plain_stages.
Import setup.

(** *** Computations that leave [ENUM] out *)

Lemma ignores_ENUM_ret {A} (a : A) : ignores_ENUM (mret a : M A).
Proof. by intros E w. Qed.

Lemma ignores_ENUM_bind {A B} (m : M A) (f : A -> M B) :
  ignores_ENUM m -> (forall a, ignores_ENUM (f a)) -> ignores_ENUM (m ≫= f).
Proof.
  intros Hm Hf E w. unfold mbind, M_bind. rewrite (Hm E w).
  destruct (m w) as [[a|e] w1]; cbn [fst snd]; [apply Hf|done].
Qed.

Lemma ignores_ENUM_for {A} (xs : list A) (body : A -> M unit) :
  (forall x, ignores_ENUM (body x)) -> ignores_ENUM (for_ xs body).
Proof.
  intros Hbody. induction xs as [|x xs IH]; [apply ignores_ENUM_ret|].
  cbn [for_]. apply ignores_ENUM_bind; [apply Hbody|by intros _].
Qed.

Lemma ignores_ENUM_for_fold {A S} (xs : list A) (s : S) (body : S -> A -> M S) :
  (forall s x, ignores_ENUM (body s x)) -> ignores_ENUM (for_fold xs s body).
Proof.
  intros Hbody. revert s. induction xs as [|x xs IH]; intros s;
    [apply ignores_ENUM_ret|].
  cbn [for_fold]. apply ignores_ENUM_bind; [apply Hbody|apply IH].
Qed.

Lemma ignores_ENUM_emit (e : event) : ignores_ENUM (emit e).
Proof. by intros E w. Qed.

Lemma ignores_ENUM_session_add (r : row) : ignores_ENUM (session_add r).
Proof. by intros E w. Qed.

Lemma ignores_ENUM_session_commit : ignores_ENUM session_commit.
Proof. by intros E w. Qed.

Lemma ignores_ENUM_conn_execute (rows : list row) : ignores_ENUM (conn_execute rows).
Proof. by intros E w. Qed.

Lemma ignores_ENUM_last_id (table : string) : ignores_ENUM (last_id table).
Proof. by intros E w. Qed.

Ltac ignores_ENUM_step :=
  first
    [ apply ignores_ENUM_emit | apply ignores_ENUM_session_add
    | apply ignores_ENUM_session_commit | apply ignores_ENUM_conn_execute
    | apply ignores_ENUM_last_id
    | apply ignores_ENUM_ret
    | apply ignores_ENUM_bind; [|intros ?]
    | apply ignores_ENUM_for; intros ?
    | apply ignores_ENUM_for_fold; intros ? ?
    | match goal with
      | |- ignores_ENUM (match ?x with _ => _ end) => destruct x
      | |- ignores_ENUM ((match ?x with _ => _ end) _) => destruct x
      end
    | progress (cbv beta) ].

Ltac ignores_ENUM_stage :=
  unfold heading, session_flush, session_close, tick, add_verbal_indeclinable,
    add_adjective_stem;
  repeat ignores_ENUM_step.

Lemma ignores_ENUM_add_tags (c : ctx) : ignores_ENUM (add_tags c).
Proof. unfold add_tags. ignores_ENUM_stage. Qed.

(** X13: the stages that subscript no [ENUM] table do not depend on
    [ENUM] at all: put any [ENUM] in place, the tags, indeclinables,
    verb-prefixes and adjective-stems stages, and the gerund and
    infinitive stage for every root map, end the same way, with the
    same rows, the same output and that [ENUM] untouched.  They can run
    before [add_enums]. *)
Theorem stages_without_subscript_ignore_ENUM (c : ctx) (root_map : root_map_t) :
  ignores_ENUM (add_tags c) /\
  ignores_ENUM (add_indeclinables c) /\
  ignores_ENUM (add_verb_prefixes c) /\
  ignores_ENUM (add_adjective_stems c) /\
  ignores_ENUM (add_verbal_indeclinables c root_map).
Proof.
  repeat apply conj.
  - apply ignores_ENUM_add_tags.
  - unfold add_indeclinables. ignores_ENUM_stage.
  - unfold add_verb_prefixes. ignores_ENUM_stage.
  - unfold add_adjective_stems. ignores_ENUM_stage.
  - unfold add_verbal_indeclinables. ignores_ENUM_stage.
Qed.

(** *** Tags and indeclinables *)

Lemma add_tags_spec (c : ctx) (w : world) :
  exists w',
    add_tags c w = (Ok tt, w') /\
    database w' = (database w ++ pending w) ++ omap tag_row (Tag_dir c) /\
    pending w' = [].
Proof.
  destruct (for_ok (fun _ => True)
              (fun done w' =>
                 database w' = database w /\
                 pending w' = pending w ++ omap tag_row done)
              (fun '(key, id) =>
                 if str_isupper key then session_add (Tag id (str_lower key))
                 else mret tt))
    with (xs := Tag_dir c) (done := @nil (string * nat)) (w := w)
    as (w1 & Hloop & Hdb & Hp).
  - intros done [key id] w1 _ [Hdb Hp]. cbv beta iota.
    destruct (str_isupper key) eqn:Hu.
    + eexists. split; [reflexivity|]. cbn [database pending]. split; [done|].
      rewrite (omap_snoc_Some _ _ _ (Tag id (str_lower key)))
        by (unfold tag_row; cbn [fst snd]; by rewrite Hu).
      by rewrite Hp, app_assoc.
    + exists w1. split; [done|]. split; [done|].
      rewrite omap_snoc_None by (unfold tag_row; cbn [fst snd]; by rewrite Hu).
      done.
  - by apply Forall_true.
  - split; [done|]. by rewrite app_nil_r.
  - unfold add_tags. rewrite (bind_Ok _ _ _ _ _ Hloop).
    eexists. split; [reflexivity|]. cbn [database pending].
    by rewrite Hdb, Hp, app_assoc.
Qed.

Lemma add_indeclinables_spec (c : ctx) (w : world) :
  exists w',
    add_indeclinables c w = (Ok tt, w') /\
    database w' = (database w ++ pending w) ++ (Indeclinable <$> INDECLINABLES c) /\
    pending w' = [].
Proof.
  destruct (for_fold_ok (fun _ => True)
              (fun done (_ : nat) w' =>
                 database w' = database w /\
                 pending w' = pending w ++ (Indeclinable <$> done))
              (fun i name =>
                 session_add (Indeclinable name) ;;
                 (if bool_decide (i mod 200 = 0) then tick [name] else mret tt) ;;
                 mret (S i)))
    with (xs := INDECLINABLES c) (done := @nil string) (s := 0) (w := w)
    as (n & w1 & Hloop & Hdb & Hp).
  - intros done name i w1 _ [Hdb Hp].
    erewrite bind_Ok by reflexivity.
    case_bool_decide;
      (eexists _, _; split; [reflexivity|]; cbn [database pending];
       split; [done|]; by rewrite Hp, fmap_app, app_assoc).
  - by apply Forall_true.
  - split; [done|]. by rewrite app_nil_r.
  - unfold add_indeclinables. rewrite (bind_Ok _ _ _ _ _ Hloop).
    eexists. split; [reflexivity|]. cbn [database pending].
    by rewrite Hdb, Hp, app_assoc.
Qed.

(** X14: [add_tags] commits what the session held and then one [Tag] row
    for every upper-case attribute of [Tag], with the attribute's value as
    id and its lower-cased name as name, in [dir] order, and nothing for
    the other attributes; [add_indeclinables] commits one row for every
    name of its file, in file order, duplicates included. *)
Theorem tags_and_indeclinables_committed (c : ctx) (w : world) :
  (exists w',
     add_tags c w = (Ok tt, w') /\
     database w' = (database w ++ pending w) ++ omap tag_row (Tag_dir c) /\
     pending w' = []) /\
  (exists w',
     add_indeclinables c w = (Ok tt, w') /\
     database w' = (database w ++ pending w) ++ (Indeclinable <$> INDECLINABLES c) /\
     pending w' = []).
Proof. split; [apply add_tags_spec|apply add_indeclinables_spec]. Qed.

(** *** Enums that [add_enums] does not know *)

Lemma for_skip {A} (xs : list A) (body : A -> M unit) (w : world) :
  Forall (fun x => body x = mret tt) xs -> for_ xs body w = (Ok tt, w).
Proof.
  induction 1 as [|x xs Hx _ IH]; [done|].
  cbn [for_]. rewrite Hx. exact IH.
Qed.

Lemma add_enums_ignored (c : ctx) (w : world) :
  Forall ignored_enum (ENUMS c) ->
  add_enums c w
  = (Ok tt, {| ENUM := ENUM w; pending := []; database := database w ++ pending w;
               tables := tables w;
               trace := trace w ++ [SessionCommit; SessionCommit; SessionClose] |}).
Proof.
  intros Hign. unfold add_enums, add_enums_first_pass, add_enums_second_pass.
  unfold mbind at 1, M_bind at 1.
  rewrite (bind_Ok _ _ w w tt).
  2:{ apply for_skip. eapply Forall_impl; [exact Hign|].
      intros enum [Hm _]. cbv beta. by rewrite Hm. }
  cbn [session_commit].
  match goal with |- context [(for_ ?xs ?body ≫= ?k) ?w1] =>
    rewrite (bind_Ok (for_ xs body) k w1 w1 tt)
  end.
  2:{ apply for_skip. eapply Forall_impl; [exact Hign|].
      intros enum [_ Hg]. cbv beta zeta. by rewrite bool_decide_true. }
  unfold mbind, M_bind, session_commit, session_close, emit.
  cbn [ENUM pending database tables trace].
  by rewrite app_nil_r, <- !app_assoc.
Qed.

(** X15: an enum of the enums file whose name is none of the ten class
    names is passed over without a word: when every enum of the file is
    such, [add_enums] ends normally, leaves [ENUM] as it was, adds no row
    and prints nothing; it only commits what the session held. *)
Theorem add_enums_ignores_unknown_enums (c : ctx) (w : world) :
  Forall ignored_enum (ENUMS c) ->
  exists w',
    add_enums c w = (Ok tt, w') /\
    ENUM w' = ENUM w /\
    database w' = database w ++ pending w /\ pending w' = [] /\
    trace w' = trace w ++ [SessionCommit; SessionCommit; SessionClose].
Proof. intros Hign. rewrite (add_enums_ignored c w Hign). by eexists. Qed.

Lemma add_enums_ignores_unknown_enums_witness :
  let c := {| ENUMS := [ {| enum_name := "person";
                            enum_items := [ {| item_name := "third"; item_abbr := "3";
                                               item_members := [] |} ] |} ];
              SANDHI := []; INDECLINABLES := []; VERB_PREFIXES := [];
              VERB_ENDINGS := []; ROOTS := []; PREFIXED_ROOTS := []; VERBS := [];
              GERUNDS := []; INFINITIVES := []; PARTICIPLE_STEMS := [];
              NOMINAL_ENDINGS := []; NOUN_STEMS := []; IRREGULAR_NOUNS := [];
              ADJECTIVE_STEMS := []; IRREGULAR_ADJECTIVES := []; PRONOUNS := [];
              Tag_dir := []; Tag_NOUN := 1; Tag_ADJECTIVE := 2;
              sorted_tables := [] |} in
  exists w', add_enums c empty_world = (Ok tt, w') /\ ENUM w' = ∅ /\ database w' = [].
Proof.
  intros c.
  destruct (add_enums_ignores_unknown_enums c empty_world)
    as (w' & Hrun & HE & Hdb & _).
  - apply Forall_singleton. split; [by vm_compute|discriminate].
  - exists w'. split; [exact Hrun|]. split; [exact HE|exact Hdb].
Defined.

(** *** A run whose enums file gives no enum *)

Lemma headings_printed (printed : list string) :
  headings (PrintCreated <$> printed) = [].
Proof. induction printed as [|p ps IH]; [done|exact IH]. Qed.

(** X16: when the enums file holds no enum that [add_enums] knows and
    [ENUM] has no sandhi types from before, a run stops in the Sandhi
    stage with [KeyError('sandhi_type')]: the tags are committed, the
    headings Tags, Enumerated data and Sandhi are printed and no later
    stage is reached. *)
Theorem run_without_enums_stops_at_sandhi (c : ctx) (w : world) :
  Forall ignored_enum (ENUMS c) ->
  ENUM w !! "sandhi_type" = None ->
  exists w',
    run c w = (Raise (KeyError "sandhi_type"), w') /\
    database w' = pending w ++ omap tag_row (Tag_dir c) /\
    headings (trace w')
    = headings (trace w)
      ++ [("Tags", "~"%char); ("Enumerated data", "~"%char); ("Sandhi", "~"%char)].
Proof.
  intros Hign Hnone.
  set (created := context.create_all (sorted_tables c)
                    (context.drop_all (sorted_tables c) (tables w))).
  set (w1 := {| ENUM := ENUM w; pending := pending w; database := [];
                tables := created.1;
                trace := (trace w ++ [DropAll]) ++
                         CreateAll :: (PrintCreated <$> created.2) |}).
  assert (Hrun : run c w
                 = for_ functions (fun '(name, f) => heading name "~" ;; f c) w1)
    by reflexivity.
  set (w2 := (heading "Tags" "~" w1).2).
  destruct (add_tags_spec c w2) as (w3 & Htags & Hdb3 & Hp3).
  pose proof (quiet_add_tags c w2 _ _ Htags) as (t3 & Ht3 & Hs3).
  assert (HE3 : ENUM w3 = ENUM w).
  { exact (same_ENUM_add_tags c w2 _ _ Htags). }
  set (w4 := (heading "Enumerated data" "~" w3).2).
  pose proof (add_enums_ignored c w4 Hign) as Henums.
  match type of Henums with _ = (_, ?w) => set (w5 := w) in Henums end.
  set (w6 := (heading "Sandhi" "~" w5).2).
  assert (Hsandhi : add_sandhi c w6 = (Raise (KeyError "sandhi_type"), w6)).
  { unfold add_sandhi. apply ENUM_get_Raise.
    cbn [w6 w5 w4 heading emit snd ENUM]. by rewrite HE3. }
  exists w6. split; [|split].
  - rewrite Hrun. unfold functions. cbn [for_]. cbv beta iota.
    rewrite (bind_Ok (heading "Tags" "~" ;; add_tags c) _ w1 w3 tt Htags).
    rewrite (bind_Ok (heading "Enumerated data" "~" ;; add_enums c) _ w3 w5 tt Henums).
    apply (bind_Raise (heading "Sandhi" "~" ;; add_sandhi c) _ w5 w6 _ Hsandhi).
  - cbn [w6 w5 w4 heading emit snd database pending]. rewrite Hdb3, Hp3.
    cbn [w2 w1 heading emit snd database pending]. by rewrite app_nil_r.
  - cbn [w6 w5 w4 heading emit snd trace]. rewrite Ht3.
    cbn [w2 w1 heading emit snd trace].
    destruct (stage_events_no_headings t3 Hs3) as [Hh3 _].
    rewrite !headings_app, Hh3.
    change (headings (CreateAll :: (PrintCreated <$> created.2)))
      with (headings (PrintCreated <$> created.2)).
    rewrite headings_printed. cbn [headings omap list_omap app].
    by rewrite !app_nil_r, <- !app_assoc.
Qed.

Lemma run_without_enums_stops_at_sandhi_witness :
  let c := {| ENUMS := []; SANDHI := []; INDECLINABLES := ["ca"]; VERB_PREFIXES := [];
              VERB_ENDINGS := []; ROOTS := []; PREFIXED_ROOTS := []; VERBS := [];
              GERUNDS := []; INFINITIVES := []; PARTICIPLE_STEMS := [];
              NOMINAL_ENDINGS := []; NOUN_STEMS := []; IRREGULAR_NOUNS := [];
              ADJECTIVE_STEMS := []; IRREGULAR_ADJECTIVES := []; PRONOUNS := [];
              Tag_dir := [("NOUN", 1); ("__doc__", 0)]; Tag_NOUN := 1;
              Tag_ADJECTIVE := 2; sorted_tables := [] |} in
  exists w',
    run c empty_world = (Raise (KeyError "sandhi_type"), w') /\
    database w' = [Tag 1 "noun"].
Proof.
  intros c.
  destruct (run_without_enums_stops_at_sandhi c empty_world)
    as (w' & Hrun & Hdb & _).
  - apply Forall_nil_2.
  - reflexivity.
  - exists w'. split; [exact Hrun|]. rewrite Hdb. by vm_compute.
Defined.

End plain_stages.

(** * The verbal stage as a whole *)

Section verbal_stage.
Import setup.

(** *** What a normal end tells *)

Lemma bind_Ok_inv {A B} (m : M A) (f : A -> M B) (w w' : world) (b : B) :
  (m ≫= f) w = (Ok b, w') -> exists a w1, m w = (Ok a, w1) /\ f a w1 = (Ok b, w').
Proof.
  unfold mbind, M_bind. destruct (m w) as [[a|e] w1]; [by exists a, w1|done].
Qed.

Lemma ENUM_get_inv (key : string) (w w' : world) (d : gmap string nat) :
  ENUM_get key w = (Ok d, w') -> w' = w.
Proof. unfold ENUM_get. by intros [= _ <-]. Qed.

(** A loop that ends normally has kept every invariant of its local
    variables that its body keeps. *)
Lemma for_fold_inv {A S} (I : list A -> S -> Prop) (body : S -> A -> M S) :
  (forall done s x w s' w',
     I done s -> body s x w = (Ok s', w') -> I (done ++ [x]) s') ->
  forall xs done s w s' w',
    I done s -> for_fold xs s body w = (Ok s', w') -> I (done ++ xs) s'.
Proof.
  intros Hbody. induction xs as [|x xs IH]; intros done s w s' w' HI Hrun.
  - injection Hrun as <- _. by rewrite app_nil_r.
  - cbn [for_fold] in Hrun. apply bind_Ok_inv in Hrun as (s1 & w1 & H1 & Hrest).
    rewrite cons_middle, app_assoc.
    eapply IH; [|exact Hrest]. by eapply Hbody.
Qed.

(** *** Operations that print no skip count *)

#[local] Instance same_skips_preorder : PreOrder same_skips.
Proof.
  split; [by intros w|].
  intros w1 w2 w3 H12 H23. unfold same_skips in *. by rewrite H23.
Qed.

Lemma same_skips_emit (e : event) :
  (forall n, e <> PrintSkipped n) -> respects same_skips (emit e).
Proof.
  intros He w r w' [= _ <-]. unfold same_skips. cbn [trace].
  by apply reported_skips_snoc_other.
Qed.

Lemma same_skips_heading (s : string) (char : ascii) :
  respects same_skips (heading s char).
Proof. by apply same_skips_emit. Qed.

Lemma same_skips_tick (s : list string) : respects same_skips (tick s).
Proof. by apply same_skips_emit. Qed.

Lemma same_skips_session_flush : respects same_skips session_flush.
Proof. by apply same_skips_emit. Qed.

Lemma same_skips_session_close : respects same_skips session_close.
Proof. by apply same_skips_emit. Qed.

Lemma same_skips_session_add (r : row) : respects same_skips (session_add r).
Proof.
  intros w r' w' [= _ <-]. unfold same_skips. cbn [trace].
  by apply reported_skips_snoc_other.
Qed.

Lemma same_skips_session_commit : respects same_skips session_commit.
Proof.
  intros w r' w' [= _ <-]. unfold same_skips. cbn [trace].
  by apply reported_skips_snoc_other.
Qed.

Lemma same_skips_ENUM_get (key : string) : respects same_skips (ENUM_get key).
Proof. by intros w r' w' [= _ <-]. Qed.

Lemma same_skips_last_id (table : string) : respects same_skips (last_id table).
Proof. by intros w r' w' [= _ <-]. Qed.

Ltac same_skips_stage :=
  unfold add_verb, add_participle_stem, add_verbal_indeclinable;
  repeat frame_step
    ltac:(first [ apply same_skips_heading | apply same_skips_tick
                | apply same_skips_session_flush | apply same_skips_session_close
                | apply same_skips_session_add | apply same_skips_session_commit
                | apply same_skips_ENUM_get | apply same_skips_last_id ]).

Lemma same_skips_add_verb_prefixes (c : ctx) :
  respects same_skips (add_verb_prefixes c).
Proof. unfold add_verb_prefixes. same_skips_stage. Qed.

Lemma same_skips_add_verb_endings (c : ctx) :
  respects same_skips (add_verb_endings c).
Proof. unfold add_verb_endings. same_skips_stage. Qed.

Lemma same_skips_add_roots (c : ctx) : respects same_skips (add_roots c).
Proof. unfold add_roots. same_skips_stage. Qed.

Lemma same_skips_add_verbal_indeclinables (c : ctx) (root_map : root_map_t) :
  respects same_skips (add_verbal_indeclinables c root_map).
Proof. unfold add_verbal_indeclinables. same_skips_stage. Qed.

Lemma same_skips_verbs_loop (root_map : root_map_t)
    (vclass person number mode voice : gmap string nat) (rows : list verb_row)
    (s : gset root_key * nat) :
  respects same_skips
    (for_fold rows s (add_verb root_map vclass person number mode voice)).
Proof. same_skips_stage. Qed.

Lemma same_skips_participles_loop (root_map : root_map_t)
    (mode voice : gmap string nat) (rows : list participle_row)
    (s : gset root_key * nat) :
  respects same_skips (for_fold rows s (add_participle_stem root_map mode voice)).
Proof. same_skips_stage. Qed.

(** *** The root map of a roots stage that ended normally *)

Lemma add_roots_dom (c : ctx) (w w' : world) (root_map : root_map_t) :
  add_roots c w = (Ok root_map, w') -> dom root_map = file_roots c.
Proof.
  unfold add_roots. intros H.
  apply bind_Ok_inv in H as (vclass & w1 & _ & H).
  apply bind_Ok_inv in H as (voice & w2 & _ & H).
  apply bind_Ok_inv in H as ([rm n] & w3 & Hloop & H).
  cbv beta iota zeta in H.
  apply bind_Ok_inv in H as (? & ? & _ & H).
  apply bind_Ok_inv in H as (? & ? & _ & H).
  injection H as <- _.
  apply (for_fold_inv
           (fun done (s : root_map_t * nat) =>
              dom s.1 = list_to_set (root_item_key <$> done)) _)
    with (done := []) in Hloop; [exact Hloop| |apply dom_empty_L].
  intros done [rm0 i] item wa s' wb HI Hb. cbv beta iota zeta in Hb.
  repeat (apply bind_Ok_inv in Hb as (? & ? & _ & Hb)).
  injection Hb as <- _. cbn [fst] in *.
  rewrite fmap_app, list_to_set_app_L, dom_insert_L, HI.
  cbn [fmap list_fmap list_to_set]. rewrite (right_id_L ∅ (∪)).
  apply (comm_L (∪)).
Qed.

(** *** The counts the two resolving stages print *)

Lemma skipped_set_miss (root_map : root_map_t) (keys : list root_key)
    (k : root_key) (skipped : gset root_key) :
  root_map !! k = None ->
  skipped = list_to_set (unresolved root_map keys) ->
  skipped ∪ {[ k ]} = list_to_set (unresolved root_map (keys ++ [k])).
Proof.
  intros Hk ->. rewrite (unresolved_snoc_miss _ _ _ Hk), list_to_set_app_L.
  cbn [list_to_set]. by rewrite (right_id_L ∅ (∪)).
Qed.

Lemma add_verbs_prints_unresolved (c : ctx) (root_map : root_map_t) (w w' : world) :
  add_verbs c root_map w = (Ok tt, w') ->
  reported_skips (trace w')
  = reported_skips (trace w)
    ++ [size (list_to_set (unresolved root_map (verb_key <$> VERBS c))
              : gset root_key)].
Proof.
  unfold add_verbs. intros H.
  do 5 (apply bind_Ok_inv in H as (? & ? & Hget & H);
        apply ENUM_get_inv in Hget as ->).
  apply bind_Ok_inv in H as ([skipped n] & w1 & Hloop & H).
  cbv beta iota zeta in H.
  pose proof (same_skips_verbs_loop _ _ _ _ _ _ _ _ _ _ _ Hloop) as Hframe.
  apply (for_fold_inv
           (fun done (s : gset root_key * nat) =>
              s.1 = list_to_set (unresolved root_map (verb_key <$> done))) _)
    with (done := []) in Hloop; [| |done].
  - injection H as <-. cbn [trace fst] in *.
    rewrite reported_skips_app, !reported_skips_snoc_other by done.
    unfold same_skips in Hframe. by rewrite Hframe, Hloop.
  - intros done [skipped0 i] r wa s' wb HI Hb. cbn [fst] in HI.
    unfold add_verb in Hb. cbv beta iota zeta in Hb. rewrite fmap_app.
    cbn [fmap list_fmap].
    destruct (root_map !! (v_root r, v_hom r)) as [root_id|] eqn:Hroot.
    + repeat (apply bind_Ok_inv in Hb as (? & ? & _ & Hb)).
      injection Hb as <- _. cbn [fst].
      by rewrite (unresolved_snoc_hit _ _ (verb_key r) root_id Hroot).
    + injection Hb as <- _. cbn [fst].
      by apply (skipped_set_miss _ _ (verb_key r)).
Qed.

Lemma add_participle_stems_prints_unresolved (c : ctx) (root_map : root_map_t)
    (w w' : world) :
  add_participle_stems c root_map w = (Ok tt, w') ->
  reported_skips (trace w')
  = reported_skips (trace w)
    ++ [size (list_to_set (unresolved root_map (participle_key <$> PARTICIPLE_STEMS c))
              : gset root_key)].
Proof.
  unfold add_participle_stems. intros H.
  do 2 (apply bind_Ok_inv in H as (? & ? & Hget & H);
        apply ENUM_get_inv in Hget as ->).
  apply bind_Ok_inv in H as ([skipped n] & w1 & Hloop & H).
  cbv beta iota zeta in H.
  pose proof (same_skips_participles_loop _ _ _ _ _ _ _ _ Hloop) as Hframe.
  apply (for_fold_inv
           (fun done (s : gset root_key * nat) =>
              s.1 = list_to_set (unresolved root_map (participle_key <$> done))) _)
    with (done := []) in Hloop; [| |done].
  - injection H as <-. cbn [trace fst] in *.
    rewrite reported_skips_app, !reported_skips_snoc_other by done.
    unfold same_skips in Hframe. by rewrite Hframe, Hloop.
  - intros done [skipped0 i] r wa s' wb HI Hb. cbn [fst] in HI.
    unfold add_participle_stem in Hb. cbv beta iota zeta in Hb. rewrite fmap_app.
    cbn [fmap list_fmap].
    destruct (root_map !! (p_root r, p_hom r)) as [root_id|] eqn:Hroot.
    + repeat (apply bind_Ok_inv in Hb as (? & ? & _ & Hb)).
      injection Hb as <- _. cbn [fst].
      by rewrite (unresolved_snoc_hit _ _ (participle_key r) root_id Hroot).
    + injection Hb as <- _. cbn [fst].
      by apply (skipped_set_miss _ _ (participle_key r)).
Qed.

Lemma unresolved_dangling (c : ctx) (root_map : root_map_t) (keys : list root_key) :
  dom root_map = file_roots c ->
  list_to_set (unresolved root_map keys) = dangling c keys.
Proof.
  intros Hdom. unfold dangling, unresolved. f_equal.
  apply list_filter_iff. intros k. by rewrite <- Hdom, not_elem_of_dom.
Qed.

(** X17: a verbal stage that ends normally has printed two skip counts,
    and the files alone fix them: the first is the number of distinct
    (root, homonym) pairs of the verbs file that no record of the roots
    file has, the second the same for the participle-stems file.  The
    root map [add_roots] returns is the one both stages resolve in, and
    the prefixes, endings, roots and gerund and infinitive stages print
    no count. *)
Theorem add_verbal_skip_counts (c : ctx) (w w' : world) :
  add_verbal c w = (Ok tt, w') ->
  reported_skips (trace w')
  = reported_skips (trace w)
    ++ [ size (dangling c (verb_key <$> VERBS c));
         size (dangling c (participle_key <$> PARTICIPLE_STEMS c)) ].
Proof.
  unfold add_verbal. intros H.
  apply bind_Ok_inv in H as (? & w1 & H1 & H). apply same_skips_heading in H1.
  apply bind_Ok_inv in H as (prefixes & w2 & H2 & H).
  apply same_skips_add_verb_prefixes in H2.
  apply bind_Ok_inv in H as (? & w3 & H3 & H). apply same_skips_heading in H3.
  apply bind_Ok_inv in H as (? & w4 & H4 & H).
  apply same_skips_add_verb_endings in H4.
  apply bind_Ok_inv in H as (? & w5 & H5 & H). apply same_skips_heading in H5.
  apply bind_Ok_inv in H as (roots & w6 & Hroots & H).
  pose proof (same_skips_add_roots _ _ _ _ Hroots) as H6.
  apply add_roots_dom in Hroots.
  apply bind_Ok_inv in H as (? & w7 & H7 & H). apply same_skips_heading in H7.
  apply bind_Ok_inv in H as ([] & w8 & H8 & H).
  apply add_verbs_prints_unresolved in H8.
  apply bind_Ok_inv in H as (? & w9 & H9 & H). apply same_skips_heading in H9.
  apply bind_Ok_inv in H as ([] & w10 & H10 & H).
  apply add_participle_stems_prints_unresolved in H10.
  apply bind_Ok_inv in H as (? & w11 & H11 & H). apply same_skips_heading in H11.
  apply same_skips_add_verbal_indeclinables in H.
  unfold same_skips in *.
  rewrite H, H11, H10, H9, H8, H7, H6, H5, H4, H3, H2, H1.
  rewrite !(unresolved_dangling c roots) by done.
  by rewrite <- app_assoc.
Qed.

Lemma add_verbal_skip_counts_witness :
  reported_skips (trace (add_verbal sample_ctx sample_world).2)
  = [ size (dangling sample_ctx (verb_key <$> VERBS sample_ctx));
      size (dangling sample_ctx (participle_key <$> PARTICIPLE_STEMS sample_ctx)) ].
Proof.
  apply (add_verbal_skip_counts sample_ctx sample_world
           (add_verbal sample_ctx sample_world).2).
  by vm_compute.
Defined.

End verbal_stage.

(** * Stages that commit as they go *)

Section periodic_commits.
Import setup.














End periodic_commits.

(** * The run as a whole *)

Section run_order.
Import setup.

(** [run] is the fixed sequence: the loop over [functions], [add_verbal]
    and [add_nominals] come to the stages one after the other, and an
    exception of one of them ends the run there. *)
Lemma run_is_fixed_sequence (c : ctx) (w : world) :
  run c w = run_in_fixed_order c w.
Proof.
  unfold run, run_in_fixed_order, functions, add_verbal, add_nominals.
  cbn [for_]. unfold mbind, M_bind.
  repeat match goal with
         | |- context [match ?m ?w0 with _ => _ end] =>
             lazymatch m with
             | context [match _ with _ => _ end] => fail
             | _ => destruct (m w0) as [[?|?] ?]
             end
         end;
    repeat match goal with a : unit |- _ => destruct a end;
    reflexivity.
Qed.

(** C6: [run] is the fixed sequence of the specification: [drop_all],
    then [create_all], then, each under its heading, the stages Tags,
    Enumerated data, Sandhi, Indeclinables, Verbal data (verb prefixes,
    verb endings, roots and paradigms, verbs, participle stems, gerunds
    and infinitives) and Nominal data (nominal endings, noun stems,
    irregular nouns, adjective stems, irregular adjectives, pronouns);
    an exception of a stage ends the run at that stage.  On the trace,
    the drop, the creation and the table names it prints come first,
    no schema operation follows them, so every write of a stage comes
    after both, and the headings printed after them are those of the
    stages, in that order: all of them when the run ends normally, the
    first of them up to the failing stage when it does not.  No stage
    runs before the stage that builds a lookup table it reads: the root
    map that the verbs, participle-stems and gerund and infinitive
    stages resolve in is the one the roots stage, run before them,
    returned; the one stage before Enumerated data, Tags, does not read
    [ENUM]; and no stage after Enumerated data writes [ENUM], so that
    each of them reads the tables as the enum stage left them. *)
Theorem run_drops_creates_then_stages_in_order (c : ctx) (w : world) :
  run c w = run_in_fixed_order c w /\
  (exists printed t,
     trace (run c w).2
       = trace w ++ DropAll :: CreateAll :: (PrintCreated <$> printed) ++ t /\
     Forall (fun e => ~ schema_event e) t /\
     headings t `prefix_of` pipeline_headings /\
     ((run c w).1 = Ok tt -> headings t = pipeline_headings)) /\
  ignores_ENUM (add_tags c) /\
  respects same_ENUM (add_sandhi c) /\
  respects same_ENUM (add_indeclinables c) /\
  respects same_ENUM (add_verbal c) /\
  respects same_ENUM (add_nominals c).
Proof.
  split; [apply run_is_fixed_sequence|].
  split; [|split; [apply ignores_ENUM_add_tags|]].
  - set (created := context.create_all (sorted_tables c)
                      (context.drop_all (sorted_tables c) (tables w))).
    set (w2 := {| ENUM := ENUM w; pending := pending w; database := [];
                  tables := created.1;
                  trace := (trace w ++ [DropAll]) ++
                           CreateAll :: (PrintCreated <$> created.2) |}).
    assert (Hrun : run c w
                   = for_ functions (fun '(name, f) => heading name "~" ;; f c) w2)
      by reflexivity.
    rewrite Hrun.
    destruct (for_ functions (fun '(name, f) => heading name "~" ;; f c) w2)
      as [r w'] eqn:E.
    destruct (announces_functions c w2 r w' E) as (t & Ht & Hs & Hpre & Hall).
    exists created.2, t. cbn [fst snd]. rewrite Ht. cbn [w2 trace].
    split; [by rewrite <- !app_assoc|]. split; [done|]. split; [done|].
    intros ->. by apply Hall.
  - split; [apply same_ENUM_add_sandhi|].
    split; [apply same_ENUM_add_indeclinables|].
    split; [apply same_ENUM_add_verbal|apply same_ENUM_add_nominals].
Qed.

Lemma run_drops_creates_then_stages_in_order_witness :
  (run sample_ctx empty_world).1 = Ok tt /\
  headings (trace (run sample_ctx empty_world).2) = pipeline_headings.
Proof.
  destruct (proj1 (proj2 (run_drops_creates_then_stages_in_order sample_ctx empty_world)))
    as (printed & t & Ht & _ & _ & Hall).
  assert (Hok : (run sample_ctx empty_world).1 = Ok tt) by (by vm_compute).
  split; [exact Hok|].
  rewrite Ht. cbn [empty_world trace app].
  change (DropAll :: CreateAll :: (PrintCreated <$> printed) ++ t)
    with ([DropAll; CreateAll] ++ (PrintCreated <$> printed) ++ t).
  rewrite !headings_app, (Hall Hok), headings_printed. reflexivity.
Defined.

End run_order.
